(** * Hua Rong Dao solver (hrd.py): a shallow embedding and its properties

    The Python program is embedded as Rocq functions over Python-like data:
    unbounded integers are [Z], lists are [list] with Python's indexing
    (negative indices count from the end, anything else out of range raises
    [IndexError]), one-character strings of the grid are [ascii], and code
    that can raise returns a [res]. *)

From Stdlib Require Import ZArith Ascii String Lia.
From stdpp Require Import base list strings gmap.

#[local] Set Warnings "-register-all".

Local Open Scope Z_scope.

(** ** Exceptions and the error monad *)

Inductive exn : Type := IndexError | TypeError.

Inductive res (A : Type) : Type :=
| Ok (a : A)
| Raise (e : exn).
Arguments Ok {A} a.
Arguments Raise {A} e.

Definition bind {A B} (m : res A) (k : A -> res B) : res B :=
  match m with
  | Ok a => k a
  | Raise e => Raise e
  end.

Notation "x <- m ;; k" := (bind m (fun x => k))
  (at level 100, m at next level, right associativity).

(** Python's short-circuit [and] over conditions that may raise. *)
Definition and_then (a b : res bool) : res bool :=
  c <- a ;; if c then b else Ok false.

(** ** Python list indexing *)

Definition py_index {A} (l : list A) (i : Z) : res nat :=
  let n := Z.of_nat (length l) in
  if (0 <=? i) && (i <? n) then Ok (Z.to_nat i)
  else if (- n <=? i) && (i <? 0) then Ok (Z.to_nat (n + i))
  else Raise IndexError.

Definition getitem {A} (l : list A) (i : Z) : res A :=
  k <- py_index l i ;;
  match l !! k with
  | Some a => Ok a
  | None => Raise IndexError
  end.

Definition setitem {A} (l : list A) (i : Z) (a : A) : res (list A) :=
  k <- py_index l i ;; Ok (<[k:=a]> l).

(** ** Pieces *)

Definition char_goal : ascii := "1"%char.
Definition char_single : ascii := "2"%char.

Record Piece : Type := mkPiece {
  is_goal : bool;
  is_single : bool;
  coord_x : Z;
  coord_y : Z;
  orientation : option string
}.

(** ** Boards *)

Definition Grid : Type := list (list ascii).

Record Board : Type := mkBoard {
  pieces : list Piece;
  grid : Grid
}.

Definition width : Z := 4.
Definition height : Z := 5.

(** [self.grid[row][col] = ch]: the rows are distinct list objects. *)
Definition grid_set (g : Grid) (row col : Z) (ch : ascii) : res Grid :=
  line <- getitem g row ;;
  line' <- setitem line col ch ;;
  setitem g row line'.

Definition blank_grid : Grid :=
  replicate (Z.to_nat height) (replicate (Z.to_nat width) "."%char).

(** The body of the [for piece in self.pieces] loop of [__construct_grid]. *)
Definition place_piece (g : Grid) (piece : Piece) : res Grid :=
  let x := coord_x piece in
  let y := coord_y piece in
  if is_goal piece then
    g <- grid_set g y x char_goal ;;
    g <- grid_set g y (x + 1) char_goal ;;
    g <- grid_set g (y + 1) x char_goal ;;
    grid_set g (y + 1) (x + 1) char_goal
  else if is_single piece then
    grid_set g y x char_single
  else
    match orientation piece with
    | Some o =>
        if String.eqb o "h" then
          g <- grid_set g y x "<"%char ;;
          grid_set g y (x + 1) ">"%char
        else if String.eqb o "v" then
          g <- grid_set g y x "^"%char ;;
          grid_set g (y + 1) x "v"%char
        else Ok g
    | None => Ok g
    end.

Fixpoint place_pieces (g : Grid) (ps : list Piece) : res Grid :=
  match ps with
  | [] => Ok g
  | piece :: ps' => g' <- place_piece g piece ;; place_pieces g' ps'
  end.

Definition construct_grid (ps : list Piece) : res Grid :=
  place_pieces blank_grid ps.

(** [Board(pieces)] *)
Definition Board_init (ps : list Piece) : res Board :=
  g <- construct_grid ps ;; Ok (mkBoard ps g).

(** [empty_spaces]: the [[i, j]] index pairs, row first, in scan order. *)
Fixpoint scan_line (g : Grid) (i : Z) (js : list Z) : res (list (Z * Z)) :=
  match js with
  | [] => Ok []
  | j :: js' =>
      line <- getitem g i ;;
      ch <- getitem line j ;;
      rest <- scan_line g i js' ;;
      Ok (if Ascii.eqb ch "."%char then (i, j) :: rest else rest)
  end.

Fixpoint scan_rows (g : Grid) (rows : list Z) (js : list Z) : res (list (Z * Z)) :=
  match rows with
  | [] => Ok []
  | i :: rows' =>
      here <- scan_line g i js ;;
      rest <- scan_rows g rows' js ;;
      Ok (here ++ rest)
  end.

Definition empty_spaces (b : Board) : res (list (Z * Z)) :=
  scan_rows (grid b) [0; 1; 2; 3; 4] [0; 1; 2; 3].

Definition is_empty (b : Board) (x y : Z) : res bool :=
  if (x <? 0) || (x >? 3) || (y <? 0) || (y >? 4) then Ok false
  else
    spaces <- empty_spaces b ;;
    Ok (bool_decide ((y, x) ∈ spaces)).

(** [get_goal] falls off the end of the loop, returning [None], when no piece
    is the goal piece. *)
Fixpoint find_goal (ps : list Piece) : option (Z * Z) :=
  match ps with
  | [] => None
  | piece :: ps' =>
      if is_goal piece then Some (coord_x piece, coord_y piece)
      else find_goal ps'
  end.

Definition get_goal (b : Board) : option (Z * Z) := find_goal (pieces b).

Definition Board_str (b : Board) : string :=
  string_of_list_ascii (concat (grid b)).

Definition Board_eq (b other : Board) : bool :=
  String.eqb (Board_str b) (Board_str other).

(** [str(self.grid)]: the [repr] of a list of lists of one-character
    strings, none of which is a quote or needs an escape. *)
Definition cell_repr (ch : ascii) : string :=
  String "'" (String ch (String "'" EmptyString)).

Definition line_repr (line : list ascii) : string :=
  String.append "[" (String.append (String.concat ", " (map cell_repr line)) "]").

Definition grid_repr (g : Grid) : string :=
  String.append "[" (String.append (String.concat ", " (map line_repr g)) "]").

Section Hash.
(** Python's [hash] on [str]: some function of the characters, fixed for
    the run of the program. *)
Variable py_hash : string -> Z.

Definition Board_hash (b : Board) : Z := py_hash (grid_repr (grid b)).
End Hash.

(** ** Search nodes *)

Inductive State : Type :=
| mkState (board : Board) (f : Z) (depth : Z) (parent : option State).

Definition board (s : State) : Board := let (b, _, _, _) := s in b.
Definition f (s : State) : Z := let (_, v, _, _) := s in v.
Definition depth (s : State) : Z := let (_, _, d, _) := s in d.
Definition parent (s : State) : option State := let (_, _, _, p) := s in p.

Definition State_lt (s other : State) : bool := f s <? f other.

Definition goal_test (state : State) : res bool :=
  and_then
    (line <- getitem (grid (board state)) 3 ;;
     ch <- getitem line 1 ;;
     Ok (Ascii.eqb ch char_goal))
    (line <- getitem (grid (board state)) 4 ;;
     ch <- getitem line 2 ;;
     Ok (Ascii.eqb ch char_goal)).

(** [manhattan]: subscripting the [None] of a goal-less board raises. *)
Definition manhattan (b : Board) : res Z :=
  match get_goal b with
  | Some (gx, gy) => Ok (Z.abs (gx - 1) + Z.abs (gy - 3))
  | None => Raise TypeError
  end.

(** [new_board]: [former_piece] is the object the enclosing loop is visiting.
    The pieces of a list are distinct objects (each is made by its own call of
    [Piece]), so [old_piece is not former_piece] drops exactly the list
    position [idx] being visited. *)
Definition new_board (old_pieces : list Piece) (new_piece : Piece)
    (idx : nat) : res Board :=
  Board_init (new_piece :: delete idx old_pieces).

(** ** Move generation *)

(** One [new_p = ...; new_b = ...; successors.append(State(...))] block. *)
Definition emit (state : State) (idx : nat) (new_p : Piece)
    (successors : list State) : res (list State) :=
  new_b <- new_board (pieces (board state)) new_p idx ;;
  h <- manhattan new_b ;;
  Ok (successors ++
      [mkState new_b (h + depth state + 1) (depth state + 1) (Some state)]).

Definition emit_if (c : bool) (state : State) (idx : nat) (new_p : Piece)
    (successors : list State) : res (list State) :=
  if c then emit state idx new_p successors else Ok successors.

(** The body of the [for p in pieces] loop. *)
Definition expand_piece (state : State) (idx : nat) (p : Piece)
    (successors : list State) : res (list State) :=
  let b := board state in
  let x := coord_x p in
  let y := coord_y p in
  if is_goal p then
    c <- and_then (is_empty b (x + 2) y) (is_empty b (x + 2) (y + 1)) ;;
    if c then emit state idx (mkPiece true false (x + 1) y None) successors
    else
    c <- and_then (is_empty b (x - 1) y) (is_empty b (x - 1) (y + 1)) ;;
    if c then emit state idx (mkPiece true false (x - 1) y None) successors
    else
    c <- and_then (is_empty b x (y + 2)) (is_empty b (x + 1) (y + 2)) ;;
    if c then emit state idx (mkPiece true false x (y + 1) None) successors
    else
    c <- and_then (is_empty b x (y - 1)) (is_empty b (x + 1) (y - 1)) ;;
    emit_if c state idx (mkPiece true false x (y - 1) None) successors
  else if is_single p then
    c <- is_empty b (x + 1) y ;;
    successors <- emit_if c state idx (mkPiece false true (x + 1) y None) successors ;;
    c <- is_empty b (x - 1) y ;;
    successors <- emit_if c state idx (mkPiece false true (x - 1) y None) successors ;;
    c <- is_empty b x (y + 1) ;;
    successors <- emit_if c state idx (mkPiece false true x (y + 1) None) successors ;;
    c <- is_empty b x (y - 1) ;;
    emit_if c state idx (mkPiece false true x (y - 1) None) successors
  else
    match orientation p with
    | None => Ok successors
    | Some o =>
        if String.eqb o "h" then
          c <- is_empty b (x + 2) y ;;
          successors <- emit_if c state idx (mkPiece false false (x + 1) y (Some "h"%string)) successors ;;
          c <- is_empty b (x - 1) y ;;
          successors <- emit_if c state idx (mkPiece false false (x - 1) y (Some "h"%string)) successors ;;
          c <- and_then (is_empty b x (y + 1)) (is_empty b (x + 1) (y + 1)) ;;
          if c then emit state idx (mkPiece false false x (y + 1) (Some "h"%string)) successors
          else
          c <- and_then (is_empty b x (y - 1)) (is_empty b (x + 1) (y - 1)) ;;
          emit_if c state idx (mkPiece false false x (y - 1) (Some "h"%string)) successors
        else if String.eqb o "v" then
          c <- and_then (is_empty b (x + 1) y) (is_empty b (x + 1) (y + 1)) ;;
          successors <-
            (if c then emit state idx (mkPiece false false (x + 1) y (Some "v"%string)) successors
             else
             c <- and_then (is_empty b (x - 1) y) (is_empty b (x - 1) (y + 1)) ;;
             emit_if c state idx (mkPiece false false (x - 1) y (Some "v"%string)) successors) ;;
          c <- is_empty b x (y + 2) ;;
          successors <- emit_if c state idx (mkPiece false false x (y + 1) (Some "v"%string)) successors ;;
          c <- is_empty b x (y - 1) ;;
          emit_if c state idx (mkPiece false false x (y - 1) (Some "v"%string)) successors
        else Ok successors
    end.

Fixpoint expand_from (state : State) (idx : nat) (ps : list Piece)
    (successors : list State) : res (list State) :=
  match ps with
  | [] => Ok successors
  | p :: ps' =>
      successors <- expand_piece state idx p successors ;;
      expand_from state (S idx) ps' successors
  end.

Definition generate_successors (state : State) : res (list State) :=
  expand_from state 0%nat (pieces (board state)) [].

(** ** The [heapq] module of the Python library

    [heappush] and [heappop] as CPython implements them, over a list and a
    [<] given by the items' [__lt__].  Every subscript below is in range by
    the loop conditions; the [None] branches are never taken. *)

Section Heapq.
Context {A : Type} (lt : A -> A -> bool).

(** The [while pos > startpos] loop of [_siftdown]; [pos] shrinks at every
    iteration, so [n = pos] iterations are enough. *)
Fixpoint siftdown_loop (n : nat) (heap : list A) (newitem : A)
    (startpos pos : nat) : list A :=
  match n with
  | O => <[pos:=newitem]> heap
  | S n' =>
      if (startpos <? pos)%nat then
        let parentpos := ((pos - 1) / 2)%nat in
        match heap !! parentpos with
        | Some parent =>
            if lt newitem parent
            then siftdown_loop n' (<[pos:=parent]> heap) newitem startpos parentpos
            else <[pos:=newitem]> heap
        | None => <[pos:=newitem]> heap
        end
      else <[pos:=newitem]> heap
  end.

Definition siftdown (heap : list A) (startpos pos : nat) : list A :=
  match heap !! pos with
  | Some newitem => siftdown_loop pos heap newitem startpos pos
  | None => heap
  end.

(** The [while childpos < endpos] loop of [_siftup]: the smaller child
    moves up until a leaf is reached; returns the heap and the leaf. *)
Fixpoint siftup_loop (n : nat) (heap : list A) (endpos pos : nat)
    : list A * nat :=
  match n with
  | O => (heap, pos)
  | S n' =>
      let childpos := (2 * pos + 1)%nat in
      if (childpos <? endpos)%nat then
        let rightpos := (childpos + 1)%nat in
        let childpos :=
          match heap !! childpos, heap !! rightpos with
          | Some l, Some r =>
              if (rightpos <? endpos)%nat && negb (lt l r)
              then rightpos else childpos
          | _, _ => childpos
          end in
        match heap !! childpos with
        | Some c => siftup_loop n' (<[pos:=c]> heap) endpos childpos
        | None => (heap, pos)
        end
      else (heap, pos)
  end.

Definition siftup (heap : list A) (pos : nat) : list A :=
  match heap !! pos with
  | Some newitem =>
      let endpos := length heap in
      let '(heap, leaf) := siftup_loop endpos heap endpos pos in
      siftdown (<[leaf:=newitem]> heap) pos leaf
  | None => heap
  end.

Definition heappush (heap : list A) (item : A) : list A :=
  let heap := heap ++ [item] in
  siftdown heap 0 (length heap - 1).

Definition heappop (heap : list A) : res (A * list A) :=
  match last heap with
  | None => Raise IndexError
  | Some lastelt =>
      match removelast heap with
      | [] => Ok (lastelt, [])
      | returnitem :: rest =>
          Ok (returnitem, siftup (lastelt :: rest) 0)
      end
  end.
End Heapq.

(** ** Depth-first search *)

(** [frontier.pop()] *)
Definition list_pop {A} (l : list A) : res (A * list A) :=
  match last l with
  | Some a => Ok (a, removelast l)
  | None => Raise IndexError
  end.

(** The [for successor in generate_successors(curr)] loop of [dfs]. *)
Fixpoint dfs_visit (successors : list State) (frontier : list State)
    (explored : list Grid) : list State * list Grid :=
  match successors with
  | [] => (frontier, explored)
  | successor :: rest =>
      if bool_decide (grid (board successor) ∈ explored)
      then dfs_visit rest frontier explored
      else dfs_visit rest (frontier ++ [successor])
                     (explored ++ [grid (board successor)])
  end.

(** The [while frontier != []] loop, run for at most [fuel] iterations;
    [None] means the iterations ran out. *)
Fixpoint dfs_loop (fuel : nat) (frontier : list State) (explored : list Grid)
    : option (res (option State)) :=
  match fuel with
  | O => None
  | S fuel' =>
      match frontier with
      | [] => Some (Ok None)
      | _ :: _ =>
          match list_pop frontier with
          | Raise e => Some (Raise e)
          | Ok (curr, frontier) =>
              match goal_test curr with
              | Raise e => Some (Raise e)
              | Ok true => Some (Ok (Some curr))
              | Ok false =>
                  match generate_successors curr with
                  | Raise e => Some (Raise e)
                  | Ok successors =>
                      let '(frontier, explored) :=
                        dfs_visit successors frontier explored in
                      dfs_loop fuel' frontier explored
                  end
              end
          end
      end
  end.

Definition dfs (fuel : nat) (initial : State) : option (res (option State)) :=
  dfs_loop fuel [initial] [].

(** ** A* search *)

(** The dictionary [explored] is keyed by boards compared with [__eq__], that
    is by their [__str__]. *)
Fixpoint astar_visit (successors : list State) (frontier : list State)
    (explored : gmap string State) : list State * gmap string State :=
  match successors with
  | [] => (frontier, explored)
  | successor :: rest =>
      let key := Board_str (board successor) in
      let better :=
        match explored !! key with
        | None => true
        | Some recorded => State_lt successor recorded
        end in
      if better
      then astar_visit rest (heappush State_lt frontier successor)
                       (<[key:=successor]> explored)
      else astar_visit rest frontier explored
  end.

Fixpoint astar_loop (fuel : nat) (frontier : list State)
    (explored : gmap string State) : option (res (option State)) :=
  match fuel with
  | O => None
  | S fuel' =>
      match frontier with
      | [] => Some (Ok None)
      | _ :: _ =>
          match heappop State_lt frontier with
          | Raise e => Some (Raise e)
          | Ok (curr, frontier) =>
              match goal_test curr with
              | Raise e => Some (Raise e)
              | Ok true => Some (Ok (Some curr))
              | Ok false =>
                  match generate_successors curr with
                  | Raise e => Some (Raise e)
                  | Ok successors =>
                      let '(frontier, explored) :=
                        astar_visit successors frontier explored in
                      astar_loop fuel' frontier explored
                  end
              end
          end
      end
  end.

(** [heapq.heapify] leaves a one-element list as it is. *)
Definition astar (fuel : nat) (initial : State) : option (res (option State)) :=
  astar_loop fuel [initial] {[ Board_str (board initial) := initial ]}.

(** ** Path reconstruction *)

(** The first loop of [get_solution]: boards from [state] up to the root. *)
Fixpoint path_from (state : State) : list Board :=
  match state with
  | mkState b _ _ p =>
      b :: match p with
           | Some q => path_from q
           | None => []
           end
  end.

Definition collect_path (state : option State) : list Board :=
  match state with
  | Some s => path_from s
  | None => []
  end.

(** What the inner loops write for one board. *)
Definition write_board (b : Board) : list ascii :=
  concat (map (fun line => line ++ ["010"%char]) (grid b)) ++ ["010"%char].

(** The second loop pops [path] from its end, so the root is written first.
    The result is the text of the output file and the printed count. *)
Fixpoint write_path (path : list Board) (state_count : Z)
    : list ascii * Z :=
  match path with
  | [] => ([], state_count)
  | b :: path' =>
      let '(text, n) := write_path path' (state_count + 1) in
      (write_board b ++ text, n)
  end.

Definition get_solution (state : option State) : string * Z :=
  let path := collect_path state in
  let '(text, n) := write_path (rev path) 0 in
  (string_of_list_ascii text, n).

(** ** Printing a board *)

(** [display]: what is printed, one line for each row of the grid. *)
Definition display (b : Board) : list ascii :=
  concat (map (fun line => line ++ ["010"%char]) (grid b)).

(** ** Reading the puzzle file *)

(** The lines a text file yields when it is iterated: each line with its
    newline, the last one without if the text does not end in one.  [text]
    is the text as the file object delivers it. *)
Fixpoint file_lines_from (text : list ascii) (line : list ascii)
    : list (list ascii) :=
  match text with
  | [] => match line with [] => [] | _ :: _ => [line] end
  | ch :: text' =>
      if Ascii.eqb ch "010"%char
      then (line ++ [ch]) :: file_lines_from text' []
      else file_lines_from text' (line ++ [ch])
  end.

Definition file_lines (text : list ascii) : list (list ascii) :=
  file_lines_from text [].

(** The body of the [for x, ch in enumerate(line)] loop of [read_from_file],
    on the list [pieces] and the flag [g_found]. *)
Definition read_char (x line_index : Z) (ch : ascii)
    (acc : list Piece * bool) : list Piece * bool :=
  let '(pieces, g_found) := acc in
  if Ascii.eqb ch "^"%char
  then (pieces ++ [mkPiece false false x line_index (Some "v"%string)], g_found)
  else if Ascii.eqb ch "<"%char
  then (pieces ++ [mkPiece false false x line_index (Some "h"%string)], g_found)
  else if Ascii.eqb ch char_single
  then (pieces ++ [mkPiece false true x line_index None], g_found)
  else if Ascii.eqb ch char_goal
  then if g_found then (pieces, g_found)
       else (pieces ++ [mkPiece true false x line_index None], true)
  else (pieces, g_found).

Fixpoint read_line (x : Z) (line : list ascii) (line_index : Z)
    (acc : list Piece * bool) : list Piece * bool :=
  match line with
  | [] => acc
  | ch :: line' =>
      read_line (x + 1) line' line_index (read_char x line_index ch acc)
  end.

Fixpoint read_lines (lines : list (list ascii)) (line_index : Z)
    (acc : list Piece * bool) : list Piece * bool :=
  match lines with
  | [] => acc
  | line :: lines' =>
      read_lines lines' (line_index + 1) (read_line 0 line line_index acc)
  end.

(** [read_from_file], given the text of the file. *)
Definition read_from_file (text : list ascii) : res Board :=
  Board_init (read_lines (file_lines text) 0 ([], false)).1.

(** ** The program *)

(** The two values [--algo] may take. *)
Inductive Algo : Type := algo_astar | algo_dfs.

(** The main block: the text of the input file in, the text of the output
    file and the printed count out; [fuel] bounds the search loop. *)
Definition main (algo : Algo) (text : list ascii) (fuel : nat)
    : option (res (string * Z)) :=
  match read_from_file text with
  | Raise e => Some (Raise e)
  | Ok b =>
      match manhattan b with
      | Raise e => Some (Raise e)
      | Ok h =>
          let initial := mkState b h 0 None in
          let found :=
            match algo with
            | algo_astar => astar fuel initial
            | algo_dfs => dfs fuel initial
            end in
          match found with
          | None => None
          | Some (Raise e) => Some (Raise e)
          | Some (Ok state) => Some (Ok (get_solution state))
          end
      end
  end.

(** * The vocabulary of the properties *)

(** ** The data model of the pieces *)

Inductive Kind : Type := Goal | Single | HDomino | VDomino.

(** The kind a piece is treated as, by the tests that [__construct_grid] and
    [generate_successors] both make, in their order. *)
Definition kind_of (p : Piece) : option Kind :=
  if is_goal p then Some Goal
  else if is_single p then Some Single
  else match orientation p with
       | Some o =>
           if String.eqb o "h" then Some HDomino
           else if String.eqb o "v" then Some VDomino
           else None
       | None => None
       end.

(** Cells are written [(x, y)]: column first. *)
Definition footprint (k : Kind) (x y : Z) : list (Z * Z) :=
  match k with
  | Goal => [(x, y); (x + 1, y); (x, y + 1); (x + 1, y + 1)]
  | Single => [(x, y)]
  | HDomino => [(x, y); (x + 1, y)]
  | VDomino => [(x, y); (x, y + 1)]
  end.

Definition cells (p : Piece) : list (Z * Z) :=
  match kind_of p with
  | Some k => footprint k (coord_x p) (coord_y p)
  | None => []
  end.

Definition in_board (c : Z * Z) : Prop :=
  0 <= c.1 <= 3 /\ 0 <= c.2 <= 4.

(** A piece as [read_from_file] and [generate_successors] build it, following
    the docstring of [Piece]: no orientation unless it is a 1x2 piece. *)
Definition piece_typed (p : Piece) : Prop :=
  match kind_of p with
  | Some Goal => is_single p = false /\ orientation p = None
  | Some Single => orientation p = None
  | Some HDomino => orientation p = Some "h"%string
  | Some VDomino => orientation p = Some "v"%string
  | None => False
  end.

Definition bounded (p : Piece) : Prop := Forall in_board (cells p).

(** No cell belongs to two pieces of the list. *)
Definition disjoint_footprints (ps : list Piece) : Prop :=
  forall i j p q,
    i <> j -> ps !! i = Some p -> ps !! j = Some q ->
    forall c, c ∈ cells p -> c ∈ cells q -> False.

(** The invariants of the data model on a piece list. *)
Record pieces_ok (ps : list Piece) : Prop := {
  ok_typed : Forall piece_typed ps;
  ok_bounds : Forall bounded ps;
  ok_disjoint : disjoint_footprints ps;
  ok_goal : length (filter (fun p => is_goal p = true) ps) = 1%nat
}.

(** A board as the constructor leaves it. *)
Definition board_ok (b : Board) : Prop :=
  pieces_ok (pieces b) /\ construct_grid (pieces b) = Ok (grid b).

(** ** Grids as functions of the cell *)

Definition grid_of_fun (φ : Z -> Z -> ascii) : Grid :=
  map (fun y => map (fun x => φ x y) [0; 1; 2; 3]) [0; 1; 2; 3; 4].

Definition upd (φ : Z -> Z -> ascii) (cx cy : Z) (ch : ascii)
    : Z -> Z -> ascii :=
  fun x y => if (x =? cx) && (y =? cy) then ch else φ x y.

(** What one piece writes. *)
Definition paint_piece (φ : Z -> Z -> ascii) (p : Piece) : Z -> Z -> ascii :=
  let x := coord_x p in
  let y := coord_y p in
  match kind_of p with
  | Some Goal =>
      upd (upd (upd (upd φ x y char_goal) (x + 1) y char_goal)
             x (y + 1) char_goal) (x + 1) (y + 1) char_goal
  | Some Single => upd φ x y char_single
  | Some HDomino => upd (upd φ x y "<"%char) (x + 1) y ">"%char
  | Some VDomino => upd (upd φ x y "^"%char) x (y + 1) "v"%char
  | None => φ
  end.

Definition paint (ps : list Piece) : Z -> Z -> ascii :=
  fold_left paint_piece ps (fun _ _ => "."%char).

(** The symbol a piece shows at a cell, if it covers the cell. *)
Definition symbol (p : Piece) (x y : Z) : option ascii :=
  let ax := coord_x p in
  let ay := coord_y p in
  match kind_of p with
  | Some Goal =>
      if ((x =? ax) || (x =? ax + 1)) && ((y =? ay) || (y =? ay + 1))
      then Some char_goal else None
  | Some Single =>
      if (x =? ax) && (y =? ay) then Some char_single else None
  | Some HDomino =>
      if (x =? ax) && (y =? ay) then Some "<"%char
      else if (x =? ax + 1) && (y =? ay) then Some ">"%char else None
  | Some VDomino =>
      if (x =? ax) && (y =? ay) then Some "^"%char
      else if (x =? ax) && (y =? ay + 1) then Some "v"%char else None
  | None => None
  end.

(** ** Emptiness queries *)

Definition free (φ : Z -> Z -> ascii) (x y : Z) : bool :=
  (0 <=? x) && (x <=? 3) && (0 <=? y) && (y <=? 4) &&
  Ascii.eqb (φ x y) "."%char.

(** ** Moves *)

Inductive Dir : Type := Right | Left | Down | Up.

(** The same piece with its anchor one cell further in a direction. *)
Definition shift_piece (p : Piece) (d : Dir) : Piece :=
  match d with
  | Right => mkPiece (is_goal p) (is_single p) (coord_x p + 1) (coord_y p) (orientation p)
  | Left => mkPiece (is_goal p) (is_single p) (coord_x p - 1) (coord_y p) (orientation p)
  | Down => mkPiece (is_goal p) (is_single p) (coord_x p) (coord_y p + 1) (orientation p)
  | Up => mkPiece (is_goal p) (is_single p) (coord_x p) (coord_y p - 1) (orientation p)
  end.

(** The legality rules: the destination cells of a kind in a direction. *)
Definition destination (k : Kind) (x y : Z) (d : Dir) : list (Z * Z) :=
  match k, d with
  | Goal, Right => [(x + 2, y); (x + 2, y + 1)]
  | Goal, Left => [(x - 1, y); (x - 1, y + 1)]
  | Goal, Down => [(x, y + 2); (x + 1, y + 2)]
  | Goal, Up => [(x, y - 1); (x + 1, y - 1)]
  | Single, Right => [(x + 1, y)]
  | Single, Left => [(x - 1, y)]
  | Single, Down => [(x, y + 1)]
  | Single, Up => [(x, y - 1)]
  | HDomino, Right => [(x + 2, y)]
  | HDomino, Left => [(x - 1, y)]
  | HDomino, Down => [(x, y + 1); (x + 1, y + 1)]
  | HDomino, Up => [(x, y - 1); (x + 1, y - 1)]
  | VDomino, Right => [(x + 1, y); (x + 1, y + 1)]
  | VDomino, Left => [(x - 1, y); (x - 1, y + 1)]
  | VDomino, Down => [(x, y + 2)]
  | VDomino, Up => [(x, y - 1)]
  end.

Definition legal (φ : Z -> Z -> ascii) (p : Piece) (d : Dir) : bool :=
  match kind_of p with
  | Some k =>
      forallb (fun c => free φ c.1 c.2) (destination k (coord_x p) (coord_y p) d)
  | None => false
  end.

(** The directions [generate_successors] moves a piece in, in its order. *)
Definition emitted (φ : Z -> Z -> ascii) (p : Piece) : list Dir :=
  let go d := legal φ p d in
  let one d := if go d then [d] else [] in
  match kind_of p with
  | Some Goal =>
      if go Right then [Right] else if go Left then [Left]
      else if go Down then [Down] else one Up
  | Some Single => one Right ++ one Left ++ one Down ++ one Up
  | Some HDomino =>
      one Right ++ one Left ++ (if go Down then [Down] else one Up)
  | Some VDomino =>
      (if go Right then [Right] else one Left) ++ one Down ++ one Up
  | None => []
  end.

(** ** The successors on a board of the data model *)

Definition heuristic (ps : list Piece) : Z :=
  match find_goal ps with
  | Some (gx, gy) => Z.abs (gx - 1) + Z.abs (gy - 3)
  | None => 0
  end.

Definition child_state (st : State) (idx : nat) (p : Piece) (d : Dir) : State :=
  let ps' := shift_piece p d :: delete idx (pieces (board st)) in
  mkState (mkBoard ps' (grid_of_fun (paint ps')))
          (heuristic ps' + depth st + 1) (depth st + 1) (Some st).

Fixpoint children_from (st : State) (idx : nat) (ps : list Piece) : list State :=
  match ps with
  | [] => []
  | p :: ps' =>
      map (child_state st idx p) (emitted (paint (pieces (board st))) p)
      ++ children_from st (S idx) ps'
  end.

Definition successors_of (st : State) : list State :=
  children_from st 0 (pieces (board st)).

(** ** Checking the invariants of a given piece list *)

Definition in_boardb (c : Z * Z) : bool :=
  (0 <=? c.1) && (c.1 <=? 3) && (0 <=? c.2) && (c.2 <=? 4).

Definition typedb (p : Piece) : bool :=
  match kind_of p with
  | Some Goal => negb (is_single p) && bool_decide (orientation p = None)
  | Some Single => bool_decide (orientation p = None)
  | Some HDomino => bool_decide (orientation p = Some "h"%string)
  | Some VDomino => bool_decide (orientation p = Some "v"%string)
  | None => false
  end.

Definition apart (p q : Piece) : bool :=
  forallb (fun c => negb (bool_decide (c ∈ cells q))) (cells p).

Fixpoint disjointb (ps : list Piece) : bool :=
  match ps with
  | [] => true
  | p :: ps' => forallb (apart p) ps' && disjointb ps'
  end.

Definition pieces_okb (ps : list Piece) : bool :=
  forallb typedb ps && forallb (fun p => forallb in_boardb (cells p)) ps &&
  disjointb ps &&
  Nat.eqb (length (filter (fun p => is_goal p = true) ps)) 1.

(** ** The shape of a generated successor *)

Definition step (d : Dir) (x y : Z) : Z * Z :=
  match d with
  | Right => (x + 1, y)
  | Left => (x - 1, y)
  | Down => (x, y + 1)
  | Up => (x, y - 1)
  end.

(** The piece of a kind as the program builds it. *)
Definition canon (k : Kind) (xy : Z * Z) : Piece :=
  match k with
  | Goal => mkPiece true false xy.1 xy.2 None
  | Single => mkPiece false true xy.1 xy.2 None
  | HDomino => mkPiece false false xy.1 xy.2 (Some "h"%string)
  | VDomino => mkPiece false false xy.1 xy.2 (Some "v"%string)
  end.

(** [s] is the successor appended for the board with [new_p] in the place of
    the piece at position [idx]. *)
Definition made_by (st : State) (idx : nat) (new_p : Piece) (s : State) : Prop :=
  exists new_b h,
    new_board (pieces (board st)) new_p idx = Ok new_b /\
    manhattan new_b = Ok h /\
    s = mkState new_b (h + depth st + 1) (depth st + 1) (Some st).

Definition move_of (st : State) (idx : nat) (p : Piece) (s : State) : Prop :=
  exists k d,
    kind_of p = Some k /\
    made_by st idx (canon k (step d (coord_x p) (coord_y p))) s.

(** ** Equality and hashing of boards *)

(** The two lists place the same footprints, in some order. *)
Definition same_footprints (ps qs : list Piece) : Prop :=
  exists qs', qs' ≡ₚ qs /\ Forall2 (fun p q => cells p = cells q) ps qs'.

(** ** States of a search *)

(** The states that come up in a search from [init]: [init] and the
    successors of such states. *)
Inductive descends (init : State) : State -> Prop :=
| descends_root : descends init init
| descends_step p successors s :
    descends init p -> generate_successors p = Ok successors ->
    s ∈ successors -> descends init s.

(** [s] reaches [init] in [n] steps along [parent], each link being one
    move of [generate_successors]. *)
Inductive parent_chain (init : State) : State -> nat -> Prop :=
| chain_root : parent_chain init init 0
| chain_link s p successors n :
    parent s = Some p -> generate_successors p = Ok successors ->
    s ∈ successors -> parent_chain init p n -> parent_chain init s (S n).

(** A property of states kept by [generate_successors]. *)
Definition inherited (P : State -> Prop) : Prop :=
  forall p successors s,
    P p -> generate_successors p = Ok successors -> s ∈ successors -> P s.

(** ** The finitely many grids *)

Definition alphabet : list ascii :=
  ["."; "1"; "2"; "<"; ">"; "^"; "v"]%char.

(** All lists of length [n] over [sigma]. *)
Fixpoint words {A} (n : nat) (sigma : list A) : list (list A) :=
  match n with
  | O => [[]]
  | S n' => flat_map (fun w => map (fun a => a :: w) sigma) (words n' sigma)
  end.

Definition all_grids : list Grid := words 5 (words 4 alphabet).

(** ** The measure of the A* search *)

Definition grid_str (g : Grid) : string := string_of_list_ascii (concat g).

Definition all_keys : gset string := list_to_set (map grid_str all_grids).

(** The sum of the recorded f values. *)
Definition total_f (m : gmap string State) : nat :=
  map_fold (fun _ s acc => (Z.to_nat (f s) + acc)%nat) 0%nat m.

Definition keys_ok (m : gmap string State) : Prop :=
  forall k s, m !! k = Some s -> k ∈ all_keys.

(** A state on a board of the data model with depth and f not negative. *)
Definition good (s : State) : Prop :=
  board_ok (board s) /\ 0 <= depth s /\ 0 <= f s.

(** The recorded map moved down in the order of termination: a new key, or
    a smaller sum over the same keys. *)
Definition progress (m m' : gmap string State) : Prop :=
  (size all_keys - size m' < size all_keys - size m)%nat \/
  (size m' = size m /\ total_f m' < total_f m)%nat.

(** ** Initial states *)

(** [State(board, manhattan(board), 0)] over a board of the data model. *)
Definition initial_state (init : State) : Prop :=
  board_ok (board init) /\ manhattan (board init) = Ok (f init) /\
  depth init = 0 /\ parent init = None.

(** ** [heapq]: the heap order *)

Section HeapOrderDefs.
Context {A : Type} (w : A -> Z).

Definition by_weight (x y : A) : bool := w x <? w y.

Definition heap_ordered (heap : list A) : Prop :=
  forall i x y,
    (0 < i)%nat -> heap !! i = Some x -> heap !! ((i - 1) / 2)%nat = Some y ->
    w y <= w x.

(** The heap order everywhere but around the position [pos], whose item is
    on its way; the children of [pos] weigh at least its parent. *)
Definition ordered_but (heap : list A) (pos : nat) : Prop :=
  (forall i x y,
     (0 < i)%nat -> i <> pos -> ((i - 1) / 2)%nat <> pos ->
     heap !! i = Some x -> heap !! ((i - 1) / 2)%nat = Some y -> w y <= w x) /\
  (forall c x y,
     (0 < c)%nat -> ((c - 1) / 2)%nat = pos -> (0 < pos)%nat ->
     heap !! c = Some x -> heap !! ((pos - 1) / 2)%nat = Some y -> w y <= w x).

Definition below_children (heap : list A) (pos : nat) (item : A) : Prop :=
  forall c x,
    (0 < c)%nat -> ((c - 1) / 2)%nat = pos -> heap !! c = Some x ->
    w item <= w x.
End HeapOrderDefs.

(** ** Boards with the same grid *)

Definition anchor_symbol (k : Kind) : ascii :=
  match k with
  | Goal => char_goal
  | Single => char_single
  | HDomino => "<"%char
  | VDomino => "^"%char
  end.

Definition agree (φ ψ : Z -> Z -> ascii) : Prop :=
  forall x y, 0 <= x <= 3 -> 0 <= y <= 4 -> φ x y = ψ x y.

(** ** Paths *)

(** [g] is reached from [a] by [k] moves. *)
Inductive reach : State -> State -> nat -> Prop :=
| reach_here a : reach a a 0
| reach_next a c g k :
    board_ok (board a) -> c ∈ successors_of a -> reach c g k ->
    reach a g (S k).

(** A state on a board of the data model whose f is heuristic plus depth. *)
Definition tidy (s : State) : Prop :=
  board_ok (board s) /\ f s = heuristic (pieces (board s)) + depth s.

(** ** The invariant of the A* search *)

(** A recorded state that has been expanded: every successor's board is
    recorded with an f that is not larger. *)
Definition closed (explored : gmap string State) (e : State) : Prop :=
  goal_test e = Ok false /\
  forall c, c ∈ successors_of e ->
    exists e', explored !! Board_str (board c) = Some e' /\ f e' <= f c.

Definition recorded_ok (frontier : list State)
    (explored : gmap string State) : Prop :=
  forall k e, explored !! k = Some e ->
    Board_str (board e) = k /\ tidy e /\ (e ∈ frontier \/ closed explored e).

(** Some state of the frontier has the board of a state [a] on a path to
    [g], at a depth that is not larger. *)
Definition on_path (g : State) (frontier : list State) : Prop :=
  exists a k s,
    reach a g k /\ board_ok (board a) /\ s ∈ frontier /\
    Board_str (board s) = Board_str (board a) /\ depth s <= depth a.

(** ** Example boards *)

(** The board of the file
<<
.11.
.11.
<><>
2^^2
2vv2
>>
    in the order [read_from_file] lists its pieces. *)
Definition sparse_pieces : list Piece :=
  [ mkPiece true false 1 0 None;
    mkPiece false false 0 2 (Some "h"%string);
    mkPiece false false 2 2 (Some "h"%string);
    mkPiece false true 0 3 None;
    mkPiece false false 1 3 (Some "v"%string);
    mkPiece false false 2 3 (Some "v"%string);
    mkPiece false true 3 3 None;
    mkPiece false true 0 4 None;
    mkPiece false true 3 4 None ].

Definition sparse_board : Board :=
  mkBoard sparse_pieces (grid_of_fun (paint sparse_pieces)).

(** [State(board, manhattan(board), 0)] *)
Definition sparse_initial : State := mkState sparse_board 3 0 None.

(** The only successor of [sparse_initial]: the goal piece moved right. *)
Definition sparse_child : State :=
  child_state sparse_initial 0 (mkPiece true false 1 0 None) Right.

(** The board of the file
<<
2<>2
^<>^
v22v
..11
..11
>>
    one move of the goal piece away from the goal. *)
Definition near_pieces : list Piece :=
  [ mkPiece false true 0 0 None;
    mkPiece false false 1 0 (Some "h"%string);
    mkPiece false true 3 0 None;
    mkPiece false false 0 1 (Some "v"%string);
    mkPiece false false 1 1 (Some "h"%string);
    mkPiece false false 3 1 (Some "v"%string);
    mkPiece false true 1 2 None;
    mkPiece false true 2 2 None;
    mkPiece true false 2 3 None ].

Definition near_board : Board :=
  mkBoard near_pieces (grid_of_fun (paint near_pieces)).

Definition near_initial : State := mkState near_board 1 0 None.

(** The goal piece of [near_initial] moved left. *)
Definition near_solved : State :=
  child_state near_initial 8 (mkPiece true false 2 3 None) Left.

(** The packed board of the file
<<
^11^
v11v
^<>^
v22v
2222
>>
    on which no piece can move. *)
Definition packed_pieces : list Piece :=
  [ mkPiece false false 0 0 (Some "v"%string);
    mkPiece true false 1 0 None;
    mkPiece false false 3 0 (Some "v"%string);
    mkPiece false false 0 2 (Some "v"%string);
    mkPiece false false 1 2 (Some "h"%string);
    mkPiece false false 3 2 (Some "v"%string);
    mkPiece false true 1 3 None;
    mkPiece false true 2 3 None;
    mkPiece false true 0 4 None;
    mkPiece false true 1 4 None;
    mkPiece false true 2 4 None;
    mkPiece false true 3 4 None ].

Definition packed_board : Board :=
  mkBoard packed_pieces (grid_of_fun (paint packed_pieces)).

Definition packed_initial : State := mkState packed_board 3 0 None.

(** The board of the file
<<
....
....
.11.
.11.
....
>>
    one move down away from the goal. *)
Definition lone_pieces : list Piece := [ mkPiece true false 1 2 None ].

Definition lone_board : Board :=
  mkBoard lone_pieces (grid_of_fun (paint lone_pieces)).

Definition lone_initial : State := mkState lone_board 1 0 None.

(** ** Writes with Python's indexing *)

(** The position an index [i] into a list of length [n] stands for: counted
    from the end when negative. *)
Definition wrap (n i : Z) : Z := if i <? 0 then i + n else i.

(** A cell that the subscripts of [__construct_grid] accept. *)
Definition indexable (c : Z * Z) : Prop := -4 <= c.1 <= 3 /\ -5 <= c.2 <= 4.

(** The characters [__construct_grid] writes for a piece, in its order. *)
Definition strokes (p : Piece) : list (Z * Z * ascii) :=
  let x := coord_x p in
  let y := coord_y p in
  match kind_of p with
  | Some Goal =>
      [(x, y, char_goal); (x + 1, y, char_goal);
       (x, y + 1, char_goal); (x + 1, y + 1, char_goal)]
  | Some Single => [(x, y, char_single)]
  | Some HDomino => [(x, y, "<"%char); (x + 1, y, ">"%char)]
  | Some VDomino => [(x, y, "^"%char); (x, y + 1, "v"%char)]
  | None => []
  end.

(** The writes for a piece, one subscripted assignment after the other. *)
Fixpoint write_strokes (g : Grid) (l : list (Z * Z * ascii)) : res Grid :=
  match l with
  | [] => Ok g
  | (x, y, ch) :: l' => g' <- grid_set g y x ch ;; write_strokes g' l'
  end.

(** One write on the grid as a function of the cell. *)
Definition draw_stroke (φ : Z -> Z -> ascii) (s : Z * Z * ascii) :=
  upd φ (wrap 4 s.1.1) (wrap 5 s.1.2) s.2.

(** What one piece writes, with Python's indexing. *)
Definition draw (φ : Z -> Z -> ascii) (p : Piece) : Z -> Z -> ascii :=
  fold_left draw_stroke (strokes p) φ.

(** The grid [__construct_grid] leaves when no write is out of range. *)
Definition drawing (ps : list Piece) : Z -> Z -> ascii :=
  fold_left draw ps (fun _ _ => "."%char).

(** ** Counting the cells *)

(** The cells under the pieces of a list. *)
Definition covered (ps : list Piece) : list (Z * Z) := ps ≫= cells.

(** The twenty cells of the board. *)
Definition board_cells : list (Z * Z) :=
  y ← [0; 1; 2; 3; 4]; x ← [0; 1; 2; 3]; [(x, y)].

(** [[i, j]] of [empty_spaces] as a cell. *)
Definition swap_cell (c : Z * Z) : Z * Z := (c.2, c.1).

(** ** The standard board *)

(** The standard opening
<<
^11^
v11v
^<>^
v22v
2..2
>>
    with its two empty cells. *)
Definition classic_pieces : list Piece :=
  [ mkPiece false false 0 0 (Some "v"%string);
    mkPiece true false 1 0 None;
    mkPiece false false 3 0 (Some "v"%string);
    mkPiece false false 0 2 (Some "v"%string);
    mkPiece false false 1 2 (Some "h"%string);
    mkPiece false false 3 2 (Some "v"%string);
    mkPiece false true 1 3 None;
    mkPiece false true 2 3 None;
    mkPiece false true 0 4 None;
    mkPiece false true 3 4 None ].

Definition classic_board : Board :=
  mkBoard classic_pieces (grid_of_fun (paint classic_pieces)).

Definition classic_initial : State := mkState classic_board 3 0 None.

(** ** Reading a text *)

(** The pieces [read_from_file] hands to [Board]. *)
Definition read_pieces (text : list ascii) : list Piece :=
  (read_lines (file_lines text) 0 ([], false)).1.

(** The characters of a line, each with its column and its line. *)
Fixpoint line_chars (x : Z) (line : list ascii) (y : Z)
    : list (Z * Z * ascii) :=
  match line with
  | [] => []
  | ch :: line' => (x, y, ch) :: line_chars (x + 1) line' y
  end.

(** The characters of a text, line by line. *)
Fixpoint text_chars (lines : list (list ascii)) (y : Z)
    : list (Z * Z * ascii) :=
  match lines with
  | [] => []
  | line :: lines' => line_chars 0 line y ++ text_chars lines' (y + 1)
  end.

(** The piece a character stands for, given whether a goal symbol has been
    met. *)
Definition piece_at (g_found : bool) (t : Z * Z * ascii) : option Piece :=
  if Ascii.eqb t.2 "^"%char then Some (canon VDomino t.1)
  else if Ascii.eqb t.2 "<"%char then Some (canon HDomino t.1)
  else if Ascii.eqb t.2 char_single then Some (canon Single t.1)
  else if Ascii.eqb t.2 char_goal
  then if g_found then None else Some (canon Goal t.1)
  else None.

(** The pieces of a list of placed characters, left to right. *)
Fixpoint parse (g_found : bool) (l : list (Z * Z * ascii)) : list Piece :=
  match l with
  | [] => []
  | t :: l' =>
      let rest := parse (g_found || Ascii.eqb t.2 char_goal) l' in
      match piece_at g_found t with
      | Some p => p :: rest
      | None => rest
      end
  end.

(** Some character of the list is the goal symbol. *)
Definition seen_goal (l : list (Z * Z * ascii)) : bool :=
  existsb (fun t => Ascii.eqb t.2 char_goal) l.

(** Row-major order of the cells. *)
Definition before (a b : Z * Z) : Prop :=
  a.2 < b.2 \/ (a.2 = b.2 /\ a.1 < b.1).

(** Every earlier item of the list is related to every later one. *)
Definition in_order {A} (R : A -> A -> Prop) (l : list A) : Prop :=
  forall i j a b,
    (i < j)%nat -> l !! i = Some a -> l !! j = Some b -> R a b.

(** The cell a piece is anchored at. *)
Definition anchor (p : Piece) : Z * Z := (coord_x p, coord_y p).

(** ** The text of a board *)

Definition newline : ascii := "010"%char.

(** A row as [display] and [get_solution] write it. *)
Definition with_newline (line : list ascii) : list ascii := line ++ [newline].

(** The characters of the text of a grid, with their places. *)
Definition display_chars (φ : Z -> Z -> ascii) : list (Z * Z * ascii) :=
  text_chars (map with_newline (grid_of_fun φ)) 0.

(** ** The invariant of the depth-first search *)

(** A grid of [explored] whose state has been expanded: it was not a goal
    and the grids of all its successors are in [explored]. *)
Definition expanded (explored : list Grid) (g : Grid) : Prop :=
  exists e, board_ok (board e) /\ grid (board e) = g /\
    goal_test e = Ok false /\
    forall c, c ∈ successors_of e -> grid (board c) ∈ explored.

Definition explored_ok (frontier : list State) (explored : list Grid) : Prop :=
  forall g, g ∈ explored ->
    (exists s, s ∈ frontier /\ grid (board s) = g) \/ expanded explored g.

(** Some state of the frontier has the grid of a state on a path to [g]. *)
Definition on_track (g : State) (frontier : list State) : Prop :=
  exists a k s,
    reach a g k /\ board_ok (board a) /\ s ∈ frontier /\
    grid (board s) = grid (board a).

(** ** Solutions *)

(** [b'] is [b] after one piece has moved one cell into empty cells. *)
Definition slide (b b' : Board) : Prop :=
  exists idx p d,
    pieces b !! idx = Some p /\
    legal (paint (pieces b)) p d = true /\
    pieces b' = shift_piece p d :: delete idx (pieces b) /\
    grid b' = grid_of_fun (paint (pieces b')).

(** ** The iterations of the A* search *)

(** The frontier and the dictionary at the head of the [while] loop of
    [astar]. *)
Inductive astar_config (init : State)
    : list State -> gmap string State -> Prop :=
| config_start :
    astar_config init [init] {[ Board_str (board init) := init ]}
| config_step frontier explored curr rest successors frontier' explored' :
    astar_config init frontier explored ->
    heappop State_lt frontier = Ok (curr, rest) ->
    goal_test curr = Ok false ->
    generate_successors curr = Ok successors ->
    astar_visit successors rest explored = (frontier', explored') ->
    astar_config init frontier' explored'.

(** ** Moves that need two cells, and moves back *)

(** A move whose destination is two cells. *)
Definition wide (k : Kind) (d : Dir) : bool :=
  Nat.eqb (length (destination k 0 0 d)) 2.

(** The character of a grid at a cell of the board. *)
Definition cell_at (g : Grid) (x y : Z) : option ascii :=
  line ← g !! Z.to_nat y; line !! Z.to_nat x.

(** The direction back. *)
Definition opposite (d : Dir) : Dir :=
  match d with
  | Right => Left
  | Left => Right
  | Down => Up
  | Up => Down
  end.

(** ** Paths without repeated boards *)

Definition gridof (s : State) : Grid := grid (board s).

(** The invariant of the [while] loop of [dfs]: [explored] holds the grids
    of the states pushed so far, each once; a pushed state is the
    successor of the initial state or of a pushed state with another grid
    than the initial one. *)
Definition dfs_inv (init : State) (frontier : list State)
    (explored : list Grid) : Prop :=
  exists pushed : list State,
    explored = map gridof pushed /\ NoDup explored /\
    (forall s, s ∈ frontier -> s = init \/ s ∈ pushed) /\
    (forall s, s ∈ pushed ->
       board_ok (board s) /\
       exists p, parent s = Some p /\ depth s = depth p + 1 /\
         (p = init \/ (p ∈ pushed /\ gridof p <> gridof init))) /\
    (pushed <> [] ->
       goal_test init = Ok false /\
       forall c, c ∈ successors_of init -> gridof c ∈ explored).

(** * Properties *)

(** ** Grids as functions of the cell

    A grid of the board's shape is the table of a function from the cell
    [(x, y)] to its symbol; writing a symbol updates the function. *)

Lemma grid_of_fun_ext φ ψ :
  (forall x y, 0 <= x <= 3 -> 0 <= y <= 4 -> φ x y = ψ x y) ->
  grid_of_fun φ = grid_of_fun ψ.
Proof.
  intros H. unfold grid_of_fun. simpl. rewrite !H by lia. reflexivity.
Qed.

Lemma grid_of_fun_inj φ ψ x y :
  grid_of_fun φ = grid_of_fun ψ -> 0 <= x <= 3 -> 0 <= y <= 4 ->
  φ x y = ψ x y.
Proof.
  unfold grid_of_fun. simpl. intros H Hx Hy.
  assert (x = 0 \/ x = 1 \/ x = 2 \/ x = 3) as Cx by lia.
  assert (y = 0 \/ y = 1 \/ y = 2 \/ y = 3 \/ y = 4) as Cy by lia.
  injection H. intros.
  destruct Cx as [->|[->|[->| ->]]]; destruct Cy as [->|[->|[->|[->| ->]]]];
    assumption.
Qed.

Lemma blank_grid_fun : blank_grid = grid_of_fun (fun _ _ => "."%char).
Proof. reflexivity. Qed.

Lemma grid_set_fun φ row col ch :
  0 <= row <= 4 -> 0 <= col <= 3 ->
  grid_set (grid_of_fun φ) row col ch = Ok (grid_of_fun (upd φ col row ch)).
Proof.
  intros Hr Hc.
  assert (row = 0 \/ row = 1 \/ row = 2 \/ row = 3 \/ row = 4) as Cr by lia.
  assert (col = 0 \/ col = 1 \/ col = 2 \/ col = 3) as Cc by lia.
  destruct Cr as [->|[->|[->|[->| ->]]]]; destruct Cc as [->|[->|[->| ->]]];
    reflexivity.
Qed.

Lemma getitem_grid φ i :
  0 <= i <= 4 ->
  getitem (grid_of_fun φ) i = Ok (map (fun x => φ x i) [0; 1; 2; 3]).
Proof.
  intros Hi.
  assert (i = 0 \/ i = 1 \/ i = 2 \/ i = 3 \/ i = 4) as Ci by lia.
  destruct Ci as [->|[->|[->|[->| ->]]]]; reflexivity.
Qed.

Lemma getitem_line (φ : Z -> Z -> ascii) i j :
  0 <= j <= 3 ->
  getitem (map (fun x => φ x i) [0; 1; 2; 3]) j = Ok (φ j i).
Proof.
  intros Hj.
  assert (j = 0 \/ j = 1 \/ j = 2 \/ j = 3) as Cj by lia.
  destruct Cj as [->|[->|[->| ->]]]; reflexivity.
Qed.

Lemma place_piece_fun φ p :
  bounded p ->
  place_piece (grid_of_fun φ) p = Ok (grid_of_fun (paint_piece φ p)).
Proof.
  unfold bounded, cells, place_piece, paint_piece, kind_of.
  destruct (is_goal p); [|destruct (is_single p);
    [|destruct (orientation p) as [o|];
      [destruct (String.eqb o "h"); [|destruct (String.eqb o "v")]|]]];
    simpl; intros Hb; try reflexivity;
    repeat match goal with
           | H : Forall _ (_ :: _) |- _ => apply Forall_cons in H; destruct H
           end;
    unfold in_board in *; simpl in *;
    repeat (rewrite grid_set_fun by lia; simpl); reflexivity.
Qed.

Lemma place_pieces_fun ps : forall φ,
  Forall bounded ps ->
  place_pieces (grid_of_fun φ) ps = Ok (grid_of_fun (fold_left paint_piece ps φ)).
Proof.
  induction ps as [|p ps IH]; intros φ Hb; simpl; [reflexivity|].
  apply Forall_cons in Hb as [Hp Hps].
  rewrite place_piece_fun by assumption. simpl. apply IH, Hps.
Qed.

Lemma construct_grid_fun ps :
  Forall bounded ps -> construct_grid ps = Ok (grid_of_fun (paint ps)).
Proof.
  intros Hb. unfold construct_grid. rewrite blank_grid_fun.
  apply place_pieces_fun, Hb.
Qed.

Ltac zbool :=
  repeat match goal with
         | |- context [?a =? ?b] => destruct (Z.eqb_spec a b)
         | H : context [?a =? ?b] |- _ => destruct (Z.eqb_spec a b)
         end.

Lemma paint_piece_symbol φ p x y :
  paint_piece φ p x y = default (φ x y) (symbol p x y).
Proof.
  unfold paint_piece, symbol, upd.
  destruct (kind_of p) as [[]|]; simpl; zbool; simpl; try reflexivity; lia.
Qed.

Lemma symbol_cells p x y : is_Some (symbol p x y) <-> (x, y) ∈ cells p.
Proof.
  unfold symbol, cells, footprint.
  destruct (kind_of p) as [[]|]; simpl;
    rewrite ?elem_of_cons, ?elem_of_nil;
    (split; [intros [s Hs] | intros H]);
    zbool; simpl in *; try discriminate; eauto;
    repeat match goal with
           | H : _ \/ _ |- _ => destruct H
           | H : (_, _) = (_, _) |- _ => injection H as ? ?
           | H : False |- _ => destruct H
           | H : is_Some None |- _ => destruct H as [? ?]; discriminate
           end; try lia; try (subst; eauto 10; fail).
Qed.

Lemma symbol_not_blank p x y s : symbol p x y = Some s -> s <> "."%char.
Proof.
  unfold symbol.
  destruct (kind_of p) as [[]|]; simpl; zbool; simpl; intros H;
    inversion H; discriminate.
Qed.

Lemma symbol_None p x y : symbol p x y = None <-> (x, y) ∉ cells p.
Proof.
  rewrite <- symbol_cells. destruct (symbol p x y); split; intros H.
  - discriminate.
  - destruct H. eauto.
  - intros [? ?]. discriminate.
  - reflexivity.
Qed.

Lemma paint_uncovered ps : forall φ x y,
  (forall p, p ∈ ps -> (x, y) ∉ cells p) ->
  fold_left paint_piece ps φ x y = φ x y.
Proof.
  induction ps as [|q ps IH]; intros φ x y H; simpl; [reflexivity|].
  rewrite IH by (intros p Hp; apply H; right; exact Hp).
  rewrite paint_piece_symbol.
  assert (symbol q x y = None) as ->; [|reflexivity].
  apply symbol_None, H. left.
Qed.

Lemma paint_from_blank ps : forall φ x y,
  fold_left paint_piece ps φ x y = "."%char <->
  φ x y = "."%char /\ forall p, p ∈ ps -> (x, y) ∉ cells p.
Proof.
  induction ps as [|q ps IH]; intros φ x y; simpl.
  - split; [intros H; split; [exact H|intros p Hp; inversion Hp]|tauto].
  - rewrite IH, paint_piece_symbol. split.
    + intros [H1 H2]. destruct (symbol q x y) as [s|] eqn:Hs; simpl in H1.
      * exfalso. eapply symbol_not_blank; eauto.
      * split; [exact H1|]. intros p Hp.
        apply elem_of_cons in Hp as [->|Hp]; [apply symbol_None, Hs|auto].
    + intros [H1 H2]. split.
      * assert (symbol q x y = None) as ->; [|exact H1].
        apply symbol_None, H2. left.
      * intros p Hp. apply H2. right. exact Hp.
Qed.

Lemma paint_blank ps x y :
  paint ps x y = "."%char <-> forall p, p ∈ ps -> (x, y) ∉ cells p.
Proof.
  unfold paint. rewrite paint_from_blank. tauto.
Qed.

(** With disjoint footprints, a covered cell shows its piece's symbol. *)
Lemma paint_from_covered ps : forall φ i p x y s,
  ps !! i = Some p ->
  (forall j q, j <> i -> ps !! j = Some q -> (x, y) ∉ cells q) ->
  symbol p x y = Some s ->
  fold_left paint_piece ps φ x y = s.
Proof.
  induction ps as [|q ps IH]; intros φ i p x y s Hi Hd Hs; [inversion Hi|].
  simpl. destruct i as [|i]; simpl in Hi.
  - injection Hi as ->. rewrite paint_uncovered.
    + rewrite paint_piece_symbol, Hs. reflexivity.
    + intros r Hr. apply list_elem_of_lookup in Hr as [j Hj].
      apply (Hd (S j)); [lia|exact Hj].
  - apply (IH _ i p); [exact Hi| |exact Hs].
    intros j r Hj Hr. apply (Hd (S j)); [lia|exact Hr].
Qed.

Lemma paint_covered ps i p x y s :
  disjoint_footprints ps -> ps !! i = Some p -> symbol p x y = Some s ->
  paint ps x y = s.
Proof.
  intros Hd Hi Hs. unfold paint. apply (paint_from_covered _ _ i p); auto.
  intros j q Hj Hq Hc.
  apply (Hd i j p q ltac:(auto) Hi Hq (x, y)); auto.
  apply symbol_cells. eauto.
Qed.

(** ** Emptiness queries *)

Lemma scan_line_fun φ i js :
  0 <= i <= 4 -> Forall (fun j => 0 <= j <= 3) js ->
  exists l, scan_line (grid_of_fun φ) i js = Ok l /\
    forall a b, (a, b) ∈ l <-> a = i /\ b ∈ js /\ φ b i = "."%char.
Proof.
  intros Hi. induction js as [|j js IH]; intros Hjs; simpl.
  - exists []. split; [reflexivity|]. intros a b. split.
    + intros H. inversion H.
    + intros (_ & H & _). inversion H.
  - apply Forall_cons in Hjs as [Hj Hjs]. destruct (IH Hjs) as (l & -> & Hl).
    rewrite getitem_grid by lia. cbn [bind].
    rewrite getitem_line by lia. cbn [bind].
    eexists. split; [reflexivity|]. intros a b.
    destruct (Ascii.eqb_spec (φ j i) "."%char) as [He|He].
    + rewrite !elem_of_cons, Hl. split.
      * intros [H|H]; [injection H as -> ->|]; tauto.
      * intros (-> & [->|H] & Hb); [left; reflexivity|right; tauto].
    + rewrite Hl, elem_of_cons. split; [tauto|].
      intros (-> & [->|H] & Hb); [contradiction|tauto].
Qed.

Lemma scan_rows_fun φ rows js :
  Forall (fun i => 0 <= i <= 4) rows -> Forall (fun j => 0 <= j <= 3) js ->
  exists l, scan_rows (grid_of_fun φ) rows js = Ok l /\
    forall a b, (a, b) ∈ l <-> a ∈ rows /\ b ∈ js /\ φ b a = "."%char.
Proof.
  intros Hrows Hjs. induction rows as [|i rows IH]; simpl.
  - exists []. split; [reflexivity|]. intros a b. split.
    + intros H. inversion H.
    + intros (H & _). inversion H.
  - apply Forall_cons in Hrows as [Hi Hrows].
    destruct (IH Hrows) as (l & -> & Hl).
    destruct (scan_line_fun φ i js Hi Hjs) as (l1 & -> & Hl1). simpl.
    eexists. split; [reflexivity|]. intros a b.
    rewrite elem_of_app, Hl, Hl1, elem_of_cons. split.
    + intros [(-> & H)|(H & H')]; tauto.
    + intros ([->|H] & H'); tauto.
Qed.

Lemma is_empty_fun b φ x y :
  grid b = grid_of_fun φ -> is_empty b x y = Ok (free φ x y).
Proof.
  intros Hg. unfold is_empty, free, empty_spaces. rewrite Hg.
  destruct (scan_rows_fun φ [0; 1; 2; 3; 4] [0; 1; 2; 3]) as (l & -> & Hl);
    [repeat constructor; lia..|].
  cbn [bind]. rewrite !Z.gtb_ltb.
  destruct (Z.ltb_spec x 0), (Z.ltb_spec 3 x), (Z.ltb_spec y 0),
    (Z.ltb_spec 4 y), (Z.leb_spec 0 x), (Z.leb_spec x 3), (Z.leb_spec 0 y),
    (Z.leb_spec y 4); try lia; cbn [orb andb]; try reflexivity.
  f_equal.
  destruct (Ascii.eqb_spec (φ x y) "."%char) as [He|He].
  - apply bool_decide_eq_true, Hl. rewrite !elem_of_cons.
    split; [lia|]. split; [lia|exact He].
  - apply bool_decide_eq_false. rewrite Hl. tauto.
Qed.

(** ** Moves *)

Lemma emitted_legal φ p d : d ∈ emitted φ p -> legal φ p d = true.
Proof.
  unfold emitted.
  destruct (kind_of p) as [[]|];
    destruct (legal φ p Right) eqn:?, (legal φ p Left) eqn:?,
      (legal φ p Down) eqn:?, (legal φ p Up) eqn:?; simpl;
    rewrite ?elem_of_cons, ?elem_of_nil; intros H;
    repeat match goal with
           | H : _ \/ _ |- _ => destruct H
           | H : False |- _ => destruct H
           end; subst; assumption.
Qed.

Lemma piece_typed_cases p :
  piece_typed p ->
  p = mkPiece true false (coord_x p) (coord_y p) None \/
  p = mkPiece false true (coord_x p) (coord_y p) None \/
  p = mkPiece false false (coord_x p) (coord_y p) (Some "h"%string) \/
  p = mkPiece false false (coord_x p) (coord_y p) (Some "v"%string).
Proof.
  destruct p as [g s x y o]. unfold piece_typed, kind_of. simpl.
  destruct g; [intros [-> ->]; auto|].
  destruct s; [intros ->; auto|].
  destruct o as [o|]; [|tauto].
  destruct (String.eqb o "h"); [intros H; injection H as ->; auto|].
  destruct (String.eqb o "v"); [intros H; injection H as ->; auto|tauto].
Qed.

Lemma kind_of_shift p d : kind_of (shift_piece p d) = kind_of p.
Proof. destruct d; reflexivity. Qed.

Lemma piece_typed_shift p d : piece_typed p -> piece_typed (shift_piece p d).
Proof.
  unfold piece_typed. rewrite kind_of_shift. destruct d; simpl; auto.
Qed.

(** A cell of the moved piece was a cell of the piece or a destination. *)
Lemma cells_shift p d c k :
  kind_of p = Some k ->
  c ∈ cells (shift_piece p d) ->
  c ∈ cells p \/ c ∈ destination k (coord_x p) (coord_y p) d.
Proof.
  unfold cells. rewrite kind_of_shift. intros ->.
  destruct k, d; simpl; rewrite ?elem_of_cons, ?elem_of_nil;
    intros H;
    repeat match goal with
           | H : _ \/ _ |- _ => destruct H
           | H : False |- _ => destruct H
           end; subst;
    repeat match goal with
           | |- context [?a + 1 + 1] => replace (a + 1 + 1) with (a + 2) by lia
           | |- context [?a - 1 + 1] => replace (a - 1 + 1) with a by lia
           end; tauto.
Qed.

Lemma legal_free φ p d k c :
  kind_of p = Some k -> legal φ p d = true ->
  c ∈ destination k (coord_x p) (coord_y p) d -> free φ c.1 c.2 = true.
Proof.
  unfold legal. intros -> H Hc.
  rewrite forallb_forall in H. apply H, list_elem_of_In, Hc.
Qed.

Lemma free_spec φ x y :
  free φ x y = true <-> in_board (x, y) /\ φ x y = "."%char.
Proof.
  unfold free, in_board. simpl.
  destruct (Ascii.eqb_spec (φ x y) "."%char);
    destruct (Z.leb_spec 0 x), (Z.leb_spec x 3), (Z.leb_spec 0 y),
      (Z.leb_spec y 4); simpl; split; intros; try discriminate;
    try tauto; try lia; repeat split; auto; lia.
Qed.

(** ** A legal move keeps the invariants *)

Lemma lookup_delete_Some {A} (l : list A) i j (a : A) :
  delete i l !! j = Some a ->
  exists j', j' <> i /\ l !! j' = Some a /\
    j' = (if decide (j < i)%nat then j else S j).
Proof.
  intros H. destruct (decide (j < i)%nat).
  - rewrite list_lookup_delete_lt in H by assumption.
    exists j. split; [lia|]. auto.
  - rewrite list_lookup_delete_ge in H by lia.
    exists (S j). split; [lia|]. auto.
Qed.

Lemma goal_count_move (ps : list Piece) idx p q :
  ps !! idx = Some p -> is_goal q = is_goal p ->
  length (filter (fun p => is_goal p = true) (q :: delete idx ps)) =
  length (filter (fun p => is_goal p = true) ps).
Proof.
  intros Hi Hq.
  rewrite (Permutation_length
             (filter_Permutation _ _ _ (delete_Permutation ps idx p Hi))).
  rewrite !filter_cons. rewrite Hq.
  destruct (decide (is_goal p = true)); reflexivity.
Qed.

Lemma move_ok ps idx p d :
  pieces_ok ps -> ps !! idx = Some p -> legal (paint ps) p d = true ->
  pieces_ok (shift_piece p d :: delete idx ps).
Proof.
  intros Hok Hi Hl.
  assert (piece_typed p) as Hty.
  { eapply Forall_lookup_1; [apply (ok_typed _ Hok)|exact Hi]. }
  assert (bounded p) as Hbp.
  { eapply (Forall_lookup_1 _ _ _ _ (ok_bounds _ Hok) Hi). }
  destruct (kind_of p) as [k|] eqn:Hk;
    [|unfold piece_typed in Hty; rewrite Hk in Hty; destruct Hty].
  assert (forall c, c ∈ cells (shift_piece p d) ->
            c ∈ cells p \/ (in_board c /\ forall q, q ∈ ps -> c ∉ cells q))
    as Hnew.
  { intros c Hc. destruct (cells_shift _ _ _ _ Hk Hc) as [H|H]; [auto|].
    right. apply (legal_free _ _ _ _ _ Hk Hl) in H.
    apply free_spec in H as [Hb Hf]. destruct c as [x y]. split; [exact Hb|].
    apply paint_blank, Hf. }
  split.
  - constructor; [apply piece_typed_shift, Hty|].
    apply Forall_delete, (ok_typed _ Hok).
  - constructor; [|apply Forall_delete, (ok_bounds _ Hok)].
    apply Forall_forall. intros c Hc.
    destruct (Hnew c Hc) as [H|[H _]]; [|exact H].
    unfold bounded in Hbp. rewrite Forall_forall in Hbp. auto.
  - assert (forall j q c, delete idx ps !! j = Some q ->
              c ∈ cells (shift_piece p d) -> c ∈ cells q -> False) as Hx.
    { intros j q c Hq Hc Hcq.
      apply lookup_delete_Some in Hq as (j' & Hne & Hq & _).
      destruct (Hnew c Hc) as [H|[_ H]].
      - exact (ok_disjoint _ Hok idx j' p q ltac:(auto) Hi Hq c H Hcq).
      - apply (H q); [|exact Hcq]. apply list_elem_of_lookup. eauto. }
    intros [|i] [|j] a b Hne Ha Hb c Hca Hcb; simpl in Ha, Hb.
    + lia.
    + injection Ha as <-. eauto.
    + injection Hb as <-. eauto.
    + apply lookup_delete_Some in Ha as (i' & _ & Ha & Hi').
      apply lookup_delete_Some in Hb as (j' & _ & Hb & Hj').
      assert (i' <> j') as Hne'.
      { destruct (decide (i < idx)%nat), (decide (j < idx)%nat); lia. }
      exact (ok_disjoint _ Hok i' j' a b Hne' Ha Hb c Hca Hcb).
  - rewrite (goal_count_move ps idx p) by (assumption || (destruct d; reflexivity)).
    apply (ok_goal _ Hok).
Qed.

(** ** What [generate_successors] returns on a board of the data model *)

Lemma find_goal_None ps :
  find_goal ps = None -> filter (fun p => is_goal p = true) ps = [].
Proof.
  induction ps as [|p ps IH]; simpl; [reflexivity|].
  rewrite filter_cons. destruct (is_goal p) eqn:Hg; [discriminate|].
  intros H. destruct (decide (false = true)); [discriminate|auto].
Qed.

Lemma find_goal_ok ps : pieces_ok ps -> exists g, find_goal ps = Some g.
Proof.
  intros Hok. destruct (find_goal ps) eqn:H; [eauto|].
  apply find_goal_None in H. pose proof (ok_goal _ Hok) as Hc.
  rewrite H in Hc. discriminate.
Qed.

Lemma board_ok_grid b :
  board_ok b -> grid b = grid_of_fun (paint (pieces b)).
Proof.
  intros [Hok Hg]. rewrite construct_grid_fun in Hg by apply (ok_bounds _ Hok).
  injection Hg as <-. reflexivity.
Qed.

Lemma Board_init_ok ps :
  pieces_ok ps ->
  Board_init ps = Ok (mkBoard ps (grid_of_fun (paint ps))) /\
  board_ok (mkBoard ps (grid_of_fun (paint ps))).
Proof.
  intros Hok. unfold Board_init, board_ok. simpl.
  rewrite construct_grid_fun by apply (ok_bounds _ Hok). auto.
Qed.

Lemma manhattan_ok b :
  pieces_ok (pieces b) -> manhattan b = Ok (heuristic (pieces b)).
Proof.
  intros Hok. unfold manhattan, heuristic, get_goal.
  destruct (find_goal_ok _ Hok) as [[gx gy] ->]. reflexivity.
Qed.

Lemma emit_ok st idx p d acc :
  pieces_ok (pieces (board st)) -> pieces (board st) !! idx = Some p ->
  legal (paint (pieces (board st))) p d = true ->
  emit st idx (shift_piece p d) acc = Ok (acc ++ [child_state st idx p d]).
Proof.
  intros Hok Hi Hl. pose proof (move_ok _ _ _ _ Hok Hi Hl) as Hok'.
  unfold emit, new_board. rewrite (proj1 (Board_init_ok _ Hok')). cbn [bind].
  rewrite manhattan_ok by exact Hok'. reflexivity.
Qed.

Lemma and_then_Ok a b : and_then (Ok a) (Ok b) = Ok (a && b).
Proof. destruct a; reflexivity. Qed.

Lemma expand_piece_ok st idx p acc :
  board_ok (board st) -> pieces (board st) !! idx = Some p ->
  expand_piece st idx p acc =
  Ok (acc ++ map (child_state st idx p)
               (emitted (paint (pieces (board st))) p)).
Proof.
  intros Hbok Hi. pose proof (board_ok_grid _ Hbok) as Hg.
  destruct Hbok as [Hok _].
  assert (piece_typed p) as Hty.
  { eapply Forall_lookup_1; [apply (ok_typed _ Hok)|exact Hi]. }
  pose proof (emit_ok st idx p) as He.
  specialize (fun d acc => He d acc Hok Hi).
  unfold expand_piece.
  rewrite !(is_empty_fun _ _ _ _ Hg), ?and_then_Ok.
  unfold emitted, legal in *.
  apply piece_typed_cases in Hty.
  destruct Hty as [Hp|[Hp|[Hp|Hp]]]; rewrite Hp in He |- *;
    cbn [is_goal is_single orientation coord_x coord_y kind_of String.eqb
         Ascii.eqb Bool.eqb destination forallb fst snd bind] in He |- *;
    rewrite ?andb_true_r in He |- *.
  all: pose proof (He Right) as HR; pose proof (He Left) as HL;
    pose proof (He Down) as HD; pose proof (He Up) as HU; clear He;
    cbn [shift_piece is_goal is_single orientation coord_x coord_y
         kind_of String.eqb Ascii.eqb Bool.eqb destination forallb fst snd]
      in HR, HL, HD, HU;
    rewrite ?andb_true_r in HR, HL, HD, HU.
  all: repeat match goal with
       | |- context [free ?φ ?x ?y] => destruct (free φ x y) eqn:?
       | |- _ => progress cbn [andb bind emit_if map app] in *
       | |- _ => rewrite HR by reflexivity
       | |- _ => rewrite HL by reflexivity
       | |- _ => rewrite HD by reflexivity
       | |- _ => rewrite HU by reflexivity
       end.
  all: rewrite <- ?app_assoc, ?app_nil_r; reflexivity.
Qed.

Lemma expand_from_ok st :
  board_ok (board st) ->
  forall ps idx acc,
    (forall k p, ps !! k = Some p ->
                 pieces (board st) !! (idx + k)%nat = Some p) ->
    expand_from st idx ps acc = Ok (acc ++ children_from st idx ps).
Proof.
  intros Hok. induction ps as [|p ps IH]; intros idx acc H; simpl.
  - rewrite app_nil_r. reflexivity.
  - rewrite expand_piece_ok; [|exact Hok|].
    + cbn [bind]. rewrite IH.
      * rewrite <- app_assoc. reflexivity.
      * intros k q Hq. replace (S idx + k)%nat with (idx + S k)%nat by lia.
        apply H. exact Hq.
    + specialize (H 0%nat p eq_refl). rewrite Nat.add_0_r in H. exact H.
Qed.

Lemma generate_successors_ok st :
  board_ok (board st) -> generate_successors st = Ok (successors_of st).
Proof.
  intros Hok. unfold generate_successors, successors_of.
  rewrite expand_from_ok; auto.
Qed.

Lemma elem_of_children_from st s : forall ps idx,
  s ∈ children_from st idx ps <->
  exists k p d, ps !! k = Some p /\
    d ∈ emitted (paint (pieces (board st))) p /\
    s = child_state st (idx + k) p d.
Proof.
  induction ps as [|p ps IH]; intros idx; simpl.
  - split; [intros H; inversion H|intros (k & q & d & H & _); inversion H].
  - rewrite elem_of_app, IH, list_elem_of_fmap. split.
    + intros [(d & -> & Hd)|(k & q & d & Hq & Hd & ->)].
      * exists 0%nat, p, d. rewrite Nat.add_0_r. auto.
      * exists (S k), q, d. replace (idx + S k)%nat with (S idx + k)%nat by lia.
        auto.
    + intros ([|k] & q & d & Hq & Hd & ->); simpl in Hq.
      * injection Hq as ->. left. exists d. rewrite Nat.add_0_r. auto.
      * right. exists k, q, d.
        replace (idx + S k)%nat with (S idx + k)%nat by lia. auto.
Qed.

Lemma elem_of_successors_of st s :
  s ∈ successors_of st <->
  exists idx p d, pieces (board st) !! idx = Some p /\
    d ∈ emitted (paint (pieces (board st))) p /\
    s = child_state st idx p d.
Proof. unfold successors_of. rewrite elem_of_children_from. reflexivity. Qed.

Lemma child_state_ok st idx p d :
  board_ok (board st) -> pieces (board st) !! idx = Some p ->
  legal (paint (pieces (board st))) p d = true ->
  board_ok (board (child_state st idx p d)).
Proof.
  intros [Hok _] Hi Hl. apply Board_init_ok, move_ok; assumption.
Qed.

Lemma successors_board_ok st s :
  board_ok (board st) -> s ∈ successors_of st -> board_ok (board s).
Proof.
  intros Hok Hs. apply elem_of_successors_of in Hs as (idx & p & d & Hi & Hd & ->).
  apply child_state_ok; auto. apply emitted_legal, Hd.
Qed.

(** ** Checking the invariants of a given piece list *)

Lemma apart_spec p q c :
  apart p q = true -> c ∈ cells p -> c ∈ cells q -> False.
Proof.
  unfold apart. rewrite forallb_forall. intros H Hp Hq.
  apply list_elem_of_In, H in Hp. apply negb_true_iff in Hp.
  apply bool_decide_eq_false in Hp. contradiction.
Qed.

Lemma disjointb_spec ps : disjointb ps = true -> disjoint_footprints ps.
Proof.
  induction ps as [|a ps IH]; simpl; intros H.
  - intros i j p q _ Hi. inversion Hi.
  - apply andb_true_iff in H as [Ha Hps]. rewrite forallb_forall in Ha.
    specialize (IH Hps).
    intros [|i] [|j] p q Hne Hi Hj c Hp Hq; simpl in Hi, Hj.
    + lia.
    + injection Hi as <-. apply list_elem_of_lookup_2, list_elem_of_In in Hj.
      exact (apart_spec _ _ _ (Ha _ Hj) Hp Hq).
    + injection Hj as <-. apply list_elem_of_lookup_2, list_elem_of_In in Hi.
      exact (apart_spec _ _ _ (Ha _ Hi) Hq Hp).
    + exact (IH i j p q ltac:(lia) Hi Hj c Hp Hq).
Qed.

Lemma typedb_spec p : typedb p = true -> piece_typed p.
Proof.
  unfold typedb, piece_typed.
  destruct (kind_of p) as [[]|]; intros H; try discriminate;
    repeat match goal with
           | H : _ && _ = true |- _ => apply andb_true_iff in H as [? ?]
           | H : negb _ = true |- _ => apply negb_true_iff in H
           | H : bool_decide _ = true |- _ => apply bool_decide_eq_true in H
           end; auto.
Qed.

Lemma in_boardb_spec c : in_boardb c = true -> in_board c.
Proof. unfold in_boardb, in_board. lia. Qed.

Lemma pieces_okb_spec ps : pieces_okb ps = true -> pieces_ok ps.
Proof.
  unfold pieces_okb. intros H.
  repeat match goal with
         | H : _ && _ = true |- _ => apply andb_true_iff in H as [? ?]
         end.
  split.
  - apply Forall_forall. intros p Hp. apply typedb_spec.
    eapply forallb_forall; [eassumption|]. apply list_elem_of_In, Hp.
  - apply Forall_forall. intros p Hp. apply Forall_forall. intros c Hc.
    apply in_boardb_spec.
    assert (forallb in_boardb (cells p) = true) as Hb.
    { match goal with
      | H : forallb (fun p => forallb _ _) _ = true |- _ =>
          rewrite forallb_forall in H; apply H
      end. apply list_elem_of_In, Hp. }
    rewrite forallb_forall in Hb. apply Hb, list_elem_of_In, Hc.
  - apply disjointb_spec. assumption.
  - apply Nat.eqb_eq. assumption.
Qed.

(** ** Example boards *)

Lemma sparse_pieces_ok : pieces_ok sparse_pieces.
Proof. apply pieces_okb_spec. vm_compute. reflexivity. Qed.

Lemma sparse_board_ok : board_ok sparse_board.
Proof. apply Board_init_ok, sparse_pieces_ok. Qed.

(** ** Move generation: soundness *)

(** C3.  On a board of the data model [generate_successors] returns, and
    every successor's board again satisfies the invariants: its pieces are of
    the four kinds, their footprints lie within [0,3]x[0,4] (the goal piece's
    among them), no cell belongs to two pieces, there is one goal piece, and
    its grid is the rendering of its pieces. *)
Theorem generate_successors_sound (st : State) :
  board_ok (board st) ->
  exists successors,
    generate_successors st = Ok successors /\
    forall s, s ∈ successors ->
      pieces_ok (pieces (board s)) /\
      construct_grid (pieces (board s)) = Ok (grid (board s)).
Proof.
  intros Hok. exists (successors_of st). split.
  - apply generate_successors_ok, Hok.
  - intros s Hs. apply (successors_board_ok st s Hok Hs).
Qed.

Lemma generate_successors_sound_witness :
  exists successors,
    generate_successors sparse_initial = Ok successors /\
    forall s, s ∈ successors ->
      pieces_ok (pieces (board s)) /\
      construct_grid (pieces (board s)) = Ok (grid (board s)).
Proof.
  apply (generate_successors_sound sparse_initial).
  split; [apply pieces_okb_spec; vm_compute; reflexivity | vm_compute; reflexivity].
Defined.

(** ** Move generation: completeness *)

(** Every direction that is generated is legal, and a Single piece is moved
    in every legal direction. *)
Lemma single_moves_complete φ p d :
  kind_of p = Some Single -> legal φ p d = true -> d ∈ emitted φ p.
Proof.
  intros Hk Hl. unfold emitted. rewrite Hk.
  destruct d; rewrite Hl;
    destruct (legal φ p Right), (legal φ p Left), (legal φ p Down),
      (legal φ p Up); simpl; rewrite ?elem_of_cons; auto 10.
Qed.

(** C1 fails on the code.  On [sparse_board] the goal piece at (1,0) may
    move right and left by the legality rules, since (3,0), (3,1), (0,0) and
    (0,1) are empty, as [is_empty] answers for the two cells on the left;
    the branches of the goal piece are chained with [elif], so that the move
    to the right is the only successor and no successor has the goal piece
    moved left. *)
Theorem goal_piece_left_move_missing :
  board_ok sparse_board /\
  sparse_pieces !! 0%nat = Some (mkPiece true false 1 0 None) /\
  legal (paint sparse_pieces) (mkPiece true false 1 0 None) Right = true /\
  legal (paint sparse_pieces) (mkPiece true false 1 0 None) Left = true /\
  is_empty sparse_board (1 - 1) 0 = Ok true /\
  is_empty sparse_board (1 - 1) (0 + 1) = Ok true /\
  exists successors,
    generate_successors sparse_initial = Ok successors /\
    length successors = 1%nat /\
    forall s, s ∈ successors ->
      get_goal (board s) = Some (2, 0) /\
      pieces (board s) <>
        shift_piece (mkPiece true false 1 0 None) Left
        :: delete 0%nat sparse_pieces.
Proof.
  split; [exact sparse_board_ok|].
  split; [reflexivity|].
  split; [vm_compute; reflexivity|].
  split; [vm_compute; reflexivity|].
  split; [vm_compute; reflexivity|].
  split; [vm_compute; reflexivity|].
  eexists. split; [vm_compute; reflexivity|]. split; [reflexivity|].
  intros s Hs. apply list_elem_of_singleton in Hs. subst s.
  split; [reflexivity|]. discriminate.
Qed.

(** A consequence on [lone_board]: the goal piece may move down, onto the
    goal position, but only its move to the right is generated, then the
    move back, and both searches end without a solution. *)
Lemma lone_goal_never_solved :
  board_ok lone_board /\
  legal (paint lone_pieces) (mkPiece true false 1 2 None) Down = true /\
  dfs 4 lone_initial = Some (Ok None) /\
  astar 4 lone_initial = Some (Ok None).
Proof.
  split; [apply Board_init_ok, pieces_okb_spec; vm_compute; reflexivity|].
  repeat split; vm_compute; reflexivity.
Qed.

(** ** What every generated successor looks like, on any board *)

Lemma emit_inv st idx new_p acc acc' :
  emit st idx new_p acc = Ok acc' ->
  exists s, acc' = acc ++ [s] /\ made_by st idx new_p s.
Proof.
  unfold emit, made_by. intros H.
  destruct (new_board (pieces (board st)) new_p idx) as [new_b|] eqn:Hb;
    [|discriminate].
  cbn [bind] in H. destruct (manhattan new_b) as [h|] eqn:Hh; [|discriminate].
  cbn [bind] in H. injection H as <-. eauto 10.
Qed.

Ltac expand_inv :=
  repeat match goal with
    | H : Ok _ = Ok _ |- _ => injection H as <-
    | H : Raise _ = Ok _ |- _ => discriminate H
    | H : emit _ _ _ _ = Ok _ |- _ =>
        let s := fresh "s" in
        let Hs := fresh "Hs" in
        apply emit_inv in H as (s & -> & Hs)
    | H : emit_if ?c _ _ _ _ = Ok _ |- _ => destruct c; cbn [emit_if] in H
    | H : bind ?m _ = Ok _ |- _ =>
        let E := fresh "E" in
        destruct m as [?|?] eqn:E; cbn [bind] in H
    | H : (if ?c then _ else _) = Ok _ |- _ => destruct c
    end.

Lemma expand_piece_inv st idx p acc acc' :
  expand_piece st idx p acc = Ok acc' ->
  exists new, acc' = acc ++ new /\ Forall (move_of st idx p) new.
Proof.
  unfold expand_piece, move_of, kind_of. destruct p as [g s x y o].
  cbn [is_goal is_single coord_x coord_y orientation].
  destruct g; [|destruct s; [|destruct o as [o|];
    [destruct (String.eqb o "h") eqn:Eh; [|destruct (String.eqb o "v") eqn:Ev]|]]];
    intros H; expand_inv; rewrite <- ?app_assoc;
    (eexists; split; [reflexivity || (symmetry; apply app_nil_r)|]);
    cbn [app]; repeat (apply Forall_cons; split); try apply Forall_nil;
    eexists; first
      [ exists Right; split; [reflexivity|eassumption]
      | exists Left; split; [reflexivity|eassumption]
      | exists Down; split; [reflexivity|eassumption]
      | exists Up; split; [reflexivity|eassumption] ].
Qed.

Lemma expand_from_inv st : forall ps idx acc acc',
  expand_from st idx ps acc = Ok acc' ->
  exists new, acc' = acc ++ new /\
    Forall (fun s => exists k p, ps !! k = Some p /\
                       move_of st (idx + k) p s) new.
Proof.
  induction ps as [|p ps IH]; intros idx acc acc' H; simpl in H.
  - injection H as <-. exists []. rewrite app_nil_r. auto.
  - destruct (expand_piece st idx p acc) as [acc1|] eqn:E; [|discriminate].
    cbn [bind] in H. apply expand_piece_inv in E as (new1 & -> & H1).
    apply IH in H as (new2 & -> & H2). exists (new1 ++ new2).
    rewrite app_assoc. split; [reflexivity|]. apply Forall_app. split.
    + eapply Forall_impl; [exact H1|]. intros s Hs. exists 0%nat, p.
      rewrite Nat.add_0_r. auto.
    + eapply Forall_impl; [exact H2|]. intros s (k & q & Hq & Hs).
      exists (S k), q. replace (idx + S k)%nat with (S idx + k)%nat by lia.
      auto.
Qed.

Lemma generate_successors_inv st successors s :
  generate_successors st = Ok successors -> s ∈ successors ->
  exists idx p, pieces (board st) !! idx = Some p /\ move_of st idx p s.
Proof.
  unfold generate_successors. intros H Hs.
  apply expand_from_inv in H as (new & -> & H). simpl in Hs.
  rewrite Forall_forall in H. destruct (H s Hs) as (k & p & Hp & Hm).
  eauto.
Qed.

Lemma Board_init_pieces ps b : Board_init ps = Ok b -> pieces b = ps.
Proof.
  unfold Board_init. destruct (construct_grid ps); [|discriminate].
  cbn [bind]. intros H. injection H as <-. reflexivity.
Qed.

Lemma kind_of_canon k xy : kind_of (canon k xy) = Some k.
Proof. destruct k; reflexivity. Qed.

Lemma coords_canon k xy : (coord_x (canon k xy), coord_y (canon k xy)) = xy.
Proof. destruct k, xy; reflexivity. Qed.

Lemma canon_shift p k d :
  piece_typed p -> kind_of p = Some k ->
  canon k (step d (coord_x p) (coord_y p)) = shift_piece p d.
Proof.
  intros Hty Hk. apply piece_typed_cases in Hty.
  destruct Hty as [Hp|[Hp|[Hp|Hp]]]; rewrite Hp in Hk |- *;
    injection Hk as <-; destruct d; reflexivity.
Qed.

Lemma sparse_successors : generate_successors sparse_initial = Ok [sparse_child].
Proof. vm_compute. reflexivity. Qed.

Lemma successor_fields st successors s :
  generate_successors st = Ok successors -> s ∈ successors ->
  depth s = depth st + 1 /\
  (exists h, manhattan (board s) = Ok h /\ f s = h + depth st + 1) /\
  parent s = Some st.
Proof.
  intros H Hs.
  destruct (generate_successors_inv _ _ _ H Hs)
    as (idx & p & _ & k & d & _ & new_b & h & _ & Hh & ->).
  simpl. eauto.
Qed.

(** ** Successor bookkeeping *)

(** C5.  Every state that [generate_successors] returns for [st] has depth
    [depth st + 1], f equal to [manhattan] of its own board plus
    [depth st + 1], and [st] as its parent. *)
Theorem successor_bookkeeping (st : State) (successors : list State) (s : State) :
  generate_successors st = Ok successors -> s ∈ successors ->
  depth s = depth st + 1 /\
  (exists h, manhattan (board s) = Ok h /\ f s = h + depth st + 1) /\
  parent s = Some st.
Proof. apply successor_fields. Qed.

Lemma successor_bookkeeping_witness :
  depth sparse_child = depth sparse_initial + 1 /\
  (exists h, manhattan (board sparse_child) = Ok h /\
             f sparse_child = h + depth sparse_initial + 1) /\
  parent sparse_child = Some sparse_initial.
Proof.
  apply (successor_bookkeeping sparse_initial [sparse_child] sparse_child).
  - vm_compute. reflexivity.
  - apply elem_of_cons. left. reflexivity.
Defined.

(** ** The frame of a move *)

(** C6.  The piece list of every successor is one new piece followed by the
    pieces of the expanded board without the moved piece [p], in their
    order; the new piece is of the kind of [p] with its anchor one cell away
    in one direction, and it has the flags and orientation of [p] when [p]
    is built as the docstring of [Piece] says. *)
Theorem move_frame (st : State) (successors : list State) (s : State) :
  generate_successors st = Ok successors -> s ∈ successors ->
  exists idx p k d,
    pieces (board st) !! idx = Some p /\ kind_of p = Some k /\
    let new_p := canon k (step d (coord_x p) (coord_y p)) in
    pieces (board s) = new_p :: delete idx (pieces (board st)) /\
    kind_of new_p = Some k /\
    (coord_x new_p, coord_y new_p) = step d (coord_x p) (coord_y p) /\
    (piece_typed p -> new_p = shift_piece p d).
Proof.
  intros H Hs.
  destruct (generate_successors_inv _ _ _ H Hs)
    as (idx & p & Hp & k & d & Hk & new_b & h & Hb & _ & ->).
  exists idx, p, k, d. split; [exact Hp|]. split; [exact Hk|]. cbn zeta.
  split; [apply Board_init_pieces in Hb; exact Hb|].
  split; [apply kind_of_canon|]. split; [apply coords_canon|].
  intros Hty. apply canon_shift; assumption.
Qed.

Lemma move_frame_witness :
  exists idx p k d,
    pieces (board sparse_initial) !! idx = Some p /\ kind_of p = Some k /\
    let new_p := canon k (step d (coord_x p) (coord_y p)) in
    pieces (board sparse_child) =
      new_p :: delete idx (pieces (board sparse_initial)) /\
    kind_of new_p = Some k /\
    (coord_x new_p, coord_y new_p) = step d (coord_x p) (coord_y p) /\
    (piece_typed p -> new_p = shift_piece p d).
Proof.
  apply (move_frame sparse_initial [sparse_child] sparse_child).
  - vm_compute. reflexivity.
  - apply elem_of_cons. left. reflexivity.
Defined.

(** ** The goal piece on the grid *)

Lemma find_goal_lookup ps gx gy :
  find_goal ps = Some (gx, gy) ->
  exists i g, ps !! i = Some g /\ is_goal g = true /\
              coord_x g = gx /\ coord_y g = gy.
Proof.
  induction ps as [|p ps IH]; simpl; [discriminate|].
  destruct (is_goal p) eqn:Hg.
  - intros H. injection H as <- <-. exists 0%nat, p. auto.
  - intros H. destruct (IH H) as (i & g & Hi & Hr). exists (S i), g. auto.
Qed.

Lemma filter_nil_lookup {A} (P : A -> Prop) `{!forall x, Decision (P x)}
    (l : list A) i x :
  length (filter P l) = 0%nat -> l !! i = Some x -> P x -> False.
Proof.
  intros Hlen Hi Hx.
  assert (x ∈ filter P l) as Hin.
  { apply list_elem_of_filter. split; [exact Hx|].
    apply list_elem_of_lookup. eauto. }
  destruct (filter P l); [inversion Hin|discriminate].
Qed.

Lemma filter_one_unique {A} (P : A -> Prop) `{!forall x, Decision (P x)}
    (l : list A) : forall i j x y,
  length (filter P l) = 1%nat ->
  l !! i = Some x -> l !! j = Some y -> P x -> P y -> i = j.
Proof.
  induction l as [|a l IH]; intros i j x y Hlen Hi Hj Hx Hy; [inversion Hi|].
  rewrite filter_cons in Hlen.
  destruct i as [|i], j as [|j]; simpl in Hi, Hj.
  - reflexivity.
  - injection Hi as ->. destruct (decide (P x)); [|contradiction].
    simpl in Hlen. exfalso. eapply (filter_nil_lookup P l j y); eauto.
  - injection Hj as ->. destruct (decide (P y)); [|contradiction].
    simpl in Hlen. exfalso. eapply (filter_nil_lookup P l i x); eauto.
  - f_equal. destruct (decide (P a)).
    + simpl in Hlen. exfalso. eapply (filter_nil_lookup P l i x); eauto.
    + eapply IH; eauto.
Qed.

Lemma symbol_goal p x y :
  symbol p x y = Some char_goal -> is_goal p = true.
Proof.
  unfold symbol, kind_of.
  destruct (is_goal p); [reflexivity|].
  destruct (is_single p); [|destruct (orientation p) as [o|];
    [destruct (String.eqb o "h"); [|destruct (String.eqb o "v")]|]];
    simpl; zbool; simpl; intros H; discriminate.
Qed.

Lemma goal_symbol p x y :
  is_goal p = true -> (x, y) ∈ cells p -> symbol p x y = Some char_goal.
Proof.
  intros Hg Hc. apply symbol_cells in Hc as [s Hs]. rewrite Hs.
  revert Hs. unfold symbol, kind_of. rewrite Hg.
  destruct (_ && _); intros H; [symmetry; exact H|discriminate].
Qed.

(** A cell shows the goal symbol exactly when the goal piece covers it. *)
Lemma paint_goal ps i g x y :
  pieces_ok ps -> ps !! i = Some g -> is_goal g = true ->
  paint ps x y = char_goal <-> (x, y) ∈ cells g.
Proof.
  intros Hok Hi Hg. split.
  - intros Hp.
    destruct (decide (Exists (fun p => (x, y) ∈ cells p) ps)) as [He|He].
    + apply Exists_exists in He as (q & Hq & Hc).
      apply list_elem_of_lookup in Hq as [j Hj].
      pose proof Hc as Hs. apply symbol_cells in Hs as [s Hs].
      rewrite (paint_covered ps j q x y s (ok_disjoint _ Hok) Hj Hs) in Hp.
      subst s. apply symbol_goal in Hs.
      assert (j = i) as ->.
      { exact (filter_one_unique (fun p => is_goal p = true) ps j i q g
                 (ok_goal _ Hok) Hj Hi Hs Hg). }
      rewrite Hi in Hj. injection Hj as ->. exact Hc.
    + exfalso. assert (paint ps x y = "."%char) as Hb.
      { apply paint_blank. intros p Hin Hc. apply He, Exists_exists. eauto. }
      rewrite Hb in Hp. discriminate.
  - intros Hc. apply (paint_covered ps i g); [apply (ok_disjoint _ Hok)|exact Hi|].
    apply goal_symbol; assumption.
Qed.

Lemma goal_test_fun st φ :
  grid (board st) = grid_of_fun φ ->
  goal_test st =
  Ok (Ascii.eqb (φ 1 3) char_goal && Ascii.eqb (φ 2 4) char_goal).
Proof.
  intros Hg. unfold goal_test. rewrite Hg.
  rewrite !getitem_grid by lia. cbn [bind].
  rewrite !getitem_line by lia. cbn [bind]. apply and_then_Ok.
Qed.

Lemma goal_test_anchor st gx gy :
  board_ok (board st) -> get_goal (board st) = Some (gx, gy) ->
  goal_test st = Ok true <-> (gx, gy) = (1, 3).
Proof.
  intros Hbok Hgoal. pose proof (board_ok_grid _ Hbok) as Hg.
  destruct Hbok as [Hok _].
  apply find_goal_lookup in Hgoal as (i & g & Hi & Hig & Hx & Hy).
  rewrite (goal_test_fun _ _ Hg).
  assert (cells g = footprint Goal gx gy) as Hcells.
  { unfold cells, kind_of. rewrite Hig, Hx, Hy. reflexivity. }
  assert (forall x y, Ascii.eqb (paint (pieces (board st)) x y) char_goal = true
                      <-> (x, y) ∈ footprint Goal gx gy) as Hcell.
  { intros x y. rewrite Ascii.eqb_eq, <- Hcells. apply (paint_goal _ i); auto. }
  assert (bounded g) as Hb.
  { eapply Forall_lookup_1; [apply (ok_bounds _ Hok)|exact Hi]. }
  unfold bounded in Hb. rewrite Hcells in Hb. simpl in Hb.
  rewrite !Forall_cons in Hb. unfold in_board in Hb. simpl in Hb.
  split.
  - intros H. injection H as H. apply andb_true_iff in H as [H1 H2].
    apply Hcell in H1, H2. simpl in H1, H2.
    rewrite !elem_of_cons, elem_of_nil in H1, H2.
    assert (gx = 1 /\ gy = 3) as [-> ->]; [|reflexivity].
    repeat match goal with
           | H : _ \/ _ |- _ => destruct H
           | H : (_, _) = (_, _) |- _ => injection H as ? ?
           | H : False |- _ => destruct H
           end; lia.
  - intros H. injection H as -> ->. f_equal. apply andb_true_iff. split.
    + apply Hcell. simpl. rewrite !elem_of_cons. auto.
    + apply Hcell. simpl. rewrite !elem_of_cons. auto 10.
Qed.

(** ** Heuristic and goal test *)

(** C4.  On a board of the data model [manhattan] is
    [|gx - 1| + |gy - 3|] for the anchor [(gx, gy)] of the goal piece, and it
    is 0 exactly when the goal test succeeds, that is when the goal piece is
    anchored at (1,3). *)
Theorem heuristic_goal_agreement (st : State) :
  board_ok (board st) ->
  exists gx gy,
    get_goal (board st) = Some (gx, gy) /\
    manhattan (board st) = Ok (Z.abs (gx - 1) + Z.abs (gy - 3)) /\
    (manhattan (board st) = Ok 0 <-> goal_test st = Ok true) /\
    (goal_test st = Ok true <-> (gx, gy) = (1, 3)).
Proof.
  intros Hbok. destruct (find_goal_ok _ (proj1 Hbok)) as [[gx gy] Hgoal].
  exists gx, gy. pose proof (goal_test_anchor st gx gy Hbok Hgoal) as Ha.
  assert (manhattan (board st) = Ok (Z.abs (gx - 1) + Z.abs (gy - 3))) as Hm.
  { unfold manhattan, get_goal. rewrite Hgoal. reflexivity. }
  split; [exact Hgoal|]. split; [exact Hm|]. split; [|exact Ha].
  rewrite Ha, Hm. split.
  - intros H. injection H as H. f_equal; lia.
  - intros H. injection H as -> ->. reflexivity.
Qed.

Lemma heuristic_goal_agreement_witness :
  exists gx gy,
    get_goal (board sparse_initial) = Some (gx, gy) /\
    manhattan (board sparse_initial) = Ok (Z.abs (gx - 1) + Z.abs (gy - 3)) /\
    (manhattan (board sparse_initial) = Ok 0 <->
     goal_test sparse_initial = Ok true) /\
    (goal_test sparse_initial = Ok true <-> (gx, gy) = (1, 3)).
Proof.
  apply (heuristic_goal_agreement sparse_initial).
  split; [apply pieces_okb_spec; vm_compute; reflexivity | vm_compute; reflexivity].
Defined.

(** ** Equality and hashing of boards *)

Lemma cells_kind p q :
  cells p = cells q -> cells p <> [] ->
  kind_of p = kind_of q /\ coord_x p = coord_x q /\ coord_y p = coord_y q.
Proof.
  unfold cells.
  destruct (kind_of p) as [[]|], (kind_of q) as [[]|]; simpl; intros H Hn;
    try discriminate; try (injection H; intros; subst; auto; lia);
    contradiction.
Qed.

Lemma cells_eq_symbol p q x y :
  cells p = cells q -> symbol p x y = symbol q x y.
Proof.
  intros H. destruct (cells p) as [|c l] eqn:Hp.
  - assert (symbol p x y = None) as ->.
    { apply symbol_None. rewrite Hp. apply not_elem_of_nil. }
    symmetry. apply symbol_None. rewrite <- H. apply not_elem_of_nil.
  - rewrite <- Hp in H. destruct (cells_kind p q H) as (Hk & Hx & Hy).
    { rewrite Hp. discriminate. }
    unfold symbol. rewrite Hk, Hx, Hy. reflexivity.
Qed.

Lemma paint_same_one ps qs x y :
  disjoint_footprints ps -> disjoint_footprints qs ->
  same_footprints ps qs -> paint ps x y = paint qs x y.
Proof.
  intros Hdp Hdq (qs' & Hperm & Hall).
  destruct (decide (Exists (fun p => (x, y) ∈ cells p) ps)) as [He|He].
  - apply Exists_exists in He as (p & Hp & Hc).
    apply list_elem_of_lookup in Hp as [i Hi].
    apply symbol_cells in Hc as [s Hs].
    rewrite (paint_covered ps i p x y s Hdp Hi Hs).
    destruct (Forall2_lookup_l _ _ _ _ _ Hall Hi) as (q & Hq & Hpq).
    assert (q ∈ qs) as Hin.
    { rewrite <- Hperm. apply list_elem_of_lookup. eauto. }
    apply list_elem_of_lookup in Hin as [j Hj].
    symmetry. apply (paint_covered qs j q x y s Hdq Hj).
    rewrite <- (cells_eq_symbol p q x y Hpq). exact Hs.
  - assert (paint ps x y = "."%char) as ->.
    { apply paint_blank. intros p Hin Hc. apply He, Exists_exists. eauto. }
    symmetry. apply paint_blank. intros q Hin Hc. apply He.
    rewrite <- Hperm in Hin. apply list_elem_of_lookup in Hin as [i Hi].
    destruct (Forall2_lookup_r _ _ _ _ _ Hall Hi) as (p & Hp & Hpq).
    apply Exists_exists. exists p. split.
    + apply list_elem_of_lookup. eauto.
    + rewrite Hpq. exact Hc.
Qed.

Lemma same_footprints_bounded ps qs :
  same_footprints ps qs -> Forall bounded ps -> Forall bounded qs.
Proof.
  intros (qs' & Hperm & Hall) Hb. rewrite <- Hperm. clear Hperm.
  induction Hall as [|p q ps qs' Hpq Hall IH]; [constructor|].
  apply Forall_cons in Hb as [Hp Hb]. constructor; [|exact (IH Hb)].
  unfold bounded in *. rewrite <- Hpq. exact Hp.
Qed.

Lemma Board_eq_hash_grid py_hash b1 b2 :
  grid b1 = grid b2 ->
  Board_eq b1 b2 = true /\ Board_hash py_hash b1 = Board_hash py_hash b2.
Proof.
  intros H. unfold Board_eq, Board_str, Board_hash. rewrite H.
  split; [apply String.eqb_refl|reflexivity].
Qed.

(** C7.  Two boards constructed from piece lists that place the same
    footprints, in any order, have the same grid; they are equal under
    [__eq__] and have the same [__hash__], both being functions of the grid
    alone. *)
Theorem board_eq_hash_structural (py_hash : string -> Z)
    (ps qs : list Piece) (b1 b2 : Board) :
  Forall bounded ps -> disjoint_footprints ps -> disjoint_footprints qs ->
  same_footprints ps qs ->
  Board_init ps = Ok b1 -> Board_init qs = Ok b2 ->
  grid b1 = grid b2 /\
  Board_eq b1 b2 = true /\
  Board_hash py_hash b1 = Board_hash py_hash b2 /\
  (forall b b', grid b = grid b' ->
     Board_eq b b' = true /\ Board_hash py_hash b = Board_hash py_hash b').
Proof.
  intros Hbp Hdp Hdq Hsame H1 H2.
  pose proof (same_footprints_bounded _ _ Hsame Hbp) as Hbq.
  unfold Board_init in H1, H2.
  rewrite construct_grid_fun in H1, H2 by assumption. cbn [bind] in H1, H2.
  injection H1 as <-. injection H2 as <-. cbn [grid].
  assert (grid_of_fun (paint ps) = grid_of_fun (paint qs)) as Hg.
  { apply grid_of_fun_ext. intros x y _ _. apply paint_same_one; assumption. }
  split; [exact Hg|].
  destruct (Board_eq_hash_grid py_hash
              (mkBoard ps (grid_of_fun (paint ps)))
              (mkBoard qs (grid_of_fun (paint qs))) Hg) as [He Hh].
  split; [exact He|]. split; [exact Hh|].
  intros b b'. apply Board_eq_hash_grid.
Qed.

Lemma board_eq_hash_structural_witness :
  let py_hash := fun s : string => Z.of_nat (String.length s) in
  let b1 := sparse_board in
  let b2 := mkBoard (rev sparse_pieces) (grid_of_fun (paint (rev sparse_pieces))) in
  grid b1 = grid b2 /\
  Board_eq b1 b2 = true /\
  Board_hash py_hash b1 = Board_hash py_hash b2 /\
  (forall b b', grid b = grid b' ->
     Board_eq b b' = true /\ Board_hash py_hash b = Board_hash py_hash b').
Proof.
  apply (board_eq_hash_structural _ sparse_pieces (rev sparse_pieces)).
  - apply pieces_okb_spec. vm_compute. reflexivity.
  - apply disjointb_spec. vm_compute. reflexivity.
  - apply disjointb_spec. vm_compute. reflexivity.
  - exists sparse_pieces. split.
    + apply Permutation_rev.
    + unfold sparse_pieces. repeat constructor.
  - vm_compute. reflexivity.
  - vm_compute. reflexivity.
Defined.

(** ** [heapq]: the heap keeps its items *)

Lemma insert_hole_swap {A} (l : list A) i j (x y : A) :
  (i < length l)%nat -> l !! j = Some y ->
  <[j:=x]> (<[i:=y]> l) ≡ₚ <[i:=x]> l.
Proof.
  intros Hi Hj. destruct (decide (i = j)) as [->|Hne].
  - rewrite list_insert_insert_eq. reflexivity.
  - rewrite <- (list_insert_insert_eq l i y x).
    apply Permutation_insert_swap.
    + apply list_lookup_insert_eq. exact Hi.
    + rewrite list_lookup_insert_ne by exact Hne. exact Hj.
Qed.

Section HeapqItems.
Context {A : Type} (lt : A -> A -> bool).

Lemma siftdown_loop_perm n : forall heap newitem startpos pos,
  (pos < length heap)%nat ->
  siftdown_loop lt n heap newitem startpos pos ≡ₚ <[pos:=newitem]> heap.
Proof.
  induction n as [|n IH]; intros heap newitem startpos pos Hpos;
    cbn [siftdown_loop]; [reflexivity|].
  destruct (startpos <? pos)%nat; [|reflexivity].
  destruct (heap !! ((pos - 1) / 2)%nat) as [parent|] eqn:Hp; [|reflexivity].
  destruct (lt newitem parent); [|reflexivity].
  rewrite IH.
  - apply insert_hole_swap; assumption.
  - rewrite length_insert. apply lookup_lt_Some in Hp. exact Hp.
Qed.

Lemma siftdown_perm heap startpos pos : siftdown lt heap startpos pos ≡ₚ heap.
Proof.
  unfold siftdown. destruct (heap !! pos) as [newitem|] eqn:Hp; [|reflexivity].
  rewrite siftdown_loop_perm by (apply lookup_lt_Some in Hp; exact Hp).
  rewrite list_insert_id by exact Hp. reflexivity.
Qed.

Lemma siftup_loop_perm newitem n : forall heap endpos pos heap' leaf,
  (pos < length heap)%nat ->
  siftup_loop lt n heap endpos pos = (heap', leaf) ->
  (leaf < length heap')%nat /\
  <[leaf:=newitem]> heap' ≡ₚ <[pos:=newitem]> heap.
Proof.
  induction n as [|n IH]; intros heap endpos pos heap' leaf Hpos H;
    cbn [siftup_loop] in H.
  - injection H as <- <-. auto.
  - destruct (2 * pos + 1 <? endpos)%nat; [|injection H as <- <-; auto].
    destruct (heap !! (2 * pos + 1)%nat) as [l|] eqn:El;
      [destruct (heap !! (2 * pos + 1 + 1)%nat) as [r|] eqn:Er;
         [destruct ((2 * pos + 1 + 1 <? endpos)%nat && negb (lt l r))|]|];
      rewrite ?El, ?Er in H; try (injection H as <- <-; auto; fail).
    all: apply IH in H as [Hleaf Hperm];
      [|rewrite length_insert;
        match goal with
        | E : _ !! ?i = Some _ |- (?i < _)%nat =>
            apply lookup_lt_Some in E; exact E
        end].
    all: split; [exact Hleaf|]; rewrite Hperm;
      apply insert_hole_swap; assumption.
Qed.

Lemma siftup_perm heap pos : siftup lt heap pos ≡ₚ heap.
Proof.
  unfold siftup. destruct (heap !! pos) as [newitem|] eqn:Hp; [|reflexivity].
  destruct (siftup_loop lt (length heap) heap (length heap) pos)
    as [heap' leaf] eqn:Hl.
  apply (siftup_loop_perm newitem) in Hl as [Hleaf Hperm];
    [|apply lookup_lt_Some in Hp; exact Hp].
  rewrite siftdown_perm, Hperm, list_insert_id by exact Hp. reflexivity.
Qed.

Lemma heappush_perm heap item : heappush lt heap item ≡ₚ item :: heap.
Proof.
  unfold heappush. rewrite siftdown_perm.
  symmetry. apply Permutation_cons_append.
Qed.

Lemma heappop_perm heap x heap' :
  heappop lt heap = Ok (x, heap') -> heap ≡ₚ x :: heap'.
Proof.
  unfold heappop. destruct (last heap) as [lastelt|] eqn:Hlast; [|discriminate].
  apply last_Some in Hlast as [l ->]. rewrite removelast_last.
  destruct l as [|returnitem rest]; intros H; injection H as <- <-.
  - reflexivity.
  - rewrite siftup_perm. simpl. rewrite Permutation_swap. f_equal.
    symmetry. apply Permutation_cons_append.
Qed.

Lemma heappop_nonempty a heap :
  exists x heap', heappop lt (a :: heap) = Ok (x, heap').
Proof.
  unfold heappop. destruct (last (a :: heap)) as [lastelt|] eqn:Hlast.
  - destruct (removelast (a :: heap)); eauto.
  - apply last_None in Hlast. discriminate.
Qed.
End HeapqItems.

Lemma list_pop_spec {A} (l : list A) x l' :
  list_pop l = Ok (x, l') -> l = l' ++ [x].
Proof.
  unfold list_pop. destruct (last l) as [a|] eqn:Hlast; [|discriminate].
  apply last_Some in Hlast as [k ->]. rewrite removelast_last.
  intros H. injection H as <- <-. reflexivity.
Qed.

Lemma list_pop_nonempty {A} (a : A) l :
  exists x l', list_pop (a :: l) = Ok (x, l').
Proof.
  unfold list_pop. destruct (last (a :: l)) eqn:Hlast; [eauto|].
  apply last_None in Hlast. discriminate.
Qed.

(** ** States of a search *)

Lemma descends_inherited init : inherited (descends init).
Proof. intros p successors s. apply descends_step. Qed.

Lemma dfs_visit_Forall (P : State -> Prop) successors :
  forall frontier explored,
    Forall P successors -> Forall P frontier ->
    Forall P (dfs_visit successors frontier explored).1.
Proof.
  induction successors as [|s successors IH]; intros frontier explored Hs Hf;
    simpl; [exact Hf|].
  apply Forall_cons in Hs as [Hs Hss].
  destruct (bool_decide (grid (board s) ∈ explored)); apply IH; auto.
  apply Forall_app. split; [exact Hf|]. constructor; [exact Hs|constructor].
Qed.

Lemma astar_visit_Forall (P : State -> Prop) successors :
  forall frontier explored,
    Forall P successors -> Forall P frontier ->
    Forall P (astar_visit successors frontier explored).1.
Proof.
  induction successors as [|s successors IH]; intros frontier explored Hs Hf;
    simpl; [exact Hf|].
  apply Forall_cons in Hs as [Hs Hss].
  destruct (match explored !! Board_str (board s) with
            | Some recorded => State_lt s recorded
            | None => true
            end); apply IH; auto.
  rewrite heappush_perm. constructor; assumption.
Qed.

Lemma inherited_successors (P : State -> Prop) p successors :
  inherited P -> P p -> generate_successors p = Ok successors ->
  Forall P successors.
Proof.
  intros HP Hp Hg. apply Forall_forall. intros s Hs. exact (HP p _ s Hp Hg Hs).
Qed.

Lemma dfs_loop_sound (P : State -> Prop) :
  inherited P ->
  forall fuel frontier explored t,
    Forall P frontier ->
    dfs_loop fuel frontier explored = Some (Ok (Some t)) ->
    P t /\ goal_test t = Ok true.
Proof.
  intros HP. induction fuel as [|fuel IH]; intros frontier explored t Hf H;
    [discriminate|].
  cbn [dfs_loop] in H. destruct frontier as [|a l]; [discriminate|].
  destruct (list_pop (a :: l)) as [[curr rest]|] eqn:Hpop; [|discriminate].
  apply list_pop_spec in Hpop. rewrite Hpop in Hf.
  apply Forall_app in Hf as [Hrest Hcurr]. apply Forall_cons in Hcurr as [Hcurr _].
  destruct (goal_test curr) as [[]|] eqn:Hgoal; [|..|discriminate].
  - injection H as <-. auto.
  - destruct (generate_successors curr) as [successors|] eqn:Hg; [|discriminate].
    pose proof (dfs_visit_Forall P successors rest explored
                  (inherited_successors P curr _ HP Hcurr Hg) Hrest) as Hv.
    destruct (dfs_visit successors rest explored) as [frontier' explored'].
    exact (IH _ _ _ Hv H).
Qed.

Lemma astar_loop_sound (P : State -> Prop) :
  inherited P ->
  forall fuel frontier explored t,
    Forall P frontier ->
    astar_loop fuel frontier explored = Some (Ok (Some t)) ->
    P t /\ goal_test t = Ok true.
Proof.
  intros HP. induction fuel as [|fuel IH]; intros frontier explored t Hf H;
    [discriminate|].
  cbn [astar_loop] in H. destruct frontier as [|a l]; [discriminate|].
  destruct (heappop State_lt (a :: l)) as [[curr rest]|] eqn:Hpop; [|discriminate].
  apply heappop_perm in Hpop. rewrite Hpop in Hf.
  apply Forall_cons in Hf as [Hcurr Hrest].
  destruct (goal_test curr) as [[]|] eqn:Hgoal; [|..|discriminate].
  - injection H as <-. auto.
  - destruct (generate_successors curr) as [successors|] eqn:Hg; [|discriminate].
    pose proof (astar_visit_Forall P successors rest explored
                  (inherited_successors P curr _ HP Hcurr Hg) Hrest) as Hv.
    destruct (astar_visit successors rest explored) as [frontier' explored'].
    exact (IH _ _ _ Hv H).
Qed.

(** ** Parent chains and the reconstructed path *)

Lemma descends_chain init s :
  depth init = 0 -> descends init s ->
  0 <= depth s /\ parent_chain init s (Z.to_nat (depth s)).
Proof.
  intros H0 Hd. induction Hd as [|p successors s Hp [IH1 IH2] Hg Hs].
  - rewrite H0. split; [lia|constructor].
  - destruct (successor_fields _ _ _ Hg Hs) as (Hdepth & _ & Hpar).
    rewrite Hdepth. split; [lia|].
    replace (Z.to_nat (depth p + 1)) with (S (Z.to_nat (depth p))) by lia.
    econstructor; eauto.
Qed.

Lemma path_from_unfold s :
  path_from s =
  board s :: match parent s with Some q => path_from q | None => [] end.
Proof. destruct s. reflexivity. Qed.

Lemma path_from_chain init s n :
  parent init = None -> parent_chain init s n ->
  length (path_from s) = S n /\
  last (path_from s) = Some (board init) /\
  head (path_from s) = Some (board s).
Proof.
  intros Hroot Hc. induction Hc as [|s p successors n Hpar Hg Hs Hc (IH1 & IH2 & IH3)].
  - rewrite path_from_unfold, Hroot. auto.
  - rewrite path_from_unfold, Hpar. simpl. rewrite IH1.
    split; [reflexivity|]. split; [|reflexivity].
    destruct (path_from p) as [|b l]; [discriminate|]. exact IH2.
Qed.

Lemma write_path_count path : forall n,
  (write_path path n).2 = n + Z.of_nat (length path).
Proof.
  induction path as [|b path IH]; intros n; simpl; [lia|].
  specialize (IH (n + 1)). destruct (write_path path (n + 1)) as [text m].
  simpl in *. lia.
Qed.

Lemma get_solution_count state :
  (get_solution state).2 = Z.of_nat (length (collect_path state)).
Proof.
  unfold get_solution.
  pose proof (write_path_count (rev (collect_path state)) 0) as H.
  destruct (write_path (rev (collect_path state)) 0) as [text n].
  simpl in *. rewrite H, length_rev. lia.
Qed.

Lemma near_board_ok : board_ok near_board.
Proof. apply Board_init_ok, pieces_okb_spec. vm_compute. reflexivity. Qed.

Lemma rev_head_last {A} (l : list A) :
  head (rev l) = last l /\ last (rev l) = head l.
Proof.
  rewrite rev_alt. change (rev_append l []) with (reverse l).
  split; [apply head_reverse|apply last_reverse].
Qed.

(** C10.  In a search from an initial state of depth 0 without parent, every
    state that comes up reaches the initial state along [parent] in exactly
    [depth] steps, each a move of [generate_successors].  So for the state
    [t] that [dfs] or [astar] returns, the reconstructed path has
    [depth t + 1] boards, from the initial board to the board of [t], and
    the printed count is [depth t + 1]. *)
Theorem parent_chain_path (init : State) (fuel : nat) (t : State) :
  depth init = 0 -> parent init = None ->
  dfs fuel init = Some (Ok (Some t)) \/ astar fuel init = Some (Ok (Some t)) ->
  (forall s, descends init s ->
     0 <= depth s /\ parent_chain init s (Z.to_nat (depth s))) /\
  descends init t /\
  let path := rev (collect_path (Some t)) in
  Z.of_nat (length path) = depth t + 1 /\
  head path = Some (board init) /\
  last path = Some (board t) /\
  (get_solution (Some t)).2 = depth t + 1.
Proof.
  intros H0 Hroot Hsearch.
  assert (descends init t) as Ht.
  { destruct Hsearch as [H|H].
    - apply (dfs_loop_sound _ (descends_inherited init) fuel [init] [] t);
        [repeat constructor|exact H].
    - unfold astar in H.
      eapply (astar_loop_sound _ (descends_inherited init));
        [|exact H]. repeat constructor. }
  split; [intros s; apply descends_chain, H0|]. split; [exact Ht|].
  destruct (descends_chain init t H0 Ht) as [Hd Hc].
  destruct (path_from_chain init t _ Hroot Hc) as (Hlen & Hlast & Hhead).
  cbn zeta. destruct (rev_head_last (collect_path (Some t))) as [-> ->].
  rewrite get_solution_count, length_rev. cbn [collect_path]. rewrite Hlen.
  split; [lia|]. split; [exact Hlast|]. split; [exact Hhead|lia].
Qed.

Lemma parent_chain_path_witness :
  (forall s, descends near_initial s ->
     0 <= depth s /\ parent_chain near_initial s (Z.to_nat (depth s))) /\
  descends near_initial near_solved /\
  let path := rev (collect_path (Some near_solved)) in
  Z.of_nat (length path) = depth near_solved + 1 /\
  head path = Some (board near_initial) /\
  last path = Some (board near_solved) /\
  (get_solution (Some near_solved)).2 = depth near_solved + 1.
Proof.
  apply (parent_chain_path near_initial 2 near_solved).
  - reflexivity.
  - reflexivity.
  - left. vm_compute. reflexivity.
Defined.

(** ** The finitely many grids *)

Lemma words_complete {A} (sigma : list A) (w : list A) :
  Forall (fun a => a ∈ sigma) w -> w ∈ words (length w) sigma.
Proof.
  induction w as [|a w IH]; intros H; simpl.
  - apply elem_of_cons. left. reflexivity.
  - apply Forall_cons in H as [Ha Hw]. apply list_elem_of_In, in_flat_map.
    exists w. split; [apply list_elem_of_In, IH, Hw|].
    apply (in_map (fun a => a :: w)), list_elem_of_In, Ha.
Qed.

Lemma symbol_alphabet p x y s : symbol p x y = Some s -> s ∈ alphabet.
Proof.
  unfold symbol, alphabet.
  destruct (kind_of p) as [[]|]; simpl; zbool; simpl; intros H;
    inversion H; rewrite !elem_of_cons; auto 10.
Qed.

Lemma paint_alphabet ps x y : paint ps x y ∈ alphabet.
Proof.
  unfold paint.
  assert ((fun _ _ : Z => "."%char) x y ∈ alphabet) as H0.
  { apply elem_of_cons. left. reflexivity. }
  revert H0. generalize (fun _ _ : Z => "."%char).
  induction ps as [|p ps IH]; intros φ H0; simpl; [exact H0|].
  apply IH. rewrite paint_piece_symbol.
  destruct (symbol p x y) as [s|] eqn:Hs; simpl; [|exact H0].
  eapply symbol_alphabet, Hs.
Qed.

Lemma grid_of_fun_all φ :
  (forall x y, φ x y ∈ alphabet) -> grid_of_fun φ ∈ all_grids.
Proof.
  intros H. unfold grid_of_fun, all_grids.
  apply (words_complete (words 4 alphabet)
           (map (fun y => map (fun x => φ x y) [0; 1; 2; 3]) [0; 1; 2; 3; 4])).
  apply Forall_forall. intros row Hrow.
  apply list_elem_of_fmap in Hrow as (y & -> & _).
  apply (words_complete alphabet (map (fun x => φ x y) [0; 1; 2; 3])).
  apply Forall_forall. intros c Hc.
  apply list_elem_of_fmap in Hc as (x & -> & _). apply H.
Qed.

Lemma board_ok_all_grids b : board_ok b -> grid b ∈ all_grids.
Proof.
  intros Hok. rewrite (board_ok_grid _ Hok).
  apply grid_of_fun_all. intros x y. apply paint_alphabet.
Qed.

#[global] Opaque all_grids.

(** ** Termination of the depth-first search *)

Lemma dfs_visit_explored successors : forall frontier explored,
  NoDup explored -> (forall g, g ∈ explored -> g ∈ all_grids) ->
  Forall (fun s => grid (board s) ∈ all_grids) successors ->
  let r := dfs_visit successors frontier explored in
  NoDup r.2 /\ (forall g, g ∈ r.2 -> g ∈ all_grids) /\
  exists k, length r.1 = (length frontier + k)%nat /\
            length r.2 = (length explored + k)%nat.
Proof.
  induction successors as [|s successors IH]; intros frontier explored Hnd Hall Hs;
    simpl.
  - split; [exact Hnd|]. split; [exact Hall|]. exists 0%nat. lia.
  - apply Forall_cons in Hs as [Hs Hss].
    destruct (bool_decide (grid (board s) ∈ explored)) eqn:Hin.
    + apply IH; assumption.
    + apply bool_decide_eq_false in Hin.
      destruct (IH (frontier ++ [s]) (explored ++ [grid (board s)]))
        as (H1 & H2 & k & Hk1 & Hk2).
      * apply NoDup_app. split; [exact Hnd|]. split; [|apply NoDup_singleton].
        intros g Hg Hg'. apply list_elem_of_singleton in Hg'. subst g.
        contradiction.
      * intros g Hg. apply elem_of_app in Hg as [Hg|Hg]; [auto|].
        apply list_elem_of_singleton in Hg. subst g. exact Hs.
      * exact Hss.
      * split; [exact H1|]. split; [exact H2|]. exists (S k).
        rewrite length_app in Hk1, Hk2. simpl in Hk1, Hk2. lia.
Qed.

Lemma NoDup_all_grids (explored : list Grid) :
  NoDup explored -> (forall g, g ∈ explored -> g ∈ all_grids) ->
  (length explored <= length all_grids)%nat.
Proof.
  intros Hnd Hall. apply submseteq_length, NoDup_submseteq; assumption.
Qed.

Lemma ok_successors st :
  board_ok (board st) ->
  generate_successors st = Ok (successors_of st) /\
  Forall (fun s => board_ok (board s)) (successors_of st).
Proof.
  intros Hok. split; [apply generate_successors_ok, Hok|].
  apply Forall_forall. intros s Hs. eapply successors_board_ok; eauto.
Qed.

Lemma goal_test_ok st : board_ok (board st) -> exists c, goal_test st = Ok c.
Proof.
  intros Hok. rewrite (goal_test_fun _ _ (board_ok_grid _ Hok)). eauto.
Qed.

Lemma dfs_loop_terminates : forall fuel frontier explored,
  Forall (fun s => board_ok (board s)) frontier ->
  NoDup explored -> (forall g, g ∈ explored -> g ∈ all_grids) ->
  (2 * (length all_grids - length explored) + length frontier < fuel)%nat ->
  exists r, dfs_loop fuel frontier explored = Some (Ok r).
Proof.
  induction fuel as [|fuel IH]; intros frontier explored Hf Hnd Hall Hm; [lia|].
  cbn [dfs_loop]. destruct frontier as [|a l]; [eauto|].
  destruct (list_pop_nonempty a l) as (curr & rest & Hpop). rewrite Hpop.
  apply list_pop_spec in Hpop. rewrite Hpop in Hf, Hm.
  apply Forall_app in Hf as [Hrest Hcurr].
  apply Forall_cons in Hcurr as [Hcurr _].
  destruct (goal_test_ok _ Hcurr) as [[] ->]; [eauto|].
  destruct (ok_successors _ Hcurr) as [-> Hsucc].
  pose proof (dfs_visit_Forall _ (successors_of curr) rest explored Hsucc Hrest)
    as Hv.
  destruct (dfs_visit_explored (successors_of curr) rest explored Hnd Hall)
    as (H1 & H2 & k & Hk1 & Hk2).
  { eapply Forall_impl; [exact Hsucc|]. intros s. apply board_ok_all_grids. }
  destruct (dfs_visit (successors_of curr) rest explored)
    as [frontier' explored'].
  simpl in Hv, H1, H2, Hk1, Hk2.
  apply IH; try assumption.
  pose proof (NoDup_all_grids _ H1 H2). rewrite length_app in Hm.
  simpl in Hm. lia.
Qed.

(** ** Termination of the A* search *)

Lemma board_ok_key b : board_ok b -> Board_str b ∈ all_keys.
Proof.
  intros Hok. unfold all_keys. apply elem_of_list_to_set, list_elem_of_fmap.
  exists (grid b). split; [reflexivity|apply board_ok_all_grids, Hok].
Qed.

Lemma keys_ok_size m : keys_ok m -> (size m <= size all_keys)%nat.
Proof.
  intros H. rewrite <- (size_dom (D := gset string) m). apply subseteq_size.
  intros k Hk. apply elem_of_dom in Hk as [s Hs]. eapply H, Hs.
Qed.

#[global] Opaque all_keys.

Lemma heuristic_nonneg ps : 0 <= heuristic ps.
Proof. unfold heuristic. destruct (find_goal ps) as [[gx gy]|]; lia. Qed.

Lemma good_successors p :
  good p -> Forall good (successors_of p).
Proof.
  intros (Hok & Hd & _). apply Forall_forall. intros s Hs.
  split; [eapply successors_board_ok; eauto|].
  apply elem_of_successors_of in Hs as (idx & q & d & _ & _ & ->).
  unfold child_state. simpl. pose proof (heuristic_nonneg
    (shift_piece q d :: delete idx (pieces (board p)))). lia.
Qed.

Lemma total_f_insert_None m k s :
  m !! k = None ->
  total_f (<[k:=s]> m) = (Z.to_nat (f s) + total_f m)%nat.
Proof.
  intros H. unfold total_f. rewrite map_fold_insert_L; [reflexivity| |exact H].
  intros. lia.
Qed.

Lemma total_f_lookup m k s :
  m !! k = Some s ->
  total_f m = (Z.to_nat (f s) + total_f (delete k m))%nat.
Proof.
  intros H. unfold total_f.
  rewrite (map_fold_delete_L _ _ k s m); [reflexivity| |exact H].
  intros. lia.
Qed.

Lemma total_f_replace m k s old :
  m !! k = Some old ->
  (total_f (<[k:=s]> m) + Z.to_nat (f old) = total_f m + Z.to_nat (f s))%nat.
Proof.
  intros H. rewrite (total_f_lookup m k old H).
  rewrite <- insert_delete_eq.
  rewrite total_f_insert_None by apply lookup_delete_eq. lia.
Qed.

Lemma progress_trans m1 m2 m3 :
  progress m1 m2 -> progress m2 m3 -> progress m1 m3.
Proof. unfold progress. lia. Qed.

Lemma astar_visit_progress successors : forall frontier explored,
  Forall good successors -> keys_ok explored ->
  let r := astar_visit successors frontier explored in
  keys_ok r.2 /\ (r = (frontier, explored) \/ progress explored r.2).
Proof.
  induction successors as [|s successors IH]; intros frontier explored Hs Hk;
    cbn [astar_visit]; [auto|].
  apply Forall_cons in Hs as [(Hok & Hd & Hf) Hss]. cbn zeta.
  assert (forall old,
            (explored !! Board_str (board s) = None \/
             (explored !! Board_str (board s) = Some old /\
              State_lt s old = true)) ->
            keys_ok (<[Board_str (board s):=s]> explored) /\
            progress explored (<[Board_str (board s):=s]> explored))
    as Hpush.
  { intros old Hcase.
    assert (keys_ok (<[Board_str (board s):=s]> explored)) as Hk'.
    { intros k s' Hl. destruct (decide (k = Board_str (board s))) as [->|Hne].
      - apply board_ok_key, Hok.
      - rewrite lookup_insert_ne in Hl by auto. eapply Hk, Hl. }
    split; [exact Hk'|]. apply keys_ok_size in Hk'.
    destruct Hcase as [Hn|[Ho Hlt]].
    - left. rewrite map_size_insert_None in Hk' |- * by exact Hn. lia.
    - right. rewrite map_size_insert_Some by eauto. split; [reflexivity|].
      pose proof (total_f_replace explored _ s old Ho).
      unfold State_lt in Hlt. apply Z.ltb_lt in Hlt. lia. }
  destruct (explored !! Board_str (board s)) as [old|] eqn:Ho.
  - destruct (State_lt s old) eqn:Hlt.
    + destruct (Hpush old) as [Hk' Hp]; [auto|].
      destruct (IH (heappush State_lt frontier s)
                  (<[Board_str (board s):=s]> explored) Hss Hk')
        as [Hk'' [Heq|Hp']].
      * split; [exact Hk''|]. right. rewrite Heq. exact Hp.
      * split; [exact Hk''|]. right. exact (progress_trans _ _ _ Hp Hp').
    + apply IH; assumption.
  - destruct (Hpush s) as [Hk' Hp]; [auto|].
    destruct (IH (heappush State_lt frontier s)
                (<[Board_str (board s):=s]> explored) Hss Hk')
      as [Hk'' [Heq|Hp']].
    * split; [exact Hk''|]. right. rewrite Heq. exact Hp.
    * split; [exact Hk''|]. right. exact (progress_trans _ _ _ Hp Hp').
Qed.

Lemma astar_loop_terminates : forall a b c frontier explored,
  a = (size all_keys - size explored)%nat -> b = total_f explored ->
  c = length frontier ->
  Forall good frontier -> keys_ok explored ->
  exists fuel r, astar_loop fuel frontier explored = Some (Ok r).
Proof.
  intros a. induction a as [a IHa] using (well_founded_induction lt_wf).
  intros b. induction b as [b IHb] using (well_founded_induction lt_wf).
  intros c. induction c as [c IHc] using (well_founded_induction lt_wf).
  intros frontier explored Ha Hb Hc Hf Hk.
  destruct frontier as [|x l]; [exists 1%nat, None; reflexivity|].
  destruct (heappop_nonempty State_lt x l) as (curr & rest & Hpop).
  pose proof (heappop_perm _ _ _ _ Hpop) as Hperm.
  rewrite Hperm in Hf. apply Forall_cons in Hf as [Hcurr Hrest].
  assert (length rest < c)%nat as Hlen.
  { apply Permutation_length in Hperm. simpl in Hperm, Hc. lia. }
  destruct (goal_test_ok _ (proj1 Hcurr)) as [goal Hgoal].
  destruct goal.
  { exists 1%nat, (Some curr). cbn [astar_loop]. rewrite Hpop, Hgoal.
    reflexivity. }
  destruct (ok_successors _ (proj1 Hcurr)) as [Hgen _].
  pose proof (good_successors _ Hcurr) as Hsucc.
  pose proof (astar_visit_Forall _ (successors_of curr) rest explored
                Hsucc Hrest) as Hv.
  destruct (astar_visit_progress (successors_of curr) rest explored Hsucc Hk)
    as [Hk' Hcase].
  assert (exists fuel r,
            astar_loop fuel (astar_visit (successors_of curr) rest explored).1
              (astar_visit (successors_of curr) rest explored).2
            = Some (Ok r)) as (fuel & r & Hrun).
  { destruct Hcase as [Heq|[Hp|[Hp1 Hp2]]].
    - rewrite Heq. cbn [fst snd].
      exact (IHc (length rest) Hlen rest explored Ha Hb eq_refl Hrest Hk).
    - subst a. exact (IHa _ Hp _ _ _ _ eq_refl eq_refl eq_refl Hv Hk').
    - subst b. refine (IHb _ Hp2 _ _ _ _ eq_refl eq_refl Hv Hk').
      rewrite Hp1. exact Ha. }
  exists (S fuel), r. cbn [astar_loop]. rewrite Hpop, Hgoal, Hgen.
  destruct (astar_visit (successors_of curr) rest explored). exact Hrun.
Qed.

(** ** The searches from an initial state *)

Lemma initial_good init : initial_state init -> good init.
Proof.
  intros (Hok & Hm & Hd & _). split; [exact Hok|]. split; [lia|].
  rewrite manhattan_ok in Hm by apply Hok. injection Hm as <-.
  apply heuristic_nonneg.
Qed.

Lemma dfs_terminates init :
  board_ok (board init) ->
  exists r, dfs (2 * length all_grids + 2) init = Some (Ok r).
Proof.
  intros Hok. unfold dfs. apply dfs_loop_terminates.
  - apply Forall_cons. split; [exact Hok|constructor].
  - constructor.
  - intros g Hg. inversion Hg.
  - simpl. lia.
Qed.

Lemma astar_terminates init :
  good init -> exists fuel r, astar fuel init = Some (Ok r).
Proof.
  intros Hgood. unfold astar.
  eapply astar_loop_terminates; try reflexivity.
  - apply Forall_cons. split; [exact Hgood|constructor].
  - intros k s Hl. apply lookup_singleton_Some in Hl as [<- <-].
    apply board_ok_key, Hgood.
Qed.

Lemma searches_terminate_aux init :
  initial_state init ->
  (exists r, dfs (2 * length all_grids + 2) init = Some (Ok r)) /\
  (exists fuel r, astar fuel init = Some (Ok r)).
Proof.
  intros Hinit. split.
  - apply dfs_terminates, Hinit.
  - apply astar_terminates, initial_good, Hinit.
Qed.

(** C9.  From an initial state over a board of the data model both searches
    terminate without raising: [dfs] within [2 * length all_grids + 2]
    iterations of its loop, each grid being recorded at most once, and
    [astar] because every push adds a board to [explored] or lowers the f
    recorded for its board, which is never negative. *)
Theorem searches_terminate (init : State) :
  initial_state init ->
  (exists r, dfs (2 * length all_grids + 2) init = Some (Ok r)) /\
  (exists fuel r, astar fuel init = Some (Ok r)).
Proof. apply searches_terminate_aux. Qed.

Lemma near_initial_state : initial_state near_initial.
Proof.
  split; [exact near_board_ok|]. repeat split.
Qed.

Lemma searches_terminate_witness :
  (exists r, dfs (2 * length all_grids + 2) near_initial = Some (Ok r)) /\
  (exists fuel r, astar fuel near_initial = Some (Ok r)).
Proof.
  apply (searches_terminate near_initial).
  split; [|repeat split].
  split; [apply pieces_okb_spec; vm_compute; reflexivity|reflexivity].
Defined.

Lemma packed_stuck s :
  descends packed_initial s -> goal_test s <> Ok true.
Proof.
  intros Hd. assert (s = packed_initial) as ->.
  { induction Hd as [|p successors s _ -> Hg Hs]; [reflexivity|].
    assert (generate_successors packed_initial = Ok []) as Hnone
      by (vm_compute; reflexivity).
    rewrite Hnone in Hg. injection Hg as <-. inversion Hs. }
  vm_compute. discriminate.
Qed.

(** ** When no goal state can be reached *)

(** C8.  If no state that comes up from an initial state satisfies the goal
    test, [dfs] and [astar] both run their frontier empty and return [None]
    without raising; for [None] the reconstructed path is empty, nothing is
    written and the printed count is 0. *)
Theorem no_solution (init : State) :
  initial_state init ->
  (forall s, descends init s -> goal_test s <> Ok true) ->
  (exists fuel, dfs fuel init = Some (Ok None)) /\
  (exists fuel, astar fuel init = Some (Ok None)) /\
  collect_path None = [] /\
  get_solution None = (EmptyString, 0).
Proof.
  intros Hinit Hnone.
  destruct (searches_terminate_aux init Hinit) as [[r1 H1] (fuel & r2 & H2)].
  split; [|split; [|split; reflexivity]].
  - exists (2 * length all_grids + 2)%nat. destruct r1 as [t|]; [|exact H1].
    exfalso. unfold dfs in H1.
    apply (dfs_loop_sound _ (descends_inherited init)) in H1 as [Hd Hg];
      [|repeat constructor].
    exact (Hnone t Hd Hg).
  - exists fuel. destruct r2 as [t|]; [|exact H2].
    exfalso. unfold astar in H2.
    apply (astar_loop_sound _ (descends_inherited init)) in H2 as [Hd Hg];
      [|repeat constructor].
    exact (Hnone t Hd Hg).
Qed.

Lemma no_solution_witness :
  (exists fuel, dfs fuel packed_initial = Some (Ok None)) /\
  (exists fuel, astar fuel packed_initial = Some (Ok None)) /\
  collect_path None = [] /\
  get_solution None = (EmptyString, 0).
Proof.
  apply (no_solution packed_initial).
  - split; [|repeat split].
    split; [apply pieces_okb_spec; vm_compute; reflexivity|reflexivity].
  - exact packed_stuck.
Defined.

(** ** [heapq]: the heap order

    For items compared by an integer weight, as [State.__lt__] compares
    [f]: every item weighs at least its parent, at index [(i - 1) / 2]. *)

Lemma parent_index (i p : nat) :
  (0 < i)%nat ->
  ((i - 1) / 2 = p)%nat <-> (i = 2 * p + 1 \/ i = 2 * p + 2)%nat.
Proof.
  intros Hi. split.
  - intros <-. pose proof (Nat.div_mod_eq (i - 1) 2) as H.
    pose proof (Nat.mod_upper_bound (i - 1) 2 ltac:(lia)). lia.
  - intros [-> | ->].
    + replace (2 * p + 1 - 1)%nat with (p * 2)%nat by lia.
      apply Nat.div_mul. lia.
    + replace (2 * p + 2 - 1)%nat with (1 + p * 2)%nat by lia.
      rewrite Nat.div_add by lia. reflexivity.
Qed.

Lemma parent_below (i : nat) : (0 < i)%nat -> ((i - 1) / 2 < i)%nat.
Proof.
  intros Hi. destruct (proj1 (parent_index i _ Hi) eq_refl); lia.
Qed.

Section HeapOrder.
Context {A : Type} (w : A -> Z).

Lemma place_ordered heap pos item :
  ordered_but w heap pos -> (pos < length heap)%nat ->
  (forall y, (0 < pos)%nat -> heap !! ((pos - 1) / 2)%nat = Some y ->
             w y <= w item) ->
  below_children w heap pos item ->
  heap_ordered w (<[pos:=item]> heap).
Proof.
  intros [Ha Hc] Hpos Hparent Hchildren i x y Hi Hx Hy.
  destruct (decide (i = pos)) as [->|Hne].
  - rewrite list_lookup_insert_eq in Hx by exact Hpos. injection Hx as <-.
    rewrite list_lookup_insert_ne in Hy by (pose proof (parent_below pos Hi); lia).
    auto.
  - rewrite list_lookup_insert_ne in Hx by auto.
    destruct (decide (((i - 1) / 2)%nat = pos)) as [He|Hnp].
    + rewrite He, list_lookup_insert_eq in Hy by exact Hpos.
      injection Hy as <-. eapply Hchildren; eauto.
    + rewrite list_lookup_insert_ne in Hy by auto. eapply Ha; eauto.
Qed.

Lemma siftdown_loop_ordered item n : forall heap pos,
  (pos <= n)%nat -> (pos < length heap)%nat ->
  ordered_but w heap pos -> below_children w heap pos item ->
  heap_ordered w (siftdown_loop (by_weight w) n heap item 0 pos).
Proof.
  induction n as [|n IH]; intros heap pos Hn Hpos Hob Hch; cbn [siftdown_loop].
  - apply place_ordered; auto. intros y Hp. lia.
  - destruct (Nat.ltb_spec 0 pos) as [Hp|Hp];
      [|apply place_ordered; auto; intros y Hp'; lia].
    pose proof (parent_below pos Hp) as Hlt.
    destruct (heap !! ((pos - 1) / 2)%nat) as [parent|] eqn:Hparent;
      [|apply place_ordered; auto; intros y _ Hy; rewrite Hparent in Hy;
        discriminate].
    unfold by_weight at 1. destruct (Z.ltb_spec (w item) (w parent)) as [Hw|Hw];
      [|apply place_ordered; auto; intros y _ Hy; rewrite Hparent in Hy;
        injection Hy as <-; exact Hw].
    destruct Hob as [Ha Hc].
    assert (forall c x, (0 < c)%nat -> ((c - 1) / 2)%nat = ((pos - 1) / 2)%nat ->
              <[pos:=parent]> heap !! c = Some x -> w parent <= w x) as Hsib.
    { intros c x Hc0 Hcp Hx. destruct (decide (c = pos)) as [->|Hne].
      - rewrite list_lookup_insert_eq in Hx by exact Hpos.
        injection Hx as <-. lia.
      - rewrite list_lookup_insert_ne in Hx by auto.
        apply (Ha c x parent Hc0 Hne); [lia|exact Hx|].
        rewrite Hcp. exact Hparent. }
    apply IH.
    + lia.
    + rewrite length_insert. lia.
    + split.
      * intros i x y Hi Hne Hnp Hx Hy.
        destruct (decide (i = pos)) as [->|Hip]; [contradiction|].
        rewrite list_lookup_insert_ne in Hx by auto.
        destruct (decide (((i - 1) / 2)%nat = pos)) as [He|Hnpos].
        -- rewrite He, list_lookup_insert_eq in Hy by exact Hpos.
           injection Hy as <-. apply (Hc i x parent Hi He Hp Hx Hparent).
        -- rewrite list_lookup_insert_ne in Hy by auto. eapply Ha; eauto.
      * intros c x y Hc0 Hcp Hp0 Hx Hy.
        rewrite list_lookup_insert_ne in Hy
          by (pose proof (parent_below _ Hp0); lia).
        assert (w y <= w parent) as Hg.
        { apply (Ha ((pos - 1) / 2)%nat parent y Hp0); auto; try lia.
          pose proof (parent_below _ Hp0). lia. }
        pose proof (Hsib c x Hc0 Hcp Hx). lia.
    + intros c x Hc0 Hcp Hx. pose proof (Hsib c x Hc0 Hcp Hx). lia.
Qed.

Lemma ordered_but_insert heap pos item :
  ordered_but w heap pos -> ordered_but w (<[pos:=item]> heap) pos.
Proof.
  intros [Ha Hc]. split.
  - intros i x y Hi Hne Hnp Hx Hy.
    rewrite list_lookup_insert_ne in Hx by auto.
    rewrite list_lookup_insert_ne in Hy by auto.
    exact (Ha i x y Hi Hne Hnp Hx Hy).
  - intros c x y Hc0 Hcp Hp0 Hx Hy.
    pose proof (parent_below _ Hp0). pose proof (parent_below _ Hc0).
    rewrite list_lookup_insert_ne in Hx by lia.
    rewrite list_lookup_insert_ne in Hy by lia.
    exact (Hc c x y Hc0 Hcp Hp0 Hx Hy).
Qed.

Lemma siftup_loop_ordered n : forall heap pos heap' leaf,
  (length heap <= n + pos)%nat -> (pos < length heap)%nat ->
  ordered_but w heap pos ->
  siftup_loop (by_weight w) n heap (length heap) pos = (heap', leaf) ->
  ordered_but w heap' leaf /\ length heap' = length heap /\
  (leaf < length heap')%nat /\ (length heap' <= 2 * leaf + 1)%nat.
Proof.
  induction n as [|n IH]; intros heap pos heap' leaf Hn Hpos Hob H; [lia|].
  cbn [siftup_loop] in H.
  destruct (Nat.ltb_spec (2 * pos + 1) (length heap)) as [Hl|Hl];
    [|injection H as <- <-; auto with lia].
  destruct (lookup_lt_is_Some_2 heap (2 * pos + 1)%nat Hl) as [l El].
  rewrite El in H.
  assert (exists cp c,
            heap !! cp = Some c /\ (cp = 2 * pos + 1 \/ cp = 2 * pos + 2)%nat /\
            (forall i x, (0 < i)%nat -> ((i - 1) / 2)%nat = pos ->
                         heap !! i = Some x -> w c <= w x) /\
            siftup_loop (by_weight w) n (<[pos:=c]> heap) (length heap) cp
            = (heap', leaf)) as (cp & c & Ec & Hcp & Hmin & Hrec).
  { assert (forall i x, (0 < i)%nat -> ((i - 1) / 2)%nat = pos ->
              heap !! i = Some x ->
              (i = 2 * pos + 1 /\ x = l)%nat \/
              (i = 2 * pos + 1 + 1)%nat) as Hkids.
    { intros i x Hi Hp Hx. apply (parent_index i pos Hi) in Hp.
      destruct Hp as [->| ->]; [left|right; lia].
      rewrite El in Hx. injection Hx as ->. auto. }
    destruct (heap !! (2 * pos + 1 + 1)%nat) as [r|] eqn:Er.
    - destruct (Nat.ltb_spec (2 * pos + 1 + 1) (length heap)) as [Hr|Hr];
        [|apply lookup_lt_Some in Er; lia].
      unfold by_weight in H.
      destruct (Z.ltb_spec (w l) (w r)) as [Hw|Hw]; cbn [andb negb] in H.
      + rewrite El in H. exists (2 * pos + 1)%nat, l.
        split; [exact El|]. split; [lia|]. split; [|exact H].
        intros i x Hi Hp Hx.
        destruct (Hkids i x Hi Hp Hx) as [[-> ->]| ->]; [lia|].
        rewrite Er in Hx. injection Hx as <-. lia.
      + rewrite Er in H. exists (2 * pos + 1 + 1)%nat, r.
        split; [exact Er|]. split; [lia|]. split; [|exact H].
        intros i x Hi Hp Hx.
        destruct (Hkids i x Hi Hp Hx) as [[-> ->]| ->]; [lia|].
        rewrite Er in Hx. injection Hx as <-. lia.
    - rewrite El in H. exists (2 * pos + 1)%nat, l.
      split; [exact El|]. split; [lia|]. split; [|exact H].
      intros i x Hi Hp Hx.
      destruct (Hkids i x Hi Hp Hx) as [[-> ->]| ->]; [lia|].
      rewrite Er in Hx. discriminate. }
  pose proof (lookup_lt_Some _ _ _ Ec) as Hcplt.
  destruct Hob as [Ha Hc].
  replace (length heap) with (length (<[pos:=c]> heap)) in Hrec
    by apply length_insert.
  apply IH in Hrec.
  - rewrite length_insert in Hrec. exact Hrec.
  - rewrite length_insert. lia.
  - rewrite length_insert. exact Hcplt.
  - assert (((cp - 1) / 2)%nat = pos) as Hpar by (apply parent_index; lia).
    split.
    + intros i x y Hi Hne Hnp Hx Hy.
      destruct (decide (i = pos)) as [->|Hip].
      * rewrite list_lookup_insert_eq in Hx by exact Hpos. injection Hx as <-.
        rewrite list_lookup_insert_ne in Hy
          by (pose proof (parent_below _ Hi); lia).
        apply (Hc cp c y); auto; lia.
      * rewrite list_lookup_insert_ne in Hx by auto.
        destruct (decide (((i - 1) / 2)%nat = pos)) as [He|Hnpos].
        -- rewrite He, list_lookup_insert_eq in Hy by exact Hpos.
           injection Hy as <-. eapply Hmin; eauto.
        -- rewrite list_lookup_insert_ne in Hy by auto. eapply Ha; eauto.
    + intros d x y Hd Hdp _ Hx Hy.
      rewrite Hpar, list_lookup_insert_eq in Hy by exact Hpos.
      injection Hy as <-.
      assert (d <> pos) as Hdn.
      { apply parent_index in Hdp; [|exact Hd]. lia. }
      rewrite list_lookup_insert_ne in Hx by auto.
      apply (Ha d x c Hd Hdn); [lia|exact Hx|]. rewrite Hdp. exact Ec.
Qed.
End HeapOrder.

Section HeapOrderOps.
Context {A : Type} (w : A -> Z).

Lemma heap_ordered_nil : heap_ordered w [].
Proof. intros i x y _ H. inversion H. Qed.

Lemma heap_ordered_singleton (a : A) : heap_ordered w [a].
Proof.
  intros i x y Hi H. destruct i as [|i]; [lia|]. inversion H.
Qed.

Lemma heappush_ordered heap item :
  heap_ordered w heap -> heap_ordered w (heappush (by_weight w) heap item).
Proof.
  intros Hord. unfold heappush, siftdown.
  rewrite length_app. simpl.
  replace (length heap + 1 - 1)%nat with (length heap) by lia.
  replace (length heap) with (length heap + 0)%nat at 1 by lia.
  rewrite lookup_app_r by lia.
  replace (length heap + 0 - length heap)%nat with 0%nat by lia. simpl.
  assert (forall c, (0 < c)%nat -> ((c - 1) / 2)%nat = length heap ->
            (heap ++ [item]) !! c = None) as Hnone.
  { intros c Hc Hp. apply lookup_ge_None. rewrite length_app. simpl.
    apply parent_index in Hp; lia. }
  apply siftdown_loop_ordered.
  - lia.
  - rewrite length_app. simpl. lia.
  - split.
    + intros i x y Hi Hne Hnp Hx Hy.
      pose proof (lookup_lt_Some _ _ _ Hx) as Hlt.
      rewrite length_app in Hlt. simpl in Hlt.
      pose proof (parent_below i Hi).
      rewrite lookup_app_l in Hx, Hy by lia. eapply Hord; eauto.
    + intros c x y Hc Hp _ Hx _. rewrite Hnone in Hx by assumption.
      discriminate.
  - intros c x Hc Hp Hx. rewrite Hnone in Hx by assumption. discriminate.
Qed.

Lemma siftup_root_ordered first rest lastelt :
  heap_ordered w (first :: rest ++ [lastelt]) ->
  heap_ordered w (siftup (by_weight w) (lastelt :: rest) 0).
Proof.
  intros Hord. unfold siftup. cbn [lookup list_lookup].
  destruct (siftup_loop (by_weight w) (length (lastelt :: rest))
              (lastelt :: rest) (length (lastelt :: rest)) 0)
    as [heap' leaf] eqn:Hloop.
  apply siftup_loop_ordered in Hloop as (Hob & Hlen & Hleaf & Hkids).
  - unfold siftdown. rewrite list_lookup_insert_eq by exact Hleaf.
    apply siftdown_loop_ordered.
    + lia.
    + rewrite length_insert. exact Hleaf.
    + apply ordered_but_insert, Hob.
    + intros c x Hc Hp Hx. apply lookup_lt_Some in Hx.
      rewrite length_insert in Hx. apply parent_index in Hp; lia.
  - lia.
  - simpl. lia.
  - split; [|intros; lia].
    intros i x y Hi _ Hnp Hx Hy. pose proof (parent_below i Hi).
    destruct i as [|i]; [lia|].
    destruct ((S i - 1) / 2)%nat as [|p] eqn:Hp; [lia|].
    simpl in Hx, Hy. apply (Hord (S i) x y Hi).
    + simpl. apply lookup_app_l_Some. exact Hx.
    + rewrite Hp. simpl. apply lookup_app_l_Some. exact Hy.
Qed.

Lemma heappop_ordered heap x heap' :
  heap_ordered w heap -> heappop (by_weight w) heap = Ok (x, heap') ->
  heap_ordered w heap' /\ head heap = Some x.
Proof.
  intros Hord. unfold heappop.
  destruct (last heap) as [lastelt|] eqn:Hlast; [|discriminate].
  apply last_Some in Hlast as [l ->]. rewrite removelast_last.
  destruct l as [|returnitem rest]; intros H; injection H as <- <-.
  - split; [apply heap_ordered_nil|reflexivity].
  - split; [|reflexivity]. eapply siftup_root_ordered, Hord.
Qed.

Lemma heap_root_least heap root :
  heap_ordered w heap -> head heap = Some root ->
  forall y, y ∈ heap -> w root <= w y.
Proof.
  intros Hord Hroot y Hy. apply list_elem_of_lookup in Hy as [i Hi].
  revert y Hi. induction i as [i IH] using (well_founded_induction lt_wf).
  intros y Hi. destruct (decide (i = 0)%nat) as [->|Hne].
  - rewrite <- head_lookup, Hroot in Hi. injection Hi as <-. lia.
  - assert (0 < i)%nat as Hpos by lia. pose proof (parent_below i Hpos) as Hlt.
    destruct (lookup_lt_is_Some_2 heap ((i - 1) / 2)%nat) as [p Hp].
    { apply lookup_lt_Some in Hi. lia. }
    pose proof (IH _ Hlt p Hp). pose proof (Hord i y p Hpos Hi Hp). lia.
Qed.
End HeapOrderOps.

(** ** Boards with the same grid *)

Lemma string_of_list_ascii_inj l1 l2 :
  string_of_list_ascii l1 = string_of_list_ascii l2 -> l1 = l2.
Proof.
  intros H. rewrite <- (list_ascii_of_string_of_list_ascii l1),
    <- (list_ascii_of_string_of_list_ascii l2), H. reflexivity.
Qed.

Lemma grid_str_fun_inj φ ψ :
  grid_str (grid_of_fun φ) = grid_str (grid_of_fun ψ) ->
  grid_of_fun φ = grid_of_fun ψ.
Proof.
  unfold grid_str. intros H. apply string_of_list_ascii_inj in H.
  unfold grid_of_fun in *. simpl in *. injection H. intros. congruence.
Qed.

Lemma board_ok_key_grid b1 b2 :
  board_ok b1 -> board_ok b2 -> Board_str b1 = Board_str b2 ->
  grid b1 = grid b2.
Proof.
  intros H1 H2. unfold Board_str.
  rewrite (board_ok_grid _ H1), (board_ok_grid _ H2). apply grid_str_fun_inj.
Qed.

(** Two boards of the data model with the same grid show the same cells. *)
Lemma same_grid_paint b1 b2 x y :
  board_ok b1 -> board_ok b2 -> grid b1 = grid b2 ->
  0 <= x <= 3 -> 0 <= y <= 4 ->
  paint (pieces b1) x y = paint (pieces b2) x y.
Proof.
  intros H1 H2 Hg. rewrite (board_ok_grid _ H1), (board_ok_grid _ H2) in Hg.
  apply grid_of_fun_inj, Hg.
Qed.

Lemma goal_cells g :
  is_goal g = true -> cells g = footprint Goal (coord_x g) (coord_y g).
Proof. intros H. unfold cells, kind_of. rewrite H. reflexivity. Qed.

Lemma find_goal_unique ps i g :
  pieces_ok ps -> ps !! i = Some g -> is_goal g = true ->
  find_goal ps = Some (coord_x g, coord_y g).
Proof.
  intros Hok Hi Hg. destruct (find_goal_ok _ Hok) as [[gx gy] Hf].
  rewrite Hf. apply find_goal_lookup in Hf as (j & g' & Hj & Hg' & <- & <-).
  assert (j = i) as ->.
  { exact (filter_one_unique (fun p => is_goal p = true) ps j i g' g
             (ok_goal _ Hok) Hj Hi Hg' Hg). }
  rewrite Hi in Hj. injection Hj as ->. reflexivity.
Qed.

Lemma same_grid_goal b1 b2 :
  board_ok b1 -> board_ok b2 -> grid b1 = grid b2 ->
  find_goal (pieces b1) = find_goal (pieces b2).
Proof.
  intros H1 H2 Hg.
  destruct (find_goal_ok _ (proj1 H1)) as [[x1 y1] Hf1].
  destruct (find_goal_ok _ (proj1 H2)) as [[x2 y2] Hf2].
  rewrite Hf1, Hf2.
  apply find_goal_lookup in Hf1 as (i1 & g1 & Hi1 & Hg1 & <- & <-).
  apply find_goal_lookup in Hf2 as (i2 & g2 & Hi2 & Hg2 & <- & <-).
  assert (bounded g1) as Hb1
      by (eapply Forall_lookup_1; [apply (ok_bounds _ (proj1 H1))|exact Hi1]).
  assert (bounded g2) as Hb2
      by (eapply Forall_lookup_1; [apply (ok_bounds _ (proj1 H2))|exact Hi2]).
  unfold bounded in Hb1, Hb2. rewrite goal_cells in Hb1, Hb2 by assumption.
  simpl in Hb1, Hb2. rewrite !Forall_cons in Hb1, Hb2.
  unfold in_board in Hb1, Hb2. simpl in Hb1, Hb2.
  assert ((coord_x g1, coord_y g1) ∈ cells g2) as Hc1.
  { apply (paint_goal _ i2 g2 _ _ (proj1 H2) Hi2 Hg2).
    rewrite <- (same_grid_paint b1 b2) by (assumption || lia).
    apply (paint_goal _ i1 g1 _ _ (proj1 H1) Hi1 Hg1).
    rewrite goal_cells by assumption. simpl. apply elem_of_cons. auto. }
  assert ((coord_x g2, coord_y g2) ∈ cells g1) as Hc2.
  { apply (paint_goal _ i1 g1 _ _ (proj1 H1) Hi1 Hg1).
    rewrite (same_grid_paint b1 b2) by (assumption || lia).
    apply (paint_goal _ i2 g2 _ _ (proj1 H2) Hi2 Hg2).
    rewrite goal_cells by assumption. simpl. apply elem_of_cons. auto. }
  rewrite goal_cells in Hc1, Hc2 by assumption. simpl in Hc1, Hc2.
  rewrite !elem_of_cons, elem_of_nil in Hc1, Hc2.
  f_equal. f_equal;
    repeat match goal with
           | H : _ \/ _ |- _ => destruct H
           | H : (_, _) = (_, _) |- _ => injection H as ? ?
           | H : False |- _ => destruct H
           end; lia.
Qed.

Lemma same_grid_heuristic b1 b2 :
  board_ok b1 -> board_ok b2 -> grid b1 = grid b2 ->
  heuristic (pieces b1) = heuristic (pieces b2).
Proof.
  intros H1 H2 Hg. unfold heuristic.
  rewrite (same_grid_goal b1 b2 H1 H2 Hg). reflexivity.
Qed.

Lemma same_grid_goal_test s1 s2 :
  grid (board s1) = grid (board s2) -> goal_test s1 = goal_test s2.
Proof. intros H. unfold goal_test. rewrite H. reflexivity. Qed.

(** ** Boards with the same grid have the same moves *)

Lemma symbol_at_anchor p k :
  kind_of p = Some k ->
  symbol p (coord_x p) (coord_y p) = Some (anchor_symbol k).
Proof.
  unfold symbol. intros ->. destruct k; simpl; rewrite !Z.eqb_refl; reflexivity.
Qed.

Lemma symbol_is_anchor q x y k :
  k <> Goal -> symbol q x y = Some (anchor_symbol k) ->
  kind_of q = Some k /\ coord_x q = x /\ coord_y q = y.
Proof.
  unfold symbol. intros Hk.
  destruct (kind_of q) as [[]|], k; simpl; zbool; simpl; intros H;
    try discriminate; try contradiction; auto.
Qed.

Lemma symbol_ext p q x y :
  kind_of p = kind_of q -> coord_x p = coord_x q -> coord_y p = coord_y q ->
  symbol p x y = symbol q x y.
Proof. unfold symbol. intros -> -> ->. reflexivity. Qed.

Lemma cells_ext p q :
  kind_of p = kind_of q -> coord_x p = coord_x q -> coord_y p = coord_y q ->
  cells p = cells q.
Proof. unfold cells. intros -> -> ->. reflexivity. Qed.

Lemma free_ext φ ψ x y : agree φ ψ -> free φ x y = free ψ x y.
Proof.
  intros H. unfold free.
  destruct (Z.leb_spec 0 x), (Z.leb_spec x 3), (Z.leb_spec 0 y),
    (Z.leb_spec y 4); simpl; try reflexivity.
  rewrite H by lia. reflexivity.
Qed.

Lemma legal_ext φ ψ p q d :
  agree φ ψ ->
  kind_of p = kind_of q -> coord_x p = coord_x q -> coord_y p = coord_y q ->
  legal φ p d = legal ψ q d.
Proof.
  intros H Hk Hx Hy. unfold legal. rewrite Hk, Hx, Hy.
  destruct (kind_of q) as [k|]; [|reflexivity].
  induction (destination k (coord_x q) (coord_y q) d) as [|c l IH];
    [reflexivity|].
  simpl. rewrite IH, (free_ext φ ψ _ _ H). reflexivity.
Qed.

Lemma emitted_ext φ ψ p q :
  agree φ ψ ->
  kind_of p = kind_of q -> coord_x p = coord_x q -> coord_y p = coord_y q ->
  emitted φ p = emitted ψ q.
Proof.
  intros H Hk Hx Hy. unfold emitted.
  rewrite !(legal_ext φ ψ p q) by assumption. rewrite Hk. reflexivity.
Qed.

(** The piece of the other board at the same place. *)
Lemma piece_match ps1 ps2 i p :
  pieces_ok ps1 -> pieces_ok ps2 -> agree (paint ps1) (paint ps2) ->
  ps1 !! i = Some p ->
  exists j q, ps2 !! j = Some q /\ kind_of q = kind_of p /\
              coord_x q = coord_x p /\ coord_y q = coord_y p.
Proof.
  intros H1 H2 Hag Hi.
  assert (piece_typed p) as Hty
      by (eapply Forall_lookup_1; [apply (ok_typed _ H1)|exact Hi]).
  assert (bounded p) as Hb
      by (eapply Forall_lookup_1; [apply (ok_bounds _ H1)|exact Hi]).
  destruct (kind_of p) as [k|] eqn:Hk;
    [|unfold piece_typed in Hty; rewrite Hk in Hty; destruct Hty].
  pose proof (symbol_at_anchor p k Hk) as Hs.
  assert (in_board (coord_x p, coord_y p)) as Hin.
  { unfold bounded in Hb. rewrite Forall_forall in Hb. apply Hb.
    apply symbol_cells. eauto. }
  pose proof (paint_covered ps1 i p _ _ _ (ok_disjoint _ H1) Hi Hs) as Hp1.
  rewrite Hag in Hp1 by apply Hin.
  destruct (decide (Exists (fun q => (coord_x p, coord_y p) ∈ cells q) ps2))
    as [He|He].
  - apply Exists_exists in He as (q & Hq & Hc).
    apply list_elem_of_lookup in Hq as [j Hj].
    pose proof Hc as Hsq. apply symbol_cells in Hsq as [c Hsq].
    rewrite (paint_covered ps2 j q _ _ c (ok_disjoint _ H2) Hj Hsq) in Hp1.
    subst c. exists j, q. split; [exact Hj|].
    assert (k = Goal \/ k <> Goal) as [->|Hng]
        by (destruct k; auto; right; discriminate);
      [|apply symbol_is_anchor in Hsq; tauto].
    assert (is_goal p = true) as Hgp.
    { revert Hk. unfold kind_of. destruct (is_goal p); [reflexivity|].
      destruct (is_single p); [discriminate|].
      destruct (orientation p) as [o|]; [|discriminate].
      destruct (String.eqb o "h"); [discriminate|].
      destruct (String.eqb o "v"); discriminate. }
    pose proof (symbol_goal _ _ _ Hsq) as Hgq.
    assert (kind_of q = Some Goal) as Hkq by (unfold kind_of; rewrite Hgq; reflexivity).
    split; [exact Hkq|].
    assert ((coord_x q, coord_y q) ∈ cells p) as Hc2.
    { assert (bounded q) as Hbq
          by (eapply Forall_lookup_1; [apply (ok_bounds _ H2)|exact Hj]).
      assert (in_board (coord_x q, coord_y q)) as Hinq.
      { unfold bounded in Hbq. rewrite Forall_forall in Hbq. apply Hbq.
        apply symbol_cells. rewrite (symbol_at_anchor q Goal Hkq). eauto. }
      apply (paint_goal ps1 i p _ _ H1 Hi Hgp). rewrite Hag by apply Hinq.
      apply (paint_goal ps2 j q _ _ H2 Hj Hgq).
      apply symbol_cells. rewrite (symbol_at_anchor q Goal Hkq). eauto. }
    rewrite goal_cells in Hc, Hc2 by assumption. simpl in Hc, Hc2.
    rewrite !elem_of_cons, elem_of_nil in Hc, Hc2.
    split;
      repeat match goal with
             | H : _ \/ _ |- _ => destruct H
             | H : (_, _) = (_, _) |- _ => injection H as ? ?
             | H : False |- _ => destruct H
             end; lia.
  - exfalso. assert (paint ps2 (coord_x p) (coord_y p) = "."%char) as Hblank.
    { apply paint_blank. intros q Hq Hc. apply He, Exists_exists. eauto. }
    rewrite Hblank in Hp1. destruct k; discriminate.
Qed.

(** The cells of a board after a legal move. *)
Lemma paint_move ps idx p d x y :
  pieces_ok ps -> ps !! idx = Some p -> legal (paint ps) p d = true ->
  paint (shift_piece p d :: delete idx ps) x y =
  match symbol (shift_piece p d) x y with
  | Some c => c
  | None => if bool_decide ((x, y) ∈ cells p) then "."%char else paint ps x y
  end.
Proof.
  intros Hok Hi Hl. pose proof (move_ok _ _ _ _ Hok Hi Hl) as Hok'.
  destruct (symbol (shift_piece p d) x y) as [c|] eqn:Hs.
  { apply (paint_covered _ 0%nat (shift_piece p d));
      [apply (ok_disjoint _ Hok')|reflexivity|exact Hs]. }
  apply symbol_None in Hs.
  destruct (decide (Exists (fun r => (x, y) ∈ cells r) (delete idx ps)))
    as [He|He].
  - apply Exists_exists in He as (r & Hr & Hc).
    apply list_elem_of_lookup in Hr as [j Hj].
    pose proof Hc as Hsr. apply symbol_cells in Hsr as [c Hsr].
    rewrite (paint_covered _ (S j) r x y c (ok_disjoint _ Hok') Hj Hsr).
    apply lookup_delete_Some in Hj as (j' & Hne & Hj' & _).
    rewrite (paint_covered ps j' r x y c (ok_disjoint _ Hok) Hj' Hsr).
    rewrite bool_decide_eq_false_2; [reflexivity|].
    intros Hcp. exact (ok_disjoint _ Hok idx j' p r ltac:(auto) Hi Hj' _ Hcp Hc).
  - assert (paint (shift_piece p d :: delete idx ps) x y = "."%char) as ->.
    { apply paint_blank. intros r Hr Hc.
      apply elem_of_cons in Hr as [->|Hr]; [contradiction|].
      apply He, Exists_exists. eauto. }
    destruct (bool_decide ((x, y) ∈ cells p)) eqn:Hcp; [reflexivity|].
    apply bool_decide_eq_false in Hcp. symmetry. apply paint_blank.
    intros r Hr Hc. apply list_elem_of_lookup in Hr as [j Hj].
    destruct (decide (j = idx)) as [->|Hne].
    + rewrite Hi in Hj. injection Hj as <-. contradiction.
    + apply He, Exists_exists. exists r. split; [|exact Hc].
      apply list_elem_of_lookup.
      destruct (decide (j < idx)%nat).
      * exists j. rewrite list_lookup_delete_lt by assumption. exact Hj.
      * exists (j - 1)%nat. rewrite list_lookup_delete_ge by lia.
        replace (S (j - 1)) with j by lia. exact Hj.
Qed.

Lemma successors_simulate s1 s2 c1 :
  board_ok (board s1) -> board_ok (board s2) ->
  grid (board s1) = grid (board s2) -> c1 ∈ successors_of s1 ->
  exists c2, c2 ∈ successors_of s2 /\ grid (board c2) = grid (board c1).
Proof.
  intros H1 H2 Hg Hc1.
  assert (agree (paint (pieces (board s1))) (paint (pieces (board s2))))
    as Hag by (intros x y Hx Hy; apply same_grid_paint; assumption).
  apply elem_of_successors_of in Hc1 as (i & p & d & Hi & Hd & ->).
  destruct (piece_match _ _ i p (proj1 H1) (proj1 H2) Hag Hi)
    as (j & q & Hj & Hk & Hx & Hy).
  assert (d ∈ emitted (paint (pieces (board s2))) q) as Hd2.
  { rewrite <- (emitted_ext _ _ p q Hag); auto. }
  exists (child_state s2 j q d). split.
  { apply elem_of_successors_of. eauto 10. }
  unfold child_state. cbn [board grid]. apply grid_of_fun_ext.
  intros x y Hxr Hyr.
  rewrite (paint_move _ _ _ _ _ _ (proj1 H2) Hj (emitted_legal _ _ _ Hd2)).
  rewrite (paint_move _ _ _ _ _ _ (proj1 H1) Hi (emitted_legal _ _ _ Hd)).
  rewrite (symbol_ext (shift_piece q d) (shift_piece p d))
    by (rewrite ?kind_of_shift; destruct d; simpl; congruence).
  rewrite (cells_ext q p) by auto.
  rewrite Hag by assumption. reflexivity.
Qed.

(** ** The heuristic along a path *)

Lemma find_goal_delete ps : forall idx p,
  ps !! idx = Some p -> is_goal p = false ->
  find_goal (delete idx ps) = find_goal ps.
Proof.
  induction ps as [|a ps IH]; intros idx p Hi Hg; [inversion Hi|].
  destruct idx as [|idx]; simpl in *.
  - injection Hi as ->. rewrite Hg. reflexivity.
  - rewrite (IH idx p Hi Hg). reflexivity.
Qed.

Lemma successor_heuristic s c :
  board_ok (board s) -> c ∈ successors_of s ->
  heuristic (pieces (board s)) <= heuristic (pieces (board c)) + 1.
Proof.
  intros [Hok _] Hc.
  apply elem_of_successors_of in Hc as (idx & p & d & Hi & _ & ->).
  unfold child_state, heuristic. cbn [board pieces find_goal].
  replace (is_goal (shift_piece p d)) with (is_goal p) by (destruct d; reflexivity).
  destruct (is_goal p) eqn:Hg.
  - rewrite (find_goal_unique _ idx p Hok Hi Hg). destruct d; simpl; lia.
  - rewrite (find_goal_delete _ idx p Hi Hg).
    destruct (find_goal (pieces (board s))) as [[gx gy]|]; lia.
Qed.

Lemma reach_snoc a p c k :
  reach a p k -> board_ok (board p) -> c ∈ successors_of p ->
  reach a c (S k).
Proof.
  intros Hr Hok Hc. induction Hr as [a|a c' g k Ha Hc' Hr IH].
  - econstructor; [exact Hok|exact Hc|constructor].
  - econstructor; [exact Ha|exact Hc'|]. apply IH; assumption.
Qed.

Lemma descends_successor p successors s :
  board_ok (board p) -> generate_successors p = Ok successors ->
  s ∈ successors -> s ∈ successors_of p.
Proof.
  intros Hok Hg Hs. rewrite generate_successors_ok in Hg by exact Hok.
  injection Hg as <-. exact Hs.
Qed.

Lemma descends_board_ok init s :
  board_ok (board init) -> descends init s -> board_ok (board s).
Proof.
  intros Hok Hd. induction Hd as [|p successors s _ IH Hg Hs]; [exact Hok|].
  eapply successors_board_ok; [exact IH|].
  eapply descends_successor; eauto.
Qed.

Lemma descends_reach init g :
  board_ok (board init) -> descends init g -> exists k, reach init g k.
Proof.
  intros Hok Hd. induction Hd as [|p successors s Hp [k IH] Hg Hs].
  - exists 0%nat. constructor.
  - exists (S k). pose proof (descends_board_ok init p Hok Hp) as Hokp.
    eapply reach_snoc; [exact IH|exact Hokp|].
    eapply descends_successor; eauto.
Qed.

Lemma successor_depth p c : c ∈ successors_of p -> depth c = depth p + 1.
Proof.
  intros Hc. apply elem_of_successors_of in Hc as (idx & q & d & _ & _ & ->).
  reflexivity.
Qed.

Lemma reach_depth a g k : reach a g k -> depth g = depth a + Z.of_nat k.
Proof.
  intros Hr. induction Hr as [a|a c g k _ Hc _ IH]; [lia|].
  rewrite IH, (successor_depth a c Hc). lia.
Qed.

Lemma goal_heuristic s :
  board_ok (board s) -> goal_test s = Ok true ->
  heuristic (pieces (board s)) = 0.
Proof.
  intros Hok Hg. destruct (find_goal_ok _ (proj1 Hok)) as [[gx gy] Hf].
  apply (goal_test_anchor s gx gy Hok Hf) in Hg. injection Hg as -> ->.
  unfold heuristic. rewrite Hf. reflexivity.
Qed.

(** The heuristic never exceeds the number of moves to a goal state. *)
Lemma reach_admissible a g k :
  reach a g k -> board_ok (board a) -> goal_test g = Ok true ->
  heuristic (pieces (board a)) <= Z.of_nat k.
Proof.
  intros Hr. induction Hr as [a|a c g k Ha Hc _ IH]; intros Hok Hg.
  - rewrite (goal_heuristic a Hok Hg). lia.
  - pose proof (successor_heuristic a c Ha Hc).
    pose proof (IH (successors_board_ok a c Ha Hc) Hg). lia.
Qed.

Lemma tidy_successors p :
  board_ok (board p) -> Forall tidy (successors_of p).
Proof.
  intros Hok. apply Forall_forall. intros s Hs.
  split; [eapply successors_board_ok; eauto|].
  apply elem_of_successors_of in Hs as (idx & q & d & _ & _ & ->).
  unfold child_state. simpl. lia.
Qed.

Lemma tidy_same_key s1 s2 :
  tidy s1 -> tidy s2 -> Board_str (board s1) = Board_str (board s2) ->
  f s1 - depth s1 = f s2 - depth s2.
Proof.
  intros [H1 F1] [H2 F2] Hk.
  pose proof (same_grid_heuristic _ _ H1 H2 (board_ok_key_grid _ _ H1 H2 Hk)).
  lia.
Qed.

(** ** The invariant of the A* search *)

Lemma astar_visit_spec successors : forall F0 E0 F1 E1,
  astar_visit successors F0 E0 = (F1, E1) -> heap_ordered f F0 ->
  heap_ordered f F1 /\
  (forall x, x ∈ F0 -> x ∈ F1) /\
  (forall k e, E1 !! k = Some e ->
     E0 !! k = Some e \/
     (e ∈ successors /\ e ∈ F1 /\ Board_str (board e) = k)) /\
  (forall k e0, E0 !! k = Some e0 ->
     exists e1, E1 !! k = Some e1 /\ f e1 <= f e0) /\
  (forall c, c ∈ successors ->
     exists e1, E1 !! Board_str (board c) = Some e1 /\ f e1 <= f c).
Proof.
  induction successors as [|s successors IH]; intros F0 E0 F1 E1 H Hheap.
  { injection H as <- <-. split; [exact Hheap|]. split; [auto|].
    split; [auto|]. split; [intros k e0 He; exists e0; split; [exact He|lia]|].
    intros c Hc. inversion Hc. }
  cbn [astar_visit] in H. cbn zeta in H.
  assert (forall old,
    (E0 !! Board_str (board s) = None \/
     (E0 !! Board_str (board s) = Some old /\ f s < f old)) ->
    astar_visit successors (heappush State_lt F0 s)
      (<[Board_str (board s):=s]> E0) = (F1, E1) ->
    heap_ordered f F1 /\
    (forall x, x ∈ F0 -> x ∈ F1) /\
    (forall k e, E1 !! k = Some e ->
       E0 !! k = Some e \/
       (e ∈ s :: successors /\ e ∈ F1 /\ Board_str (board e) = k)) /\
    (forall k e0, E0 !! k = Some e0 ->
       exists e1, E1 !! k = Some e1 /\ f e1 <= f e0) /\
    (forall c, c ∈ s :: successors ->
       exists e1, E1 !! Board_str (board c) = Some e1 /\ f e1 <= f c))
    as Hpush.
  { intros old Hcase Hv.
    apply IH in Hv as (V1 & V2 & V3 & V4 & V5);
      [|apply (heappush_ordered f), Hheap].
    assert (forall x, x ∈ s :: F0 -> x ∈ F1) as Hsub.
    { intros x Hx. apply V2.
      rewrite (heappush_perm State_lt F0 s). exact Hx. }
    split; [exact V1|].
    split; [intros x Hx; apply Hsub; right; exact Hx|].
    split; [|split].
    - intros k e He. destruct (V3 k e He) as [Hold|(Hin & HF & Hkey)].
      + destruct (decide (k = Board_str (board s))) as [->|Hne].
        * rewrite lookup_insert_eq in Hold. injection Hold as <-.
          right. split; [left|]. split; [apply Hsub; left|reflexivity].
        * rewrite lookup_insert_ne in Hold by auto. left. exact Hold.
      + right. split; [right; exact Hin|]. auto.
    - intros k e0 He0.
      destruct (decide (k = Board_str (board s))) as [->|Hne].
      + destruct (V4 (Board_str (board s)) s) as (e1 & He1 & Hle);
          [apply lookup_insert_eq|].
        exists e1. split; [exact He1|].
        destruct Hcase as [Hn|[Ho Hlt]]; rewrite He0 in *; [discriminate|].
        injection Ho as <-. lia.
      + apply V4. rewrite lookup_insert_ne by auto. exact He0.
    - intros c Hc. apply elem_of_cons in Hc as [->|Hc]; [|auto].
      apply V4, lookup_insert_eq. }
  destruct (E0 !! Board_str (board s)) as [old|] eqn:Ho.
  - unfold State_lt in H at 1.
    destruct (Z.ltb_spec (f s) (f old)) as [Hlt|Hge].
    + apply (Hpush old); auto.
    + apply IH in H as (V1 & V2 & V3 & V4 & V5); [|exact Hheap].
      split; [exact V1|]. split; [exact V2|]. split; [|split; [exact V4|]].
      * intros k e He. destruct (V3 k e He) as [Hold|(Hin & HF & Hkey)];
          [auto|]. right. split; [right; exact Hin|]. auto.
      * intros c Hc. apply elem_of_cons in Hc as [->|Hc]; [|auto].
        destruct (V4 _ _ Ho) as (e1 & He1 & Hle). exists e1.
        split; [exact He1|lia].
  - apply (Hpush s); auto.
Qed.

Lemma closed_chain g frontier explored :
  goal_test g = Ok true -> recorded_ok frontier explored ->
  forall a k, reach a g k -> board_ok (board a) ->
  forall e, explored !! Board_str (board a) = Some e -> depth e <= depth a ->
  on_path g frontier.
Proof.
  intros Hgoal Hrec a k Hr.
  induction Hr as [g|a c g k _ Hc Hr IH]; intros Hok e He Hd;
    destruct (Hrec _ _ He) as (Hkey & Hte & [Hin|[Hng Hcl]]).
  - exists g, 0%nat, e. split; [constructor|]. auto.
  - exfalso.
    rewrite (same_grid_goal_test e g) in Hng
      by (apply board_ok_key_grid; [apply Hte|exact Hok|exact Hkey]).
    rewrite Hgoal in Hng. discriminate.
  - exists a, (S k), e. split; [econstructor; eauto|]. auto.
  - pose proof (board_ok_key_grid _ _ (proj1 Hte) Hok Hkey) as Hgrid.
    destruct (successors_simulate a e c Hok (proj1 Hte) (eq_sym Hgrid) Hc)
      as (c' & Hc' & Hgc).
    destruct (Hcl c' Hc') as (e' & He' & Hle).
    assert (Board_str (board c') = Board_str (board c)) as Hkc
        by (unfold Board_str; rewrite Hgc; reflexivity).
    destruct (Hrec _ _ He') as (Hkey' & Hte' & _).
    assert (tidy c') as Htc'.
    { pose proof (tidy_successors e (proj1 Hte)) as Hall.
      rewrite Forall_forall in Hall. auto. }
    pose proof (tidy_same_key e' c' Hte' Htc' Hkey').
    pose proof (successor_depth e c' Hc'). pose proof (successor_depth a c Hc).
    apply (IH Hgoal (successors_board_ok a c Hok Hc) e').
    + rewrite <- Hkc. exact He'.
    + lia.
Qed.

Lemma astar_loop_optimal g :
  goal_test g = Ok true ->
  forall fuel frontier explored r,
    heap_ordered f frontier -> Forall tidy frontier ->
    recorded_ok frontier explored -> on_path g frontier ->
    astar_loop fuel frontier explored = Some (Ok r) ->
    exists t, r = Some t /\ depth t <= depth g.
Proof.
  intros Hgoal. induction fuel as [|fuel IH];
    intros frontier explored r Hheap Htidy Hrec Hpath H; [discriminate|].
  cbn [astar_loop] in H.
  destruct frontier as [|x l].
  { destruct Hpath as (_ & _ & s & _ & _ & Hs & _). inversion Hs. }
  destruct (heappop State_lt (x :: l)) as [[curr rest]|] eqn:Hpop;
    [|discriminate].
  pose proof (heappop_perm _ _ _ _ Hpop) as Hperm.
  destruct (heappop_ordered f _ _ _ Hheap Hpop) as [Hheap' Hroot].
  pose proof (heap_root_least f _ _ Hheap Hroot) as Hleast.
  rewrite Hperm in Htidy. apply Forall_cons in Htidy as [Hcurr Htrest].
  destruct Hpath as (a & k & s & Hr & Hoka & Hs & Hks & Hds).
  assert (f curr <= depth g) as Hbound.
  { pose proof (Hleast s Hs) as Hle.
    assert (tidy s) as Hts.
    { rewrite Hperm in Hs. apply elem_of_cons in Hs as [->|Hs]; [exact Hcurr|].
      rewrite Forall_forall in Htrest. auto. }
    pose proof (reach_depth _ _ _ Hr). pose proof (reach_admissible _ _ _ Hr Hoka Hgoal).
    pose proof (same_grid_heuristic _ _ (proj1 Hts) Hoka
                  (board_ok_key_grid _ _ (proj1 Hts) Hoka Hks)).
    destruct Hts as [_ Hfs]. lia. }
  destruct (goal_test curr) as [[]|] eqn:Hgc; [|..|discriminate].
  { injection H as <-. exists curr. split; [reflexivity|].
    pose proof (goal_heuristic curr (proj1 Hcurr) Hgc).
    destruct Hcurr as [_ Hf]. lia. }
  rewrite (generate_successors_ok _ (proj1 Hcurr)) in H.
  destruct (astar_visit (successors_of curr) rest explored)
    as [frontier' explored'] eqn:Hvisit.
  destruct (astar_visit_spec _ _ _ _ _ Hvisit Hheap')
    as (V1 & V2 & V3 & V4 & V5).
  pose proof (tidy_successors curr (proj1 Hcurr)) as Htsucc.
  assert (Forall tidy frontier') as Htidy'.
  { pose proof (astar_visit_Forall tidy (successors_of curr) rest explored
                  Htsucc Htrest) as Hv. rewrite Hvisit in Hv. exact Hv. }
  assert (closed explored' curr) as Hclosed by (split; [exact Hgc|exact V5]).
  assert (recorded_ok frontier' explored') as Hrec'.
  { intros key e He. destruct (V3 key e He) as [Hold|(Hin & HF & Hkey)].
    - destruct (Hrec _ _ Hold) as (Hkey & Hte & Hwhere).
      split; [exact Hkey|]. split; [exact Hte|].
      destruct Hwhere as [Hin|[Hng Hcl]].
      + rewrite Hperm in Hin. apply elem_of_cons in Hin as [->|Hin];
          [right; exact Hclosed|left; auto].
      + right. split; [exact Hng|]. intros c Hc.
        destruct (Hcl c Hc) as (e' & He' & Hle).
        destruct (V4 _ _ He') as (e1 & He1 & Hle1). exists e1.
        split; [exact He1|lia].
    - split; [exact Hkey|]. rewrite Forall_forall in Htsucc. auto. }
  apply (IH frontier' explored' r V1 Htidy' Hrec'); [|exact H].
  rewrite Hperm in Hs. apply elem_of_cons in Hs as [->|Hs];
    [|exists a, k, s; auto 10].
  pose proof (board_ok_key_grid _ _ (proj1 Hcurr) Hoka Hks) as Hgrid.
  destruct Hr as [g|a c g k _ Hc Hr].
  { rewrite (same_grid_goal_test curr g Hgrid), Hgoal in Hgc. discriminate. }
  destruct (successors_simulate a curr c Hoka (proj1 Hcurr) (eq_sym Hgrid) Hc)
    as (c' & Hc' & Hgc').
  destruct (V5 c' Hc') as (e1 & He1 & Hle1).
  assert (Board_str (board c') = Board_str (board c)) as Hkc
      by (unfold Board_str; rewrite Hgc'; reflexivity).
  destruct (Hrec' _ _ He1) as (Hkey1 & Hte1 & _).
  assert (tidy c') as Htc' by (rewrite Forall_forall in Htsucc; auto).
  pose proof (tidy_same_key e1 c' Hte1 Htc' Hkey1).
  pose proof (successor_depth curr c' Hc'). pose proof (successor_depth a c Hc).
  apply (closed_chain g frontier' explored' Hgoal Hrec' c k Hr
           (successors_board_ok a c Hoka Hc) e1).
  - rewrite <- Hkc. exact He1.
  - lia.
Qed.

Lemma astar_result_optimal init g fuel r :
  initial_state init -> descends init g -> goal_test g = Ok true ->
  astar fuel init = Some (Ok r) ->
  exists t, r = Some t /\ depth t <= depth g.
Proof.
  intros (Hok & Hm & Hd & _) Hg Hgoal H. unfold astar in H.
  apply (astar_loop_optimal g Hgoal fuel [init]
           {[Board_str (board init) := init]} r); [| | | |exact H].
  - apply heap_ordered_singleton.
  - apply Forall_cons. split; [|constructor]. split; [exact Hok|].
    rewrite manhattan_ok in Hm by apply Hok. injection Hm as <-. lia.
  - intros k e He. apply lookup_singleton_Some in He as [<- <-].
    split; [reflexivity|]. split.
    + split; [exact Hok|]. rewrite manhattan_ok in Hm by apply Hok.
      injection Hm as <-. lia.
    + left. apply elem_of_cons. left. reflexivity.
  - destruct (descends_reach init g Hok Hg) as [k Hr].
    exists init, k, init. split; [exact Hr|]. split; [exact Hok|].
    split; [apply elem_of_cons; left; reflexivity|]. split; [reflexivity|lia].
Qed.

(** ** Optimality of the A* search *)

(** C2.  From an initial state over a board of the data model from which
    some state satisfying the goal test can be reached through
    [generate_successors], [astar] returns a state; the state it returns
    satisfies the goal test, is reached from the initial state, and its
    depth is the least depth of the goal states that can be reached, hence
    at most the depth of the state [dfs] returns. *)
Theorem astar_optimal (init : State) :
  initial_state init ->
  (exists g, descends init g /\ goal_test g = Ok true) ->
  (exists fuel t, astar fuel init = Some (Ok (Some t))) /\
  forall fuel r, astar fuel init = Some (Ok r) ->
    exists t, r = Some t /\
      descends init t /\ goal_test t = Ok true /\
      (forall g, descends init g -> goal_test g = Ok true ->
                 depth t <= depth g) /\
      (forall fuel' t', dfs fuel' init = Some (Ok (Some t')) ->
                        depth t <= depth t').
Proof.
  intros Hinit (g0 & Hg0 & Hgoal0).
  assert (forall fuel r, astar fuel init = Some (Ok r) ->
            exists t, r = Some t /\
              descends init t /\ goal_test t = Ok true /\
              (forall g, descends init g -> goal_test g = Ok true ->
                         depth t <= depth g)) as Hopt.
  { intros fuel r H.
    destruct (astar_result_optimal init g0 fuel r Hinit Hg0 Hgoal0 H)
      as (t & -> & _).
    exists t. split; [reflexivity|].
    pose proof H as Hsound. unfold astar in Hsound.
    apply (astar_loop_sound _ (descends_inherited init)) in Hsound
      as [Hdt Hgt]; [|repeat constructor].
    split; [exact Hdt|]. split; [exact Hgt|].
    intros g Hg Hgoal.
    destruct (astar_result_optimal init g fuel _ Hinit Hg Hgoal H)
      as (t' & Heq & Hle).
    injection Heq as <-. exact Hle. }
  split.
  - destruct (astar_terminates init (initial_good init Hinit))
      as (fuel & r & H).
    destruct (Hopt fuel r H) as (t & -> & _). eauto.
  - intros fuel r H. destruct (Hopt fuel r H) as (t & -> & Hdt & Hgt & Hmin).
    exists t. split; [reflexivity|]. split; [exact Hdt|].
    split; [exact Hgt|]. split; [exact Hmin|].
    intros fuel' t' Hdfs. unfold dfs in Hdfs.
    apply (dfs_loop_sound _ (descends_inherited init)) in Hdfs
      as [Hdt' Hgt']; [|repeat constructor].
    exact (Hmin t' Hdt' Hgt').
Qed.

Lemma near_solved_reached :
  descends near_initial near_solved /\ goal_test near_solved = Ok true.
Proof.
  split; [|vm_compute; reflexivity].
  eapply descends_step; [apply descends_root| |].
  - apply generate_successors_ok, near_board_ok.
  - apply elem_of_successors_of.
    exists 8%nat, (mkPiece true false 2 3 None), Left.
    split; [reflexivity|]. split; [|reflexivity].
    vm_compute. apply elem_of_cons. left. reflexivity.
Qed.

Lemma astar_optimal_witness :
  (exists fuel t, astar fuel near_initial = Some (Ok (Some t))) /\
  forall fuel r, astar fuel near_initial = Some (Ok r) ->
    exists t, r = Some t /\
      descends near_initial t /\ goal_test t = Ok true /\
      (forall g, descends near_initial g -> goal_test g = Ok true ->
                 depth t <= depth g) /\
      (forall fuel' t', dfs fuel' near_initial = Some (Ok (Some t')) ->
                        depth t <= depth t').
Proof.
  apply (astar_optimal near_initial).
  - split; [|repeat split].
    split; [apply pieces_okb_spec; vm_compute; reflexivity|reflexivity].
  - exists near_solved. exact near_solved_reached.
Defined.

(** * Further properties *)

(** ** Board construction with any coordinates *)

Lemma py_index_range {A} (l : list A) i :
  (exists k, py_index l i = Ok k) <->
  - Z.of_nat (length l) <= i < Z.of_nat (length l).
Proof.
  unfold py_index.
  destruct (Z.leb_spec 0 i), (Z.ltb_spec i (Z.of_nat (length l)));
    destruct (Z.leb_spec (- Z.of_nat (length l)) i), (Z.ltb_spec i 0);
    cbn; split; intros H'; try lia; try (destruct H' as [k H']; discriminate);
    eauto.
Qed.

Lemma py_index_raise {A} (l : list A) i :
  ~ (- Z.of_nat (length l) <= i < Z.of_nat (length l)) ->
  py_index l i = Raise IndexError.
Proof.
  intros H. unfold py_index.
  destruct (Z.leb_spec 0 i), (Z.ltb_spec i (Z.of_nat (length l)));
    destruct (Z.leb_spec (- Z.of_nat (length l)) i), (Z.ltb_spec i 0);
    cbn; try reflexivity; lia.
Qed.

Lemma grid_set_wrap φ row col ch :
  -5 <= row <= 4 -> -4 <= col <= 3 ->
  grid_set (grid_of_fun φ) row col ch =
  Ok (grid_of_fun (upd φ (wrap 4 col) (wrap 5 row) ch)).
Proof.
  intros Hr Hc.
  assert (row = -5 \/ row = -4 \/ row = -3 \/ row = -2 \/ row = -1 \/
          row = 0 \/ row = 1 \/ row = 2 \/ row = 3 \/ row = 4) as Hrow by lia.
  assert (col = -4 \/ col = -3 \/ col = -2 \/ col = -1 \/
          col = 0 \/ col = 1 \/ col = 2 \/ col = 3) as Hcol by lia.
  clear Hr Hc.
  repeat (destruct Hrow as [-> | Hrow]); try subst row;
    repeat (destruct Hcol as [-> | Hcol]); try subst col; reflexivity.
Qed.

Lemma setitem_raise {A} (l : list A) i a :
  ~ (- Z.of_nat (length l) <= i < Z.of_nat (length l)) ->
  setitem l i a = Raise IndexError.
Proof. intros H. unfold setitem. rewrite py_index_raise by exact H. reflexivity. Qed.

Lemma getitem_row φ row :
  -5 <= row <= 4 ->
  exists line, getitem (grid_of_fun φ) row = Ok line /\ length line = 4%nat.
Proof.
  intros Hr.
  assert (row = -5 \/ row = -4 \/ row = -3 \/ row = -2 \/ row = -1 \/
          row = 0 \/ row = 1 \/ row = 2 \/ row = 3 \/ row = 4) as Hrow by lia.
  repeat (destruct Hrow as [-> | Hrow]); try subst row;
    (eexists; split; [reflexivity | reflexivity]).
Qed.

Lemma grid_set_raise φ row col ch :
  ~ (-5 <= row <= 4 /\ -4 <= col <= 3) ->
  grid_set (grid_of_fun φ) row col ch = Raise IndexError.
Proof.
  intros H. unfold grid_set.
  destruct (decide (-5 <= row <= 4)) as [Hr | Hr].
  - destruct (getitem_row φ row Hr) as (line & -> & Hlen). cbn [bind].
    rewrite setitem_raise by (rewrite Hlen; lia). reflexivity.
  - unfold getitem. rewrite py_index_raise by (cbn; lia). reflexivity.
Qed.

Lemma place_piece_strokes g p : place_piece g p = write_strokes g (strokes p).
Proof.
  unfold place_piece, strokes, kind_of.
  destruct (is_goal p); [|destruct (is_single p);
    [|destruct (orientation p) as [o|];
      [destruct (String.eqb o "h"); [|destruct (String.eqb o "v")]|]]];
    cbn [write_strokes];
    repeat (match goal with
            | |- context [grid_set ?a ?b ?c ?d] =>
                destruct (grid_set a b c d); cbn [bind]
            end); reflexivity.
Qed.

Lemma strokes_cells p : map fst (strokes p) = cells p.
Proof.
  unfold strokes, cells. destruct (kind_of p) as [[]|]; reflexivity.
Qed.

Lemma write_strokes_fun l : forall φ,
  Forall (fun s => indexable s.1) l ->
  write_strokes (grid_of_fun φ) l = Ok (grid_of_fun (fold_left draw_stroke l φ)).
Proof.
  induction l as [|[[x y] ch] l IH]; intros φ Hl; [reflexivity|].
  apply Forall_cons in Hl as [[Hx Hy] Hl]. cbn [write_strokes].
  rewrite grid_set_wrap by assumption. cbn [bind]. rewrite IH by exact Hl.
  reflexivity.
Qed.

Lemma write_strokes_raise l : forall φ,
  ~ Forall (fun s => indexable s.1) l ->
  write_strokes (grid_of_fun φ) l = Raise IndexError.
Proof.
  induction l as [|[[x y] ch] l IH]; intros φ Hl.
  - destruct Hl. constructor.
  - cbn [write_strokes].
    destruct (decide (-5 <= y <= 4 /\ -4 <= x <= 3)) as [[Hy Hx] | Hn].
    + rewrite grid_set_wrap by assumption. cbn [bind]. apply IH.
      intros Hl'. apply Hl. constructor; [split; assumption | exact Hl'].
    + rewrite grid_set_raise by exact Hn. reflexivity.
Qed.

Lemma Forall_strokes p :
  Forall (fun s => indexable s.1) (strokes p) <-> Forall indexable (cells p).
Proof. rewrite <- strokes_cells, Forall_fmap. reflexivity. Qed.

Lemma place_pieces_draw ps : forall φ,
  Forall (fun p => Forall indexable (cells p)) ps ->
  place_pieces (grid_of_fun φ) ps = Ok (grid_of_fun (fold_left draw ps φ)).
Proof.
  induction ps as [|p ps IH]; intros φ Hps; [reflexivity|].
  apply Forall_cons in Hps as [Hp Hps]. cbn [place_pieces].
  rewrite place_piece_strokes, write_strokes_fun by (apply Forall_strokes, Hp).
  cbn [bind]. rewrite IH by exact Hps. reflexivity.
Qed.

Lemma place_pieces_raise ps : forall φ,
  ~ Forall (fun p => Forall indexable (cells p)) ps ->
  place_pieces (grid_of_fun φ) ps = Raise IndexError.
Proof.
  induction ps as [|p ps IH]; intros φ Hps.
  - destruct Hps. constructor.
  - cbn [place_pieces]. rewrite place_piece_strokes.
    destruct (decide (Forall indexable (cells p))) as [Hp | Hp].
    + rewrite write_strokes_fun by (apply Forall_strokes, Hp). cbn [bind].
      apply IH. intros Hps'. apply Hps. constructor; assumption.
    + rewrite write_strokes_raise; [reflexivity|].
      rewrite Forall_strokes. exact Hp.
Qed.

Lemma construct_grid_draw ps :
  Forall (fun p => Forall indexable (cells p)) ps ->
  construct_grid ps = Ok (grid_of_fun (drawing ps)).
Proof. intros H. unfold construct_grid. rewrite blank_grid_fun. apply place_pieces_draw, H. Qed.

Lemma construct_grid_raise ps :
  ~ Forall (fun p => Forall indexable (cells p)) ps ->
  construct_grid ps = Raise IndexError.
Proof. intros H. unfold construct_grid. rewrite blank_grid_fun. apply place_pieces_raise, H. Qed.

Lemma construct_grid_shape ps g :
  construct_grid ps = Ok g -> g = grid_of_fun (drawing ps) /\
  Forall (fun p => Forall indexable (cells p)) ps.
Proof.
  intros H.
  destruct (decide (Forall (fun p => Forall indexable (cells p)) ps)) as [Hd|Hd].
  - rewrite construct_grid_draw in H by exact Hd. split; [congruence | exact Hd].
  - rewrite construct_grid_raise in H by exact Hd. discriminate.
Qed.

(** ** The empty cells *)

Lemma bind_Ok {A B} (m : res A) (k : A -> res B) b :
  bind m k = Ok b -> exists a, m = Ok a /\ k a = Ok b.
Proof. destruct m as [a|e]; [eauto | discriminate]. Qed.

Lemma scan_line_NoDup g i js : forall l,
  NoDup js -> scan_line g i js = Ok l ->
  NoDup l /\ forall c, c ∈ l -> c.1 = i /\ c.2 ∈ js.
Proof.
  induction js as [|j js IH]; intros l Hnd H.
  - injection H as <-. split; [constructor | intros c Hc; inversion Hc].
  - cbn [scan_line] in H.
    apply bind_Ok in H as (line & _ & H). apply bind_Ok in H as (ch & _ & H).
    apply bind_Ok in H as (rest & Hrest & H). injection H as <-.
    apply NoDup_cons in Hnd as [Hj Hnd].
    destruct (IH rest Hnd Hrest) as [Hr Hin].
    destruct (Ascii.eqb ch ".").
    + split.
      * apply NoDup_cons. split; [|exact Hr].
        intros Hc. apply Hin in Hc as [_ Hc]. exact (Hj Hc).
      * intros c Hc. apply elem_of_cons in Hc as [-> | Hc].
        -- split; [reflexivity | left].
        -- destruct (Hin c Hc). split; [assumption | right; assumption].
    + split; [exact Hr|]. intros c Hc. destruct (Hin c Hc).
      split; [assumption | right; assumption].
Qed.

Lemma scan_rows_NoDup g js : forall rows l,
  NoDup rows -> NoDup js -> scan_rows g rows js = Ok l ->
  NoDup l /\ forall c, c ∈ l -> c.1 ∈ rows /\ c.2 ∈ js.
Proof.
  induction rows as [|i rows IH]; intros l Hrows Hjs H.
  - injection H as <-. split; [constructor | intros c Hc; inversion Hc].
  - cbn [scan_rows] in H.
    apply bind_Ok in H as (here & Hhere & H).
    apply bind_Ok in H as (rest & Hrest & H). injection H as <-.
    apply NoDup_cons in Hrows as [Hi Hrows].
    destruct (scan_line_NoDup g i js here Hjs Hhere) as [Hh Hhin].
    destruct (IH rest Hrows Hjs Hrest) as [Hr Hrin].
    split.
    + apply NoDup_app. split; [exact Hh|]. split; [|exact Hr].
      intros c Hc Hc'. apply Hhin in Hc as [Hc _]. apply Hrin in Hc' as [Hc' _].
      rewrite Hc in Hc'. exact (Hi Hc').
    + intros c Hc. apply elem_of_app in Hc as [Hc | Hc].
      * destruct (Hhin c Hc) as [-> ?]. split; [left | assumption].
      * destruct (Hrin c Hc). split; [right; assumption | assumption].
Qed.

Lemma empty_spaces_NoDup b l : empty_spaces b = Ok l -> NoDup l.
Proof.
  intros H.
  apply (scan_rows_NoDup (grid b) [0; 1; 2; 3] [0; 1; 2; 3; 4] l);
    [| | exact H]; refine (bool_decide_unpack _ _); vm_compute; exact I.
Qed.

Lemma empty_spaces_fun b φ :
  grid b = grid_of_fun φ ->
  exists l, empty_spaces b = Ok l /\ NoDup l /\
    forall i j, (i, j) ∈ l <-> free φ j i = true.
Proof.
  intros Hg. unfold empty_spaces. rewrite Hg.
  destruct (scan_rows_fun φ [0; 1; 2; 3; 4] [0; 1; 2; 3]) as (l & Hl & Hin).
  { repeat (apply Forall_cons; split; [lia|]). constructor. }
  { repeat (apply Forall_cons; split; [lia|]). constructor. }
  exists l. split; [exact Hl|]. split.
  - apply (empty_spaces_NoDup (mkBoard [] (grid_of_fun φ))). exact Hl.
  - intros i j. rewrite Hin, free_spec. unfold in_board. cbn [fst snd].
    rewrite !elem_of_cons, !elem_of_nil. split.
    + intros (Hi & Hj & Hc). split; [lia | exact Hc].
    + intros ([Hj Hi] & Hc). split; [lia|]. split; [lia | exact Hc].
Qed.

(** ** Counting cells *)

Lemma NoDup_footprint k x y : NoDup (footprint k x y).
Proof.
  destruct k; cbn [footprint];
    repeat (apply NoDup_cons; split;
            [rewrite ?elem_of_cons, elem_of_nil;
             intros H; repeat (destruct H as [H|H]); try (injection H; lia); exact H |]);
    constructor.
Qed.

Lemma NoDup_cells p : NoDup (cells p).
Proof.
  unfold cells. destruct (kind_of p); [apply NoDup_footprint | constructor].
Qed.

Lemma disjoint_footprints_cons p ps :
  disjoint_footprints (p :: ps) ->
  disjoint_footprints ps /\
  forall q c, q ∈ ps -> c ∈ cells p -> c ∈ cells q -> False.
Proof.
  intros H. split.
  - intros i j a b Hij Ha Hb. apply (H (S i) (S j) a b); [lia | exact Ha | exact Hb].
  - intros q c Hq. apply list_elem_of_lookup in Hq as [j Hj].
    apply (H 0%nat (S j) p q); [lia | reflexivity | exact Hj].
Qed.

Lemma elem_of_covered ps c : c ∈ covered ps <-> exists p, p ∈ ps /\ c ∈ cells p.
Proof.
  unfold covered. rewrite list_elem_of_bind. split; intros (p & H1 & H2); eauto.
Qed.

Lemma NoDup_covered ps : disjoint_footprints ps -> NoDup (covered ps).
Proof.
  induction ps as [|p ps IH]; intros H; [constructor|].
  apply disjoint_footprints_cons in H as [Hps Hp].
  change (covered (p :: ps)) with (cells p ++ covered ps).
  apply NoDup_app. split; [apply NoDup_cells|]. split; [|exact (IH Hps)].
  intros c Hc Hc'. apply elem_of_covered in Hc' as (q & Hq & Hc').
  exact (Hp q c Hq Hc Hc').
Qed.

Lemma elem_of_board_cells c : c ∈ board_cells <-> in_board c.
Proof.
  destruct c as [x y]. unfold in_board. cbn [fst snd]. split.
  - intros H. vm_compute in H.
    repeat (apply elem_of_cons in H as [H|H]; [injection H as -> ->; lia|]).
    inversion H.
  - intros [Hx Hy].
    assert (x = 0 \/ x = 1 \/ x = 2 \/ x = 3) as Hx' by lia.
    assert (y = 0 \/ y = 1 \/ y = 2 \/ y = 3 \/ y = 4) as Hy' by lia.
    clear Hx Hy.
    repeat (destruct Hx' as [-> | Hx']); try subst x;
      repeat (destruct Hy' as [-> | Hy']); try subst y;
      refine (bool_decide_unpack _ _); vm_compute; exact I.
Qed.

Lemma NoDup_board_cells : NoDup board_cells.
Proof. refine (bool_decide_unpack _ _); vm_compute; exact I. Qed.

Lemma cells_partition ps l :
  pieces_ok ps ->
  NoDup l -> (forall i j, (i, j) ∈ l <-> free (paint ps) j i = true) ->
  map swap_cell l ++ covered ps ≡ₚ board_cells.
Proof.
  intros Hok Hnd Hl.
  assert (forall c, c ∈ map swap_cell l <-> free (paint ps) c.1 c.2 = true) as Hl'.
  { intros [x y]. rewrite list_elem_of_fmap. cbn [fst snd]. split.
    - intros ([i j] & Heq & Hin). injection Heq as -> ->. apply Hl, Hin.
    - intros Hf. exists (y, x). split; [reflexivity | apply Hl, Hf]. }
  apply NoDup_Permutation.
  - apply NoDup_app. split; [|split; [|apply NoDup_covered, Hok]].
    + apply NoDup_fmap_2; [|exact Hnd]. intros [a b] [c d] H. injection H as -> ->. reflexivity.
    + intros [x y] Hc Hc'. apply Hl' in Hc. cbn [fst snd] in Hc.
      apply free_spec in Hc as [_ Hc]. rewrite paint_blank in Hc.
      apply elem_of_covered in Hc' as (p & Hp & Hc'). exact (Hc p Hp Hc').
  - apply NoDup_board_cells.
  - intros [x y]. rewrite elem_of_board_cells, elem_of_app. split.
    + intros [Hc | Hc].
      * apply Hl' in Hc. cbn [fst snd] in Hc. apply free_spec in Hc as [Hc _]. exact Hc.
      * apply elem_of_covered in Hc as (p & Hp & Hc).
        pose proof (ok_bounds _ Hok) as Hb. rewrite Forall_forall in Hb.
        specialize (Hb p Hp). unfold bounded in Hb. rewrite Forall_forall in Hb.
        exact (Hb _ Hc).
    + intros Hin.
      destruct (decide ((x, y) ∈ covered ps)) as [Hc | Hc]; [right; exact Hc|].
      left. apply Hl'. cbn [fst snd]. apply free_spec. split; [exact Hin|].
      apply paint_blank. intros p Hp Hc'. apply Hc, elem_of_covered. eauto.
Qed.

Lemma empties_count ps l :
  pieces_ok ps ->
  NoDup l -> (forall i j, (i, j) ∈ l <-> free (paint ps) j i = true) ->
  (length l + length (covered ps) = 20)%nat.
Proof.
  intros Hok Hnd Hl. pose proof (cells_partition ps l Hok Hnd Hl) as Hp.
  apply Permutation_length in Hp. rewrite length_app, length_fmap in Hp.
  exact Hp.
Qed.

Lemma length_cells_shift p d : length (cells (shift_piece p d)) = length (cells p).
Proof.
  unfold cells. rewrite kind_of_shift. destruct (kind_of p) as [[]|]; reflexivity.
Qed.

Lemma covered_move ps idx p d :
  ps !! idx = Some p ->
  length (covered (shift_piece p d :: delete idx ps)) = length (covered ps).
Proof.
  intros Hp. pose proof (delete_Permutation ps idx p Hp) as Hperm.
  assert (covered ps ≡ₚ covered (p :: delete idx ps)) as Hc.
  { unfold covered. rewrite Hperm at 1. reflexivity. }
  rewrite (Permutation_length Hc).
  change (covered (shift_piece p d :: delete idx ps))
    with (cells (shift_piece p d) ++ covered (delete idx ps)).
  change (covered (p :: delete idx ps)) with (cells p ++ covered (delete idx ps)).
  rewrite !length_app, length_cells_shift. reflexivity.
Qed.

(** ** Move generation with few empty cells *)

Lemma four_cells {A} (l : list A) (a b c d : A) :
  NoDup l -> NoDup [a; b; c; d] ->
  a ∈ l -> b ∈ l -> c ∈ l -> d ∈ l -> (4 <= length l)%nat.
Proof.
  intros Hl Hn Ha Hb Hc Hd.
  apply (submseteq_length [a; b; c; d] l), NoDup_submseteq; [exact Hn|].
  intros x Hx. rewrite !elem_of_cons, elem_of_nil in Hx.
  destruct Hx as [-> | [-> | [-> | [-> | []]]]]; assumption.
Qed.

Lemma masked_pair φ p k d1 d2 (l : list (Z * Z)) :
  NoDup l -> (forall i j, free φ j i = true -> (i, j) ∈ l) ->
  (length l <= 3)%nat ->
  kind_of p = Some k -> wide k d1 = true -> wide k d2 = true -> d1 <> d2 ->
  legal φ p d1 = true -> legal φ p d2 = true -> False.
Proof.
  intros Hnd Hl Hlen Hk Hw1 Hw2 Hne H1 H2. unfold legal in H1, H2.
  rewrite Hk in H1, H2.
  destruct k, d1, d2; try discriminate; try congruence;
    cbn [destination forallb fst snd] in H1, H2;
    rewrite !andb_true_iff in H1, H2;
    destruct H1 as (Ha & Hb & _), H2 as (Hc & Hd & _);
    apply Hl in Ha, Hb, Hc, Hd;
    (assert (4 <= length l)%nat;
     [eapply four_cells;
      [exact Hnd | | exact Ha | exact Hb | exact Hc | exact Hd] | lia]);
    repeat (apply NoDup_cons; split;
            [rewrite ?elem_of_cons, elem_of_nil;
             intros H; repeat (destruct H as [H|H]); try (injection H; lia); exact H |]);
    constructor.
Qed.

Lemma emitted_complete φ p d (l : list (Z * Z)) :
  NoDup l -> (forall i j, free φ j i = true -> (i, j) ∈ l) ->
  (length l <= 3)%nat ->
  legal φ p d = true -> d ∈ emitted φ p.
Proof.
  intros Hnd Hl Hlen Hd.
  destruct (kind_of p) as [k|] eqn:Hk;
    [|unfold legal in Hd; rewrite Hk in Hd; discriminate].
  pose proof (masked_pair φ p k) as Hm.
  unfold emitted. rewrite Hk.
  destruct (legal φ p Right) eqn:ER, (legal φ p Left) eqn:EL,
           (legal φ p Down) eqn:ED, (legal φ p Up) eqn:EU;
    destruct k, d; try congruence;
    try (cbn [app]; rewrite ?elem_of_cons; tauto);
    exfalso;
    match goal with
    | H1 : legal φ p ?d1 = true, H2 : legal φ p ?d2 = true |- _ =>
        apply (Hm d1 d2 l Hnd Hl Hlen Hk); [reflexivity | reflexivity | discriminate | exact H1 | exact H2]
    end.
Qed.

Lemma cell_at_fun φ x y :
  in_board (x, y) -> cell_at (grid_of_fun φ) x y = Some (φ x y).
Proof.
  unfold in_board. cbn [fst snd]. intros [Hx Hy].
  assert (x = 0 \/ x = 1 \/ x = 2 \/ x = 3) as Hx' by lia.
  assert (y = 0 \/ y = 1 \/ y = 2 \/ y = 3 \/ y = 4) as Hy' by lia.
  clear Hx Hy.
  repeat (destruct Hx' as [-> | Hx']); try subst x;
    repeat (destruct Hy' as [-> | Hy']); try subst y; reflexivity.
Qed.

Lemma board_ok_empties b :
  board_ok b ->
  exists l, empty_spaces b = Ok l /\ NoDup l /\
    (forall i j, (i, j) ∈ l <-> free (paint (pieces b)) j i = true) /\
    (length l + length (covered (pieces b)) = 20)%nat.
Proof.
  intros Hb.
  destruct (empty_spaces_fun b _ (board_ok_grid b Hb)) as (l & Hl & Hnd & Hin).
  exists l. repeat split; try assumption; try apply Hin.
  apply empties_count; [apply Hb | exact Hnd | exact Hin].
Qed.

Lemma successor_covered st s :
  board_ok (board st) -> s ∈ successors_of st ->
  length (covered (pieces (board s))) = length (covered (pieces (board st))).
Proof.
  intros Hb Hs. apply elem_of_successors_of in Hs as (idx & p & d & Hp & _ & ->).
  apply covered_move, Hp.
Qed.

Lemma descends_covered init s :
  board_ok (board init) -> descends init s ->
  length (covered (pieces (board s))) = length (covered (pieces (board init))).
Proof.
  intros Hb Hd. induction Hd as [|p successors s Hd IH Hg Hs]; [reflexivity|].
  rewrite <- IH. apply successor_covered.
  - exact (descends_board_ok _ _ Hb Hd).
  - exact (descends_successor _ _ _ (descends_board_ok _ _ Hb Hd) Hg Hs).
Qed.

Lemma descends_empties init s :
  board_ok (board init) -> descends init s ->
  exists l l', empty_spaces (board init) = Ok l /\
    empty_spaces (board s) = Ok l' /\ length l' = length l.
Proof.
  intros Hb Hd.
  destruct (board_ok_empties _ Hb) as (l & Hl & _ & _ & Hn).
  destruct (board_ok_empties _ (descends_board_ok _ _ Hb Hd))
    as (l' & Hl' & _ & _ & Hn').
  exists l, l'. split; [exact Hl|]. split; [exact Hl'|].
  rewrite (descends_covered _ _ Hb Hd) in Hn'. lia.
Qed.

Lemma classic_board_ok : board_ok classic_board.
Proof. apply Board_init_ok, pieces_okb_spec. vm_compute. reflexivity. Qed.

(** X1. [Board(pieces)] checks nothing itself: it fails, with IndexError and
    nothing else, exactly when a cell of some piece has a column outside
    -4..3 or a row outside -5..4.  Otherwise it returns a 5x4 grid on which
    cells with negative coordinates are written counted from the other side;
    for pieces inside the board this is the plain picture of the pieces. *)
Theorem Board_init_index_error (ps : list Piece) :
  (Forall (fun p => Forall indexable (cells p)) ps ->
   Board_init ps = Ok (mkBoard ps (grid_of_fun (drawing ps)))) /\
  (~ Forall (fun p => Forall indexable (cells p)) ps ->
   Board_init ps = Raise IndexError) /\
  (Forall bounded ps -> agree (drawing ps) (paint ps)).
Proof.
  split; [|split].
  - intros H. unfold Board_init. rewrite construct_grid_draw by exact H.
    reflexivity.
  - intros H. unfold Board_init. rewrite construct_grid_raise by exact H.
    reflexivity.
  - intros H x y Hx Hy. pose proof (construct_grid_fun ps H) as Hg.
    apply construct_grid_shape in Hg as [Hg _].
    symmetry. apply grid_of_fun_inj; assumption.
Qed.

Lemma Board_init_index_error_witness :
  Board_init [mkPiece false true (-1) (-1) None] =
    Ok (mkBoard [mkPiece false true (-1) (-1) None]
          (grid_of_fun (drawing [mkPiece false true (-1) (-1) None]))) /\
  cell_at (grid_of_fun (drawing [mkPiece false true (-1) (-1) None])) 3 4 =
    Some char_single /\
  Board_init [mkPiece false false 3 0 (Some "h"%string)] = Raise IndexError.
Proof.
  split; [|split].
  - apply (proj1 (Board_init_index_error _)).
    apply Forall_cons. split; [|constructor].
    apply Forall_cons. split; [|constructor]. unfold indexable. cbn. lia.
  - reflexivity.
  - apply (proj1 (proj2 (Board_init_index_error _))).
    intros H. apply Forall_cons in H as [H _].
    apply Forall_cons in H as [_ H]. apply Forall_cons in H as [H _].
    unfold indexable in H. cbn in H. lia.
Defined.

(** X2. On every board the constructor returns, [empty_spaces] and
    [is_empty] never raise: [empty_spaces] lists each cell of the board that
    holds '.' once, as [row, column], and [is_empty(x, y)] says whether
    [y, x] is in that list, so it is False for every coordinate outside the
    board instead of wrapping around as list indexing does. *)
Theorem is_empty_total (ps : list Piece) (b : Board) :
  Board_init ps = Ok b ->
  exists l, empty_spaces b = Ok l /\ NoDup l /\
    (forall i j, (i, j) ∈ l <->
       in_board (j, i) /\ cell_at (grid b) j i = Some "."%char) /\
    (forall x y, is_empty b x y = Ok (bool_decide ((y, x) ∈ l))) /\
    (forall x y, ~ in_board (x, y) -> is_empty b x y = Ok false).
Proof.
  intros H. unfold Board_init in H. apply bind_Ok in H as (g & Hg & H).
  injection H as <-. apply construct_grid_shape in Hg as [-> _].
  set (b := mkBoard ps (grid_of_fun (drawing ps))).
  destruct (empty_spaces_fun b (drawing ps) eq_refl) as (l & Hl & Hnd & Hin).
  exists l. split; [exact Hl|]. split; [exact Hnd|].
  assert (forall x y, is_empty b x y = Ok (bool_decide ((y, x) ∈ l))) as He.
  { intros x y. rewrite (is_empty_fun b (drawing ps)) by reflexivity.
    f_equal. destruct (free (drawing ps) x y) eqn:Hf.
    - symmetry. apply bool_decide_eq_true, Hin, Hf.
    - symmetry. apply bool_decide_eq_false. rewrite Hin, Hf. discriminate. }
  split; [|split; [exact He|]].
  - intros i j. rewrite Hin, free_spec. split.
    + intros [Hb Hc]. split; [exact Hb|].
      cbn [grid b]. rewrite cell_at_fun by exact Hb. f_equal. exact Hc.
    + intros [Hb Hc]. split; [exact Hb|].
      cbn [grid b] in Hc. rewrite cell_at_fun in Hc by exact Hb. congruence.
  - intros x y Hout. rewrite He. f_equal. apply bool_decide_eq_false.
    rewrite Hin, free_spec. tauto.
Qed.

Lemma is_empty_total_witness :
  exists l, empty_spaces sparse_board = Ok l /\ NoDup l /\
    (forall i j, (i, j) ∈ l <->
       in_board (j, i) /\ cell_at (grid sparse_board) j i = Some "."%char) /\
    (forall x y, is_empty sparse_board x y = Ok (bool_decide ((y, x) ∈ l))) /\
    (forall x y, ~ in_board (x, y) -> is_empty sparse_board x y = Ok false).
Proof. apply (is_empty_total sparse_pieces). vm_compute. reflexivity. Defined.

(** X3. No move changes the number of empty cells: on every state that
    comes up in a search from a board of the data model, [empty_spaces] has
    as many entries as on the initial board, namely 20 minus the number of
    cells the pieces cover. *)
Theorem empty_count_kept (init s : State) :
  board_ok (board init) -> descends init s ->
  exists l l', empty_spaces (board init) = Ok l /\
    empty_spaces (board s) = Ok l' /\ length l' = length l /\
    (length l + length (covered (pieces (board init))) = 20)%nat.
Proof.
  intros Hb Hd. destruct (descends_empties _ _ Hb Hd) as (l & l' & Hl & Hl' & Hn).
  exists l, l'. repeat split; try assumption.
  destruct (board_ok_empties _ Hb) as (l0 & Hl0 & _ & _ & Hc). congruence.
Qed.

Lemma empty_count_kept_witness :
  exists l l', empty_spaces (board sparse_initial) = Ok l /\
    empty_spaces (board sparse_child) = Ok l' /\ length l' = length l /\
    (length l + length (covered (pieces (board sparse_initial))) = 20)%nat.
Proof.
  apply (empty_count_kept sparse_initial sparse_child).
  - exact sparse_board_ok.
  - apply (descends_step _ sparse_initial [sparse_child]).
    + apply descends_root.
    + vm_compute. reflexivity.
    + left.
Defined.

(** X4. With at most three empty cells, as on the standard boards with two,
    [generate_successors] is complete: on every state that comes up in a
    search from such a board, each move the rules allow is among the
    successors.  (The branches that an [elif] skips need four empty
    cells.) *)
Theorem few_gaps_complete (init st : State) (l : list (Z * Z))
    (idx : nat) (p : Piece) (d : Dir) :
  board_ok (board init) -> empty_spaces (board init) = Ok l ->
  (length l <= 3)%nat -> descends init st ->
  pieces (board st) !! idx = Some p ->
  legal (paint (pieces (board st))) p d = true ->
  exists successors s,
    generate_successors st = Ok successors /\ s ∈ successors /\
    pieces (board s) = shift_piece p d :: delete idx (pieces (board st)).
Proof.
  intros Hb Hl Hlen Hd Hp Hleg.
  pose proof (descends_board_ok _ _ Hb Hd) as Hst.
  destruct (descends_empties _ _ Hb Hd) as (l0 & l' & Hl0 & Hl' & Hn).
  assert (l0 = l) as -> by congruence.
  destruct (board_ok_empties _ Hst) as (l1 & Hl1 & Hnd & Hin & _).
  assert (l1 = l') as -> by congruence.
  exists (successors_of st), (child_state st idx p d).
  split; [apply generate_successors_ok, Hst|]. split; [|reflexivity].
  apply elem_of_successors_of. exists idx, p, d.
  split; [exact Hp|]. split; [|reflexivity].
  apply (emitted_complete _ _ _ l'); [exact Hnd | apply Hin | lia | exact Hleg].
Qed.

Lemma few_gaps_complete_witness :
  exists successors s,
    generate_successors classic_initial = Ok successors /\ s ∈ successors /\
    pieces (board s) =
      shift_piece (mkPiece false true 1 3 None) Down
      :: delete 6%nat (pieces (board classic_initial)).
Proof.
  apply (few_gaps_complete classic_initial classic_initial [(4, 1); (4, 2)]).
  - exact classic_board_ok.
  - vm_compute. reflexivity.
  - cbn. lia.
  - apply descends_root.
  - reflexivity.
  - vm_compute. reflexivity.
Defined.

(** ** Reading the puzzle file *)

Lemma read_char_parse x y ch acc g :
  read_char x y ch (acc, g) =
  (acc ++ option_list (piece_at g (x, y, ch)), g || Ascii.eqb ch char_goal).
Proof.
  unfold read_char, piece_at. cbn [fst snd].
  destruct (Ascii.eqb ch "^") eqn:E1;
    [apply Ascii.eqb_eq in E1; subst ch; rewrite orb_false_r; reflexivity|].
  destruct (Ascii.eqb ch "<") eqn:E2;
    [apply Ascii.eqb_eq in E2; subst ch; rewrite orb_false_r; reflexivity|].
  destruct (Ascii.eqb ch char_single) eqn:E3;
    [apply Ascii.eqb_eq in E3; subst ch; rewrite orb_false_r; reflexivity|].
  destruct (Ascii.eqb ch char_goal) eqn:E4; destruct g; cbn;
    rewrite ?app_nil_r; reflexivity.
Qed.

Lemma read_line_parse line : forall x y acc g,
  read_line x line y (acc, g) =
  (acc ++ parse g (line_chars x line y), g || seen_goal (line_chars x line y)).
Proof.
  induction line as [|ch line IH]; intros x y acc g.
  - cbn. rewrite app_nil_r, orb_false_r. reflexivity.
  - cbn [read_line line_chars parse seen_goal existsb].
    rewrite read_char_parse, IH. cbn [fst snd].
    rewrite <- app_assoc, orb_assoc. f_equal. f_equal.
    destruct (piece_at g (x, y, ch)); reflexivity.
Qed.

Lemma parse_app l1 : forall g l2,
  parse g (l1 ++ l2) = parse g l1 ++ parse (g || seen_goal l1) l2.
Proof.
  induction l1 as [|t l1 IH]; intros g l2.
  - cbn. rewrite orb_false_r. reflexivity.
  - cbn [app parse seen_goal existsb]. rewrite IH, orb_assoc.
    destruct (piece_at g t); reflexivity.
Qed.

Lemma seen_goal_app l1 l2 : seen_goal (l1 ++ l2) = seen_goal l1 || seen_goal l2.
Proof. apply existsb_app. Qed.

Lemma read_lines_parse lines : forall y acc g,
  read_lines lines y (acc, g) =
  (acc ++ parse g (text_chars lines y), g || seen_goal (text_chars lines y)).
Proof.
  induction lines as [|line lines IH]; intros y acc g.
  - cbn. rewrite app_nil_r, orb_false_r. reflexivity.
  - cbn [read_lines text_chars]. rewrite read_line_parse, IH.
    rewrite parse_app, seen_goal_app, <- app_assoc, orb_assoc. reflexivity.
Qed.

Lemma read_pieces_parse text :
  read_pieces text = parse false (text_chars (file_lines text) 0).
Proof. unfold read_pieces. rewrite read_lines_parse. reflexivity. Qed.

Lemma piece_at_Some g t q :
  piece_at g t = Some q ->
  exists k, t.2 = anchor_symbol k /\ q = canon k t.1 /\ (k = Goal -> g = false).
Proof.
  unfold piece_at.
  destruct (Ascii.eqb t.2 "^") eqn:E1;
    [apply Ascii.eqb_eq in E1; intros [= <-]; exists VDomino; repeat split; [exact E1 | discriminate]|].
  destruct (Ascii.eqb t.2 "<") eqn:E2;
    [apply Ascii.eqb_eq in E2; intros [= <-]; exists HDomino; repeat split; [exact E2 | discriminate]|].
  destruct (Ascii.eqb t.2 char_single) eqn:E3;
    [apply Ascii.eqb_eq in E3; intros [= <-]; exists Single; repeat split; [exact E3 | discriminate]|].
  destruct (Ascii.eqb t.2 char_goal) eqn:E4; [|discriminate].
  apply Ascii.eqb_eq in E4. destruct g; [discriminate|].
  intros [= <-]. exists Goal. repeat split. exact E4.
Qed.

Lemma piece_at_anchor g t k :
  t.2 = anchor_symbol k -> (k = Goal -> g = false) ->
  piece_at g t = Some (canon k t.1).
Proof.
  intros Ht Hg. unfold piece_at. rewrite Ht.
  destruct k; cbn; try reflexivity. rewrite Hg by reflexivity. reflexivity.
Qed.

Lemma parse_elem l : forall g q,
  q ∈ parse g l ->
  exists t k, t ∈ l /\ t.2 = anchor_symbol k /\ q = canon k t.1 /\
    (k = Goal -> g = false).
Proof.
  induction l as [|t l IH]; intros g q Hq; [inversion Hq|].
  cbn [parse] in Hq.
  assert (q ∈ parse (g || Ascii.eqb t.2 char_goal) l ->
          exists t' k, t' ∈ t :: l /\ t'.2 = anchor_symbol k /\
            q = canon k t'.1 /\ (k = Goal -> g = false)) as Hrest.
  { intros H. apply IH in H as (t' & k & Ht' & Hs & -> & Hg).
    exists t', k. split; [right; exact Ht'|]. split; [exact Hs|].
    split; [reflexivity|]. intros Hk. apply Hg in Hk.
    apply orb_false_iff in Hk. apply Hk. }
  destruct (piece_at g t) as [p|] eqn:Hp; [|exact (Hrest Hq)].
  apply elem_of_cons in Hq as [-> | Hq]; [|exact (Hrest Hq)].
  apply piece_at_Some in Hp as (k & Hs & -> & Hg).
  exists t, k. split; [left|]. auto.
Qed.

Lemma parse_complete l : forall g t k,
  t ∈ l -> t.2 = anchor_symbol k -> k <> Goal -> canon k t.1 ∈ parse g l.
Proof.
  induction l as [|t' l IH]; intros g t k Ht Hs Hk; [inversion Ht|].
  cbn [parse]. apply elem_of_cons in Ht as [<- | Ht].
  - rewrite (piece_at_anchor g t k Hs) by (intros ->; destruct Hk; reflexivity).
    left.
  - pose proof (IH (g || Ascii.eqb t'.2 char_goal) t k Ht Hs Hk) as H.
    destruct (piece_at g t'); [right|]; exact H.
Qed.

Lemma parse_goal_count l : forall g,
  length (filter (fun p => is_goal p = true) (parse g l)) =
  if g then 0%nat else if seen_goal l then 1%nat else 0%nat.
Proof.
  induction l as [|t l IH]; intros g; [destruct g; reflexivity|].
  cbn [parse seen_goal existsb].
  destruct (piece_at g t) as [p|] eqn:Hp.
  - apply piece_at_Some in Hp as (k & Hs & -> & Hg).
    rewrite filter_cons. destruct k; cbn [canon is_goal];
      (destruct (decide _) as [Hd|Hd]; [try discriminate Hd | try (destruct Hd; reflexivity)]);
      rewrite ?length_cons, IH.
    + rewrite Hg by reflexivity. rewrite Hs. reflexivity.
    + rewrite Hs. cbn. rewrite orb_false_r. reflexivity.
    + rewrite Hs. cbn. rewrite orb_false_r. reflexivity.
    + rewrite Hs. cbn. rewrite orb_false_r. reflexivity.
  - rewrite IH. destruct g; [reflexivity|]. cbn [orb].
    destruct (Ascii.eqb t.2 char_goal) eqn:E; [|reflexivity].
    unfold piece_at in Hp. rewrite E in Hp.
    apply Ascii.eqb_eq in E. rewrite E in Hp. discriminate.
Qed.

Lemma in_order_cons {A} (R : A -> A -> Prop) a l :
  in_order R (a :: l) <-> (forall b, b ∈ l -> R a b) /\ in_order R l.
Proof.
  split.
  - intros H. split.
    + intros b Hb. apply list_elem_of_lookup in Hb as [j Hj].
      apply (H 0%nat (S j)); [lia | reflexivity | exact Hj].
    + intros i j x y Hij Hx Hy. apply (H (S i) (S j)); [lia | exact Hx | exact Hy].
  - intros [Ha Hl] i j x y Hij Hx Hy. destruct j as [|j]; [lia|].
    destruct i as [|i].
    + injection Hx as <-. apply Ha. apply list_elem_of_lookup. eauto.
    + apply (Hl i j); [lia | exact Hx | exact Hy].
Qed.

Lemma in_order_app {A} (R : A -> A -> Prop) l1 l2 :
  in_order R l1 -> in_order R l2 ->
  (forall a b, a ∈ l1 -> b ∈ l2 -> R a b) -> in_order R (l1 ++ l2).
Proof.
  induction l1 as [|a l1 IH]; intros H1 H2 H12; [exact H2|].
  apply in_order_cons in H1 as [Ha H1]. cbn [app]. apply in_order_cons. split.
  - intros b Hb. apply elem_of_app in Hb as [Hb | Hb]; [apply Ha, Hb|].
    apply H12; [left | exact Hb].
  - apply IH; [exact H1 | exact H2|]. intros x y Hx. apply H12. right. exact Hx.
Qed.

Lemma in_order_nil {A} (R : A -> A -> Prop) : in_order R [].
Proof. intros i j a b _ H. inversion H. Qed.

Lemma elem_of_line_chars line : forall x y t,
  t ∈ line_chars x line y -> x <= t.1.1 /\ t.1.2 = y /\ t.2 ∈ line.
Proof.
  induction line as [|ch line IH]; intros x y t Ht; [inversion Ht|].
  cbn [line_chars] in Ht. apply elem_of_cons in Ht as [-> | Ht].
  - cbn. split; [lia|]. split; [reflexivity | left].
  - apply IH in Ht as (H1 & H2 & H3). split; [lia|]. split; [exact H2 | right; exact H3].
Qed.

Lemma line_chars_order line : forall x y,
  in_order (fun a b => before a.1 b.1) (line_chars x line y).
Proof.
  induction line as [|ch line IH]; intros x y; [apply in_order_nil|].
  cbn [line_chars]. apply in_order_cons. split; [|apply IH].
  intros b Hb. apply elem_of_line_chars in Hb as (H1 & H2 & _).
  right. cbn. lia.
Qed.

Lemma elem_of_text_chars lines : forall y t,
  t ∈ text_chars lines y ->
  0 <= t.1.1 /\ y <= t.1.2 /\ exists line, line ∈ lines /\ t.2 ∈ line.
Proof.
  induction lines as [|line lines IH]; intros y t Ht; [inversion Ht|].
  cbn [text_chars] in Ht. apply elem_of_app in Ht as [Ht | Ht].
  - apply elem_of_line_chars in Ht as (H1 & H2 & H3).
    split; [lia|]. split; [lia|]. exists line. split; [left | exact H3].
  - apply IH in Ht as (H1 & H2 & line' & H3 & H4).
    split; [lia|]. split; [lia|]. exists line'. split; [right; exact H3 | exact H4].
Qed.

Lemma text_chars_order lines : forall y,
  in_order (fun a b => before a.1 b.1) (text_chars lines y).
Proof.
  induction lines as [|line lines IH]; intros y; [apply in_order_nil|].
  cbn [text_chars]. apply in_order_app; [apply line_chars_order | apply IH|].
  intros a b Ha Hb. apply elem_of_line_chars in Ha as (_ & Ha & _).
  apply elem_of_text_chars in Hb as (_ & Hb & _). left. lia.
Qed.

Lemma anchor_canon k xy : anchor (canon k xy) = xy.
Proof. destruct k, xy; reflexivity. Qed.

Lemma parse_order l : forall g,
  in_order (fun a b => before a.1 b.1) l ->
  in_order (fun p q => before (anchor p) (anchor q)) (parse g l).
Proof.
  induction l as [|t l IH]; intros g Hl; [apply in_order_nil|].
  apply in_order_cons in Hl as [Ht Hl]. cbn [parse].
  destruct (piece_at g t) as [p|] eqn:Hp; [|apply IH, Hl].
  apply in_order_cons. split; [|apply IH, Hl].
  intros q Hq. apply parse_elem in Hq as (t' & k & Ht' & _ & -> & _).
  apply piece_at_Some in Hp as (k' & _ & -> & _).
  rewrite !anchor_canon. apply Ht, Ht'.
Qed.

Lemma parse_goal_first l : forall g q,
  in_order (fun a b => before a.1 b.1) l ->
  q ∈ parse g l -> is_goal q = true ->
  forall t, t ∈ l -> before t.1 (anchor q) -> t.2 <> char_goal.
Proof.
  induction l as [|t0 l IH]; intros g q Hl Hq Hgoal t Ht Hb; [inversion Ht|].
  apply in_order_cons in Hl as [Ht0 Hl]. cbn [parse] in Hq.
  assert (q ∈ parse (g || Ascii.eqb t0.2 char_goal) l -> t.2 <> char_goal) as Hrest.
  { intros Hq'. apply elem_of_cons in Ht as [-> | Ht].
    - apply parse_elem in Hq' as (t' & k & _ & _ & -> & Hg).
      destruct k; try discriminate Hgoal.
      specialize (Hg eq_refl). apply orb_false_iff in Hg as [_ Hg].
      intros Heq. rewrite Heq in Hg. discriminate.
    - exact (IH _ q Hl Hq' Hgoal t Ht Hb). }
  destruct (piece_at g t0) as [p|] eqn:Hp; [|exact (Hrest Hq)].
  apply elem_of_cons in Hq as [-> | Hq]; [|exact (Hrest Hq)].
  apply piece_at_Some in Hp as (k & _ & -> & _). rewrite anchor_canon in Hb.
  exfalso. apply elem_of_cons in Ht as [-> | Ht].
  - unfold before in Hb. lia.
  - specialize (Ht0 t Ht). unfold before in Hb, Ht0. lia.
Qed.

Lemma file_lines_from_concat text : forall line,
  concat (file_lines_from text line) = line ++ text.
Proof.
  induction text as [|ch text IH]; intros line.
  - cbn. destruct line; cbn; rewrite ?app_nil_r; reflexivity.
  - cbn [file_lines_from]. destruct (Ascii.eqb ch "010").
    + cbn [concat]. rewrite IH, <- app_assoc. reflexivity.
    + rewrite IH, <- app_assoc. reflexivity.
Qed.

Lemma file_lines_concat text : concat (file_lines text) = text.
Proof. apply file_lines_from_concat. Qed.

Lemma elem_of_concat {A} (x : A) (ls : list (list A)) :
  x ∈ concat ls <-> exists l, l ∈ ls /\ x ∈ l.
Proof.
  induction ls as [|l ls IH]; cbn [concat].
  - split; [intros H; inversion H | intros (l & H & _); inversion H].
  - rewrite elem_of_app, IH. split.
    + intros [H | (l' & H1 & H2)]; [exists l; split; [left | exact H]|].
      exists l'. split; [right; exact H1 | exact H2].
    + intros (l' & H1 & H2). apply elem_of_cons in H1 as [-> | H1];
        [left; exact H2 | right; eauto].
Qed.

Lemma text_chars_text text t :
  t ∈ text_chars (file_lines text) 0 -> 0 <= t.1.1 /\ 0 <= t.1.2 /\ t.2 ∈ text.
Proof.
  intros Ht. apply elem_of_text_chars in Ht as (H1 & H2 & line & H3 & H4).
  split; [exact H1|]. split; [exact H2|].
  rewrite <- (file_lines_concat text). apply elem_of_concat. eauto.
Qed.


Lemma snd_line_chars line : forall x y, map snd (line_chars x line y) = line.
Proof.
  induction line as [|ch line IH]; intros x y; [reflexivity|].
  cbn [line_chars map snd]. rewrite IH. reflexivity.
Qed.

Lemma snd_text_chars lines : forall y, map snd (text_chars lines y) = concat lines.
Proof.
  induction lines as [|line lines IH]; intros y; [reflexivity|].
  cbn [text_chars concat]. rewrite map_app, snd_line_chars, IH. reflexivity.
Qed.

Lemma seen_goal_spec l : seen_goal l = true <-> char_goal ∈ map snd l.
Proof.
  unfold seen_goal. rewrite existsb_exists, list_elem_of_fmap. split.
  - intros (t & Ht & He). apply Ascii.eqb_eq in He. exists t.
    split; [symmetry; exact He | apply list_elem_of_In, Ht].
  - intros (t & He & Ht). exists t.
    split; [apply list_elem_of_In, Ht | apply Ascii.eqb_eq; symmetry; exact He].
Qed.

Lemma read_pieces_elem text q :
  q ∈ read_pieces text ->
  exists k x y, q = canon k (x, y) /\ 0 <= x /\ 0 <= y /\
    anchor_symbol k ∈ text.
Proof.
  rewrite read_pieces_parse. intros Hq.
  apply parse_elem in Hq as ([[x y] ch] & k & Ht & Hs & -> & _).
  apply text_chars_text in Ht as (Hx & Hy & Hch). cbn [fst snd] in *.
  exists k, x, y. subst ch. auto.
Qed.

Lemma read_pieces_goal_count text :
  length (filter (fun p => is_goal p = true) (read_pieces text)) =
  if bool_decide (char_goal ∈ text) then 1%nat else 0%nat.
Proof.
  rewrite read_pieces_parse, parse_goal_count.
  destruct (seen_goal _) eqn:Hs.
  - apply seen_goal_spec in Hs. rewrite snd_text_chars, file_lines_concat in Hs.
    rewrite bool_decide_eq_true_2 by exact Hs. reflexivity.
  - rewrite bool_decide_eq_false_2; [reflexivity|]. intros H.
    assert (seen_goal (text_chars (file_lines text) 0) = true) as Hs'.
    { apply seen_goal_spec. rewrite snd_text_chars, file_lines_concat. exact H. }
    congruence.
Qed.


Lemma bounded_indexable p : bounded p -> Forall indexable (cells p).
Proof.
  unfold bounded. intros H. eapply Forall_impl; [exact H|].
  intros [x y]. unfold in_board, indexable. cbn. lia.
Qed.

Lemma indexable_bounded k x y :
  0 <= x -> 0 <= y -> Forall indexable (cells (canon k (x, y))) ->
  bounded (canon k (x, y)).
Proof.
  intros Hx Hy. unfold bounded, cells. rewrite kind_of_canon.
  destruct k; cbn [canon coord_x coord_y fst snd footprint];
    rewrite !Forall_cons, !Forall_nil; unfold indexable, in_board;
    cbn [fst snd]; lia.
Qed.

Lemma read_pieces_bounded text :
  Forall bounded (read_pieces text) <->
  Forall (fun p => Forall indexable (cells p)) (read_pieces text).
Proof.
  split.
  - intros H. eapply Forall_impl; [exact H|]. intros p. apply bounded_indexable.
  - rewrite !Forall_forall. intros H p Hp. specialize (H p Hp).
    apply read_pieces_elem in Hp as (k & x & y & -> & Hx & Hy & _).
    apply indexable_bounded; assumption.
Qed.

Lemma read_from_file_Ok text :
  Forall bounded (read_pieces text) ->
  read_from_file text =
  Ok (mkBoard (read_pieces text) (grid_of_fun (paint (read_pieces text)))).
Proof.
  intros H. unfold read_from_file, Board_init. fold (read_pieces text).
  rewrite construct_grid_fun by exact H. reflexivity.
Qed.

Lemma read_from_file_raise text :
  ~ Forall bounded (read_pieces text) ->
  read_from_file text = Raise IndexError.
Proof.
  intros H. unfold read_from_file, Board_init. fold (read_pieces text).
  rewrite construct_grid_raise; [reflexivity|].
  rewrite <- read_pieces_bounded. exact H.
Qed.



Lemma find_goal_filter ps :
  length (filter (fun p => is_goal p = true) ps) = 0%nat -> find_goal ps = None.
Proof.
  induction ps as [|p ps IH]; [reflexivity|]. rewrite filter_cons.
  cbn [find_goal]. destruct (is_goal p) eqn:Hg.
  - destruct (decide _) as [_|Hd]; [discriminate | destruct Hd; reflexivity].
  - destruct (decide _) as [Hd|_]; [discriminate Hd | exact IH].
Qed.

(** X6. The program fails before any search on an input it cannot use:
    with IndexError when a piece of the text lies outside the board, and
    with TypeError, raised by [manhattan] on the missing goal, when the
    pieces fit but the text holds no '1'. *)
Theorem main_input_errors (algo : Algo) (text : list ascii) (fuel : nat) :
  (~ Forall bounded (read_pieces text) ->
   main algo text fuel = Some (Raise IndexError)) /\
  (Forall bounded (read_pieces text) -> char_goal ∉ text ->
   main algo text fuel = Some (Raise TypeError)).
Proof.
  split.
  - intros H. unfold main. rewrite read_from_file_raise by exact H. reflexivity.
  - intros H Hg. unfold main. rewrite read_from_file_Ok by exact H.
    unfold manhattan, get_goal. cbn [pieces].
    rewrite find_goal_filter; [reflexivity|].
    rewrite read_pieces_goal_count, bool_decide_eq_false_2 by exact Hg.
    reflexivity.
Qed.

Lemma main_input_errors_witness :
  main algo_astar ["."; "."; "."; "."; "2"]%char 0 = Some (Raise IndexError) /\
  main algo_dfs ["2"; "<"; ">"]%char 0 = Some (Raise TypeError).
Proof.
  split.
  - apply (proj1 (main_input_errors _ _ _)).
    intros Hb. apply Forall_cons in Hb as [Hb _].
    apply Forall_cons in Hb as [Hb _]. unfold in_board in Hb. cbn in Hb. lia.
  - apply (proj2 (main_input_errors _ _ _)).
    + apply Forall_forall. intros p Hp. cbn in Hp.
      repeat (apply elem_of_cons in Hp as [-> | Hp];
              [apply Forall_forall; intros c Hc; cbn in Hc;
               repeat (apply elem_of_cons in Hc as [-> | Hc];
                       [unfold in_board; cbn; lia|]); inversion Hc|]).
      inversion Hp.
    + intros Hg. repeat (apply elem_of_cons in Hg as [Hg | Hg]; [discriminate|]).
      inversion Hg.
Defined.

(** ** The text of a board *)

Lemma file_lines_from_row row : forall rest line,
  newline ∉ row ->
  file_lines_from (row ++ newline :: rest) line =
  (line ++ row ++ [newline]) :: file_lines_from rest [].
Proof.
  induction row as [|ch row IH]; intros rest line Hrow.
  - reflexivity.
  - cbn [app file_lines_from].
    destruct (Ascii.eqb ch "010") eqn:E.
    + apply Ascii.eqb_eq in E. subst ch. destruct Hrow. left.
    + rewrite IH by (intros H; apply Hrow; right; exact H).
      rewrite <- app_assoc. reflexivity.
Qed.

Lemma file_lines_rows rows : forall rest,
  Forall (fun row => newline ∉ row) rows ->
  file_lines (concat (map with_newline rows) ++ rest) =
  map with_newline rows ++ file_lines rest.
Proof.
  unfold file_lines.
  induction rows as [|row rows IH]; intros rest Hrows; [reflexivity|].
  apply Forall_cons in Hrows as [Hrow Hrows].
  cbn [map concat]. unfold with_newline at 1. rewrite <- !app_assoc.
  cbn [app]. rewrite file_lines_from_row by exact Hrow.
  cbn [app]. rewrite IH by exact Hrows. reflexivity.
Qed.

Lemma grid_of_fun_rows φ :
  (forall x y, φ x y <> newline) ->
  Forall (fun row => newline ∉ row) (grid_of_fun φ).
Proof.
  intros H. unfold grid_of_fun.
  repeat (apply Forall_cons; split;
          [cbn [map]; rewrite !elem_of_cons, elem_of_nil;
           intros Hc; repeat (destruct Hc as [Hc|Hc]);
           try (symmetry in Hc; exact (H _ _ Hc)); exact Hc|]).
  constructor.
Qed.

Lemma elem_of_display_chars φ t :
  t ∈ display_chars φ ->
  t.2 = newline \/ (in_board t.1 /\ t.2 = φ t.1.1 t.1.2).
Proof.
  intros H. unfold display_chars in H. cbn in H.
  repeat (apply elem_of_cons in H as [-> | H];
          [first [left; reflexivity
                 | right; split; [unfold in_board; cbn; lia | reflexivity]]|]).
  inversion H.
Qed.

Lemma display_chars_elem φ x y :
  in_board (x, y) -> (x, y, φ x y) ∈ display_chars φ.
Proof.
  unfold in_board. cbn [fst snd]. intros [Hx Hy].
  assert (x = 0 \/ x = 1 \/ x = 2 \/ x = 3) as Hx' by lia.
  assert (y = 0 \/ y = 1 \/ y = 2 \/ y = 3 \/ y = 4) as Hy' by lia.
  clear Hx Hy. unfold display_chars. cbn.
  repeat (destruct Hx' as [-> | Hx']); try subst x;
    repeat (destruct Hy' as [-> | Hy']); try subst y;
    repeat first [apply list_elem_of_here | apply list_elem_of_further].
Qed.

Lemma display_chars_order φ :
  in_order (fun a b => before a.1 b.1) (display_chars φ).
Proof. apply text_chars_order. Qed.

Lemma anchor_symbol_not_newline k : anchor_symbol k <> newline.
Proof. destruct k; discriminate. Qed.

Lemma anchor_symbol_not_blank k : anchor_symbol k <> "."%char.
Proof. destruct k; discriminate. Qed.

Lemma typed_canon p k :
  piece_typed p -> kind_of p = Some k -> p = canon k (coord_x p, coord_y p).
Proof.
  intros Ht Hk. apply piece_typed_cases in Ht.
  destruct Ht as [H | [H | [H | H]]]; rewrite H in Hk |- *; cbn in Hk;
    injection Hk as <-; reflexivity.
Qed.

Lemma anchor_in_cells p k : kind_of p = Some k -> (coord_x p, coord_y p) ∈ cells p.
Proof. intros Hk. unfold cells. rewrite Hk. destruct k; left. Qed.

Lemma typed_kind p : piece_typed p -> exists k, kind_of p = Some k.
Proof. unfold piece_typed. destruct (kind_of p); [eauto | intros []]. Qed.

Lemma covering_piece ps x y :
  paint ps x y <> "."%char -> exists i p, ps !! i = Some p /\ (x, y) ∈ cells p.
Proof.
  intros H. destruct (decide ((x, y) ∈ covered ps)) as [Hc | Hc].
  - apply elem_of_covered in Hc as (p & Hp & Hc).
    apply list_elem_of_lookup in Hp as [i Hi]. eauto.
  - destruct H. apply paint_blank. intros p Hp Hc'. apply Hc, elem_of_covered. eauto.
Qed.

Lemma pieces_ok_NoDup ps : pieces_ok ps -> NoDup ps.
Proof.
  intros Hok. apply NoDup_alt. intros i j p Hi Hj.
  destruct (decide (i = j)) as [|Hne]; [assumption|]. exfalso.
  pose proof (ok_typed _ Hok) as Ht. rewrite Forall_forall in Ht.
  assert (p ∈ ps) as Hp by (apply list_elem_of_lookup; eauto).
  destruct (typed_kind p (Ht p Hp)) as [k Hk].
  exact (ok_disjoint _ Hok i j p p Hne Hi Hj _ (anchor_in_cells p k Hk)
                     (anchor_in_cells p k Hk)).
Qed.

Lemma in_order_NoDup {A} (R : A -> A -> Prop) l :
  (forall a, ~ R a a) -> in_order R l -> NoDup l.
Proof.
  intros Hirr Hl. apply NoDup_alt. intros i j x Hi Hj.
  destruct (Nat.lt_trichotomy i j) as [Hlt | [Heq | Hlt]]; [|exact Heq|].
  - destruct (Hirr x). exact (Hl i j x x Hlt Hi Hj).
  - destruct (Hirr x). exact (Hl j i x x Hlt Hj Hi).
Qed.

Lemma parse_display_sound ps q :
  pieces_ok ps -> q ∈ parse false (display_chars (paint ps)) -> q ∈ ps.
Proof.
  intros Hok Hq.
  pose proof (parse_elem _ _ _ Hq) as ([[x y] ch] & k & Ht & Hs & Heq & _).
  cbn [fst snd] in Hs, Heq.
  apply elem_of_display_chars in Ht as [Ht | [Hin Ht]]; cbn [fst snd] in *.
  { rewrite Hs in Ht. destruct (anchor_symbol_not_newline k Ht). }
  assert (paint ps x y <> "."%char) as Hnb.
  { rewrite <- Ht, Hs. apply anchor_symbol_not_blank. }
  destruct (covering_piece ps x y Hnb) as (i & p & Hi & Hc).
  assert (p ∈ ps) as Hp by (apply list_elem_of_lookup; eauto).
  pose proof (ok_typed _ Hok) as Hty. rewrite Forall_forall in Hty.
  pose proof (Hty p Hp) as Htp.
  apply symbol_cells in Hc as [s Hsym].
  pose proof (paint_covered ps i p x y s (ok_disjoint _ Hok) Hi Hsym) as Hpaint.
  assert (s = anchor_symbol k) as -> by congruence.
  assert (k = Goal \/ k <> Goal) as [-> | Hk]
    by (destruct k; first [left; reflexivity | right; discriminate]).
  - pose proof (symbol_goal p x y Hsym) as Hgoal.
    assert (kind_of p = Some Goal) as Hkp by (unfold kind_of; rewrite Hgoal; reflexivity).
    assert ((x, y) ∈ cells p) as Hc by (apply symbol_cells; eauto).
    pose proof (anchor_in_cells p Goal Hkp) as Ha.
    assert (paint ps (coord_x p) (coord_y p) = char_goal) as Hpa.
    { apply (paint_covered ps i p _ _ _ (ok_disjoint _ Hok) Hi).
      apply (symbol_at_anchor p Goal Hkp). }
    pose proof (ok_bounds _ Hok) as Hb. rewrite Forall_forall in Hb.
    specialize (Hb p Hp). unfold bounded in Hb. rewrite Forall_forall in Hb.
    pose proof (display_chars_elem (paint ps) _ _ (Hb _ Ha)) as Ht0.
    assert (is_goal q = true) as Hgq by (rewrite Heq; reflexivity).
    pose proof (parse_goal_first _ _ q (display_chars_order _) Hq Hgq _ Ht0) as Hfirst.
    cbn [fst snd] in Hfirst. rewrite Heq, anchor_canon in Hfirst.
    rewrite (goal_cells p Hgoal) in Hc. cbn [footprint] in Hc.
    rewrite !elem_of_cons, elem_of_nil in Hc.
    assert ((x, y) = (coord_x p, coord_y p)) as Hxy.
    { destruct (decide ((x, y) = (coord_x p, coord_y p))) as [|Hne]; [assumption|].
      exfalso. apply Hfirst; [|exact Hpa]. unfold before. cbn [fst snd].
      destruct Hc as [Hc | [Hc | [Hc | [Hc | []]]]]; injection Hc as -> ->;
        try lia. destruct Hne. reflexivity. }
    injection Hxy as -> ->. rewrite Heq, <- (typed_canon p Goal Htp Hkp). exact Hp.
  - apply (symbol_is_anchor p x y k Hk) in Hsym as (Hkp & <- & <-).
    rewrite Heq, <- (typed_canon p k Htp Hkp). exact Hp.
Qed.

Lemma parse_display_complete ps p :
  pieces_ok ps -> p ∈ ps -> p ∈ parse false (display_chars (paint ps)).
Proof.
  intros Hok Hp.
  pose proof (ok_typed _ Hok) as Hty. rewrite Forall_forall in Hty.
  pose proof (Hty p Hp) as Htp. destruct (typed_kind p Htp) as [k Hk].
  pose proof (anchor_in_cells p k Hk) as Ha.
  pose proof (ok_bounds _ Hok) as Hb. rewrite Forall_forall in Hb.
  specialize (Hb p Hp). unfold bounded in Hb. rewrite Forall_forall in Hb.
  pose proof (display_chars_elem (paint ps) _ _ (Hb _ Ha)) as Ht.
  pose proof Hp as Hi. apply list_elem_of_lookup in Hi as [i Hi].
  assert (paint ps (coord_x p) (coord_y p) = anchor_symbol k) as Hpa.
  { apply (paint_covered ps i p _ _ _ (ok_disjoint _ Hok) Hi).
    apply (symbol_at_anchor p k Hk). }
  rewrite Hpa in Ht.
  assert (k = Goal \/ k <> Goal) as [-> | Hne]
    by (destruct k; first [left; reflexivity | right; discriminate]).
  - assert (seen_goal (display_chars (paint ps)) = true) as Hseen.
    { apply seen_goal_spec, list_elem_of_fmap. eexists. split; [|exact Ht]. reflexivity. }
    pose proof (parse_goal_count (display_chars (paint ps)) false) as Hcount.
    rewrite Hseen in Hcount.
    destruct (filter (fun p => is_goal p = true)
                     (parse false (display_chars (paint ps)))) as [|q l] eqn:Hf;
      [discriminate|].
    assert (q ∈ filter (fun p => is_goal p = true)
                       (parse false (display_chars (paint ps)))) as Hq
      by (rewrite Hf; left).
    apply list_elem_of_filter in Hq as [Hgq Hq].
    pose proof (parse_display_sound ps q Hok Hq) as Hqps.
    apply list_elem_of_lookup in Hqps as [j Hj].
    assert (is_goal p = true) as Hgp.
    { unfold kind_of in Hk. destruct (is_goal p); [reflexivity|].
      destruct (is_single p); [discriminate|].
      destruct (orientation p) as [o|]; [|discriminate].
      destruct (String.eqb o "h"); [discriminate|].
      destruct (String.eqb o "v"); discriminate. }
    pose proof (filter_one_unique (fun p => is_goal p = true) ps j i q p
                  (ok_goal _ Hok) Hj Hi Hgq Hgp) as ->.
    assert (q = p) as -> by congruence. exact Hq.
  - pose proof (parse_complete _ false _ k Ht eq_refl Hne) as H.
    cbn [fst] in H. rewrite <- (typed_canon p k Htp Hk) in H. exact H.
Qed.

Lemma before_irrefl a : ~ before a a.
Proof. unfold before. lia. Qed.

Lemma parse_display_perm ps :
  pieces_ok ps -> parse false (display_chars (paint ps)) ≡ₚ ps.
Proof.
  intros Hok. apply NoDup_Permutation.
  - apply (in_order_NoDup (fun p q => before (anchor p) (anchor q))).
    + intros a. apply before_irrefl.
    + apply parse_order, display_chars_order.
  - apply pieces_ok_NoDup, Hok.
  - intros q. split; [apply parse_display_sound, Hok | apply parse_display_complete, Hok].
Qed.

Lemma disjoint_footprints_cons_2 p ps :
  disjoint_footprints ps ->
  (forall q c, q ∈ ps -> c ∈ cells p -> c ∈ cells q -> False) ->
  disjoint_footprints (p :: ps).
Proof.
  intros Hps Hp i j a b Hij Ha Hb c Hca Hcb.
  destruct i as [|i], j as [|j]; [lia | | |].
  - injection Ha as <-. apply (Hp b c); [|exact Hca | exact Hcb].
    apply list_elem_of_lookup. eauto.
  - injection Hb as <-. apply (Hp a c); [|exact Hcb | exact Hca].
    apply list_elem_of_lookup. eauto.
  - assert (i <> j) as Hne by lia. exact (Hps i j a b Hne Ha Hb c Hca Hcb).
Qed.

Lemma disjoint_from_NoDup ps : NoDup (covered ps) -> disjoint_footprints ps.
Proof.
  induction ps as [|p ps IH]; intros H.
  - intros i j a b _ Ha. inversion Ha.
  - change (covered (p :: ps)) with (cells p ++ covered ps) in H.
    apply NoDup_app in H as (_ & Hd & Hps).
    apply disjoint_footprints_cons_2; [exact (IH Hps)|].
    intros q c Hq Hc Hc'.
    exact (Hd c Hc (proj2 (elem_of_covered ps c) (ex_intro _ q (conj Hq Hc')))).
Qed.

Lemma pieces_ok_perm ps qs : ps ≡ₚ qs -> pieces_ok ps -> pieces_ok qs.
Proof.
  intros Hperm [Ht Hb Hd Hg]. split.
  - rewrite <- Hperm. exact Ht.
  - rewrite <- Hperm. exact Hb.
  - apply disjoint_from_NoDup. apply NoDup_covered in Hd.
    unfold covered in *. rewrite <- Hperm. exact Hd.
  - rewrite <- Hperm. exact Hg.
Qed.

Lemma text_chars_app l1 : forall l2 y,
  text_chars (l1 ++ l2) y =
  text_chars l1 y ++ text_chars l2 (y + Z.of_nat (length l1)).
Proof.
  induction l1 as [|line l1 IH]; intros l2 y.
  - cbn. rewrite Z.add_0_r. reflexivity.
  - cbn [app text_chars length]. rewrite IH, <- app_assoc.
    replace (y + 1 + Z.of_nat (length l1)) with (y + Z.of_nat (S (length l1))) by lia.
    reflexivity.
Qed.

Lemma paint_not_newline ps x y : paint ps x y <> newline.
Proof.
  pose proof (paint_alphabet ps x y) as H. intros Heq. rewrite Heq in H.
  unfold alphabet in H.
  repeat (apply elem_of_cons in H as [H|H]; [discriminate|]). inversion H.
Qed.

Lemma parse_newline g y : parse g (text_chars [[newline]] y) = [].
Proof. reflexivity. Qed.

Lemma read_pieces_rows rows :
  Forall (fun row => newline ∉ row) rows ->
  read_pieces (concat (map with_newline rows)) =
    parse false (text_chars (map with_newline rows) 0) /\
  read_pieces (concat (map with_newline rows) ++ [newline]) =
    parse false (text_chars (map with_newline rows) 0).
Proof.
  intros Hrows. rewrite !read_pieces_parse. split.
  - rewrite <- (app_nil_r (concat _)), file_lines_rows by exact Hrows.
    rewrite app_nil_r. reflexivity.
  - rewrite file_lines_rows by exact Hrows.
    change (file_lines [newline]) with [[newline]].
    rewrite text_chars_app, parse_app, parse_newline, app_nil_r. reflexivity.
Qed.

Lemma read_pieces_display b :
  board_ok b ->
  read_pieces (display b) = parse false (display_chars (paint (pieces b))) /\
  read_pieces (write_board b) = parse false (display_chars (paint (pieces b))).
Proof.
  intros Hb. pose proof (board_ok_grid b Hb) as Hg.
  change (display b) with (concat (map with_newline (grid b))).
  change (write_board b) with (concat (map with_newline (grid b)) ++ [newline]).
  rewrite Hg. apply read_pieces_rows, grid_of_fun_rows, paint_not_newline.
Qed.

(** X7. Reading back what is written: for a board of the data model, the
    text that [display] prints, and the block that [get_solution] writes
    for it, are read by [read_from_file] as a board of the data model with
    the same pieces, listed in reading order, and the same grid. *)
Theorem read_back_written_board (b : Board) :
  board_ok b ->
  exists b',
    read_from_file (display b) = Ok b' /\
    read_from_file (write_board b) = Ok b' /\
    board_ok b' /\ pieces b' ≡ₚ pieces b /\ grid b' = grid b /\
    in_order (fun p q => before (anchor p) (anchor q)) (pieces b').
Proof.
  intros Hb. destruct (read_pieces_display b Hb) as [Hd Hw].
  pose proof (parse_display_perm (pieces b) (proj1 Hb)) as Hperm.
  set (ps' := parse false (display_chars (paint (pieces b)))) in *.
  assert (pieces_ok ps') as Hok.
  { apply (pieces_ok_perm (pieces b)); [symmetry; exact Hperm | apply Hb]. }
  exists (mkBoard ps' (grid_of_fun (paint ps'))).
  split; [|split; [|split; [|split; [|split]]]].
  - rewrite read_from_file_Ok; rewrite Hd; [reflexivity | apply Hok].
  - rewrite read_from_file_Ok; rewrite Hw; [reflexivity | apply Hok].
  - apply Board_init_ok, Hok.
  - exact Hperm.
  - cbn [grid]. rewrite (board_ok_grid b Hb). apply grid_of_fun_ext.
    intros x y _ _. apply paint_same_one; [apply Hok | apply Hb|].
    exists ps'. split; [exact Hperm|].
    apply Forall2_same_length_lookup. split; [reflexivity|].
    intros i p q Hp Hq. congruence.
  - apply parse_order, display_chars_order.
Qed.

Lemma read_back_written_board_witness :
  exists b',
    read_from_file (display sparse_board) = Ok b' /\
    read_from_file (write_board sparse_board) = Ok b' /\
    board_ok b' /\ pieces b' ≡ₚ pieces sparse_board /\
    grid b' = grid sparse_board /\
    in_order (fun p q => before (anchor p) (anchor q)) (pieces b').
Proof. apply read_back_written_board. exact sparse_board_ok. Defined.

(** ** Completeness of the depth-first search *)

Lemma dfs_visit_spec successors : forall F0 X0 F1 X1,
  dfs_visit successors F0 X0 = (F1, X1) ->
  (forall s, s ∈ F0 -> s ∈ F1) /\
  (forall g, g ∈ X0 -> g ∈ X1) /\
  (forall c, c ∈ successors -> grid (board c) ∈ X1) /\
  (forall g, g ∈ X1 -> g ∈ X0 \/ exists s, s ∈ F1 /\ grid (board s) = g).
Proof.
  induction successors as [|c successors IH]; intros F0 X0 F1 X1 H.
  - injection H as <- <-. repeat split; auto. intros c Hc. inversion Hc.
  - cbn [dfs_visit] in H.
    destruct (bool_decide (grid (board c) ∈ X0)) eqn:Hd.
    + apply bool_decide_eq_true in Hd.
      destruct (IH _ _ _ _ H) as (V1 & V2 & V3 & V4).
      repeat split; auto. intros c' Hc'.
      apply elem_of_cons in Hc' as [-> | Hc']; auto.
    + destruct (IH _ _ _ _ H) as (V1 & V2 & V3 & V4).
      split; [|split; [|split]].
      * intros s Hs. apply V1, elem_of_app. left. exact Hs.
      * intros g Hg. apply V2, elem_of_app. left. exact Hg.
      * intros c' Hc'. apply elem_of_cons in Hc' as [-> | Hc']; [|auto].
        apply V2, elem_of_app. right. left.
      * intros g Hg. destruct (V4 g Hg) as [Hg' | Hg']; [|right; exact Hg'].
        apply elem_of_app in Hg' as [Hg' | Hg']; [left; exact Hg'|].
        apply list_elem_of_singleton in Hg'. subst g. right. exists c.
        split; [|reflexivity]. apply V1, elem_of_app. right. left.
Qed.

Lemma dfs_chain g frontier explored :
  goal_test g = Ok true -> explored_ok frontier explored ->
  forall a k, reach a g k -> board_ok (board a) ->
  grid (board a) ∈ explored -> on_track g frontier.
Proof.
  intros Hgoal Hex a k Hr.
  induction Hr as [g|a c g k _ Hc Hr IH]; intros Hok Hin;
    destruct (Hex _ Hin) as [(s & Hs & Hg) | (e & Hoke & Hge & Hng & Hcl)].
  - exists g, 0%nat, s. split; [constructor|]. auto.
  - exfalso. rewrite (same_grid_goal_test e g Hge), Hgoal in Hng. discriminate.
  - exists a, (S k), s. split; [econstructor; eassumption|]. auto.
  - destruct (successors_simulate a e c Hok Hoke (eq_sym Hge) Hc)
      as (c' & Hc' & Hgc).
    apply (IH Hgoal (successors_board_ok a c Hok Hc)).
    rewrite <- Hgc. apply Hcl, Hc'.
Qed.

Lemma dfs_loop_complete g :
  goal_test g = Ok true ->
  forall fuel frontier explored r,
    Forall (fun s => board_ok (board s)) frontier ->
    explored_ok frontier explored -> on_track g frontier ->
    dfs_loop fuel frontier explored = Some (Ok r) ->
    exists t, r = Some t.
Proof.
  intros Hgoal. induction fuel as [|fuel IH];
    intros frontier explored r Hok Hex Hpath H; [discriminate|].
  cbn [dfs_loop] in H.
  destruct frontier as [|x l].
  { destruct Hpath as (_ & _ & s & _ & _ & Hs & _). inversion Hs. }
  destruct (list_pop (x :: l)) as [[curr rest]|] eqn:Hpop; [|discriminate].
  apply list_pop_spec in Hpop. rewrite Hpop in Hok, Hex, Hpath.
  apply Forall_app in Hok as [Hrest Hcurr].
  apply Forall_cons in Hcurr as [Hcurr _].
  destruct (goal_test curr) as [[]|] eqn:Hgc; [|..|discriminate].
  { injection H as <-. exists curr. reflexivity. }
  rewrite (generate_successors_ok _ Hcurr) in H.
  destruct (dfs_visit (successors_of curr) rest explored)
    as [frontier' explored'] eqn:Hvisit.
  destruct (dfs_visit_spec _ _ _ _ _ Hvisit) as (V1 & V2 & V3 & V4).
  assert (Forall (fun s => board_ok (board s)) frontier') as Hok'.
  { pose proof (dfs_visit_Forall (fun s => board_ok (board s))
                  (successors_of curr) rest explored
                  (proj2 (ok_successors curr Hcurr)) Hrest) as Hv.
    rewrite Hvisit in Hv. exact Hv. }
  assert (expanded explored' (grid (board curr))) as Hexp.
  { exists curr. split; [exact Hcurr|]. split; [reflexivity|].
    split; [exact Hgc | exact V3]. }
  assert (explored_ok frontier' explored') as Hex'.
  { intros gr Hgr. destruct (V4 gr Hgr) as [Hold | Hnew]; [|left; exact Hnew].
    destruct (Hex gr Hold) as [(s & Hs & Hg) | (e & Hoke & Hge & Hng & Hcl)].
    - apply elem_of_app in Hs as [Hs | Hs].
      + left. exists s. split; [apply V1, Hs | exact Hg].
      + apply list_elem_of_singleton in Hs. subst s. right. rewrite <- Hg. exact Hexp.
    - right. exists e. split; [exact Hoke|]. split; [exact Hge|].
      split; [exact Hng|]. intros c Hc. apply V2, Hcl, Hc. }
  apply (IH frontier' explored' r Hok' Hex'); [|exact H].
  destruct Hpath as (a & k & s & Hr & Hoka & Hs & Hgs).
  apply elem_of_app in Hs as [Hs | Hs].
  { exists a, k, s. split; [exact Hr|]. split; [exact Hoka|].
    split; [apply V1, Hs | exact Hgs]. }
  apply list_elem_of_singleton in Hs. subst s.
  destruct Hr as [g|a c g k _ Hc Hr].
  { rewrite (same_grid_goal_test curr g Hgs), Hgoal in Hgc. discriminate. }
  destruct (successors_simulate a curr c Hoka Hcurr (eq_sym Hgs) Hc)
    as (c' & Hc' & Hgc').
  apply (dfs_chain g frontier' explored' Hgoal Hex' c k Hr
           (successors_board_ok a c Hoka Hc)).
  rewrite <- Hgc'. apply V3, Hc'.
Qed.

Lemma dfs_result_complete init g fuel r :
  board_ok (board init) -> descends init g -> goal_test g = Ok true ->
  dfs fuel init = Some (Ok r) -> exists t, r = Some t.
Proof.
  intros Hok Hg Hgoal H. unfold dfs in H.
  apply (dfs_loop_complete g Hgoal fuel [init] [] r); [| | |exact H].
  - apply Forall_cons. split; [exact Hok | constructor].
  - intros gr Hgr. inversion Hgr.
  - destruct (descends_reach init g Hok Hg) as [k Hr].
    exists init, k, init. split; [exact Hr|]. split; [exact Hok|].
    split; [left | reflexivity].
Qed.

(** X8. The depth-first search is complete: from a board of the data model
    from which some state satisfying the goal test can be reached through
    [generate_successors], [dfs] returns a state, never None; the state
    satisfies the goal test and is reached from the initial state. *)
Theorem dfs_complete (init : State) :
  board_ok (board init) ->
  (exists g, descends init g /\ goal_test g = Ok true) ->
  (exists t, dfs (2 * length all_grids + 2) init = Some (Ok (Some t))) /\
  forall fuel r, dfs fuel init = Some (Ok r) ->
    exists t, r = Some t /\ goal_test t = Ok true /\ descends init t.
Proof.
  intros Hok (g & Hg & Hgoal).
  assert (forall fuel r, dfs fuel init = Some (Ok r) ->
            exists t, r = Some t /\ goal_test t = Ok true /\ descends init t) as Hall.
  { intros fuel r H.
    destruct (dfs_result_complete init g fuel r Hok Hg Hgoal H) as [t ->].
    exists t. split; [reflexivity|].
    destruct (dfs_loop_sound (descends init) (descends_inherited init)
                fuel [init] [] t) as [Hd Hgt].
    - apply Forall_cons. split; [apply descends_root | constructor].
    - exact H.
    - split; assumption. }
  split; [|exact Hall].
  destruct (dfs_terminates init Hok) as [r Hr].
  destruct (Hall _ _ Hr) as (t & -> & _). exists t. exact Hr.
Qed.

Lemma dfs_complete_witness :
  (exists t, dfs (2 * length all_grids + 2) near_initial = Some (Ok (Some t))) /\
  forall fuel r, dfs fuel near_initial = Some (Ok r) ->
    exists t, r = Some t /\ goal_test t = Ok true /\ descends near_initial t.
Proof.
  apply dfs_complete.
  - exact near_board_ok.
  - exists near_solved. exact near_solved_reached.
Defined.

(** ** Solutions *)

Lemma successor_slide p successors s :
  board_ok (board p) -> generate_successors p = Ok successors ->
  s ∈ successors -> slide (board p) (board s) /\ board_ok (board s).
Proof.
  intros Hok Hg Hs.
  pose proof (descends_successor p successors s Hok Hg Hs) as Hs'.
  split; [|exact (successors_board_ok p s Hok Hs')].
  apply elem_of_successors_of in Hs' as (idx & q & d & Hq & Hd & ->).
  exists idx, q, d. split; [exact Hq|]. split; [exact (emitted_legal _ _ _ Hd)|].
  split; reflexivity.
Qed.

Lemma chain_slides init s n :
  board_ok (board init) -> parent init = None -> parent_chain init s n ->
  Forall board_ok (path_from s) /\
  forall m1 b' b m2, path_from s = m1 ++ b' :: b :: m2 -> slide b b'.
Proof.
  intros Hok Hroot Hc. induction Hc as [|s p successors n Hp Hg Hs Hc IH].
  - rewrite path_from_unfold, Hroot. split.
    + apply Forall_cons. split; [exact Hok | constructor].
    + intros m1 b' b m2 H. destruct m1 as [|x [|y m1]]; discriminate.
  - destruct IH as [IHok IH].
    rewrite path_from_unfold, Hp.
    assert (board_ok (board p)) as Hokp.
    { rewrite path_from_unfold in IHok. apply Forall_cons in IHok. apply IHok. }
    destruct (successor_slide p successors s Hokp Hg Hs) as [Hsl Hoks].
    split; [apply Forall_cons; split; assumption|].
    intros m1 b' b m2 H. destruct m1 as [|x m1].
    + cbn [app] in H. injection H as <- H.
      rewrite path_from_unfold in H. injection H as <- _. exact Hsl.
    + cbn [app] in H. injection H as _ H. exact (IH _ _ _ _ H).
Qed.

Lemma write_path_text path : forall n,
  (write_path path n).1 = concat (map write_board path).
Proof.
  induction path as [|b path IH]; intros n; [reflexivity|].
  cbn [write_path map concat]. specialize (IH (n + 1)).
  destruct (write_path path (n + 1)) as [text k]. cbn [fst] in *.
  rewrite IH. reflexivity.
Qed.

Lemma get_solution_text state :
  (get_solution state).1 =
  string_of_list_ascii (concat (map write_board (rev (collect_path state)))).
Proof.
  unfold get_solution.
  pose proof (write_path_text (rev (collect_path state)) 0) as H.
  destruct (write_path (rev (collect_path state)) 0) as [text k].
  cbn [fst] in *. rewrite H. reflexivity.
Qed.

Lemma search_result init fuel t :
  dfs fuel init = Some (Ok (Some t)) \/ astar fuel init = Some (Ok (Some t)) ->
  descends init t /\ goal_test t = Ok true.
Proof.
  intros [H | H].
  - apply (dfs_loop_sound (descends init) (descends_inherited init)
             fuel [init] [] t); [|exact H].
    apply Forall_cons. split; [apply descends_root | constructor].
  - unfold astar in H.
    apply (astar_loop_sound (descends init) (descends_inherited init)
             fuel [init] {[Board_str (board init) := init]} t); [|exact H].
    apply Forall_cons. split; [apply descends_root | constructor].
Qed.

(** X9. What [get_solution] writes is a solution of the puzzle: for the
    state either search returns from a board of the data model, the text is
    the boards of the path in order, each as its five rows and an empty
    line; the first is the initial board, the last satisfies the goal test,
    every board is a board of the data model, and each board comes from the
    one before by sliding one piece one cell into empty cells. *)
Theorem solution_valid (init : State) (fuel : nat) (t : State) :
  board_ok (board init) -> depth init = 0 -> parent init = None ->
  dfs fuel init = Some (Ok (Some t)) \/ astar fuel init = Some (Ok (Some t)) ->
  let path := rev (collect_path (Some t)) in
  get_solution (Some t) =
    (string_of_list_ascii (concat (map write_board path)),
     Z.of_nat (length path)) /\
  head path = Some (board init) /\
  last path = Some (board t) /\ goal_test t = Ok true /\
  Forall board_ok path /\
  forall l1 b b' l2, path = l1 ++ b :: b' :: l2 -> slide b b'.
Proof.
  intros Hok Hd0 Hroot H. cbn zeta.
  destruct (search_result init fuel t H) as [Hdesc Hgoal].
  destruct (descends_chain init t Hd0 Hdesc) as [_ Hchain].
  destruct (path_from_chain init t _ Hroot Hchain) as (_ & Hlast & Hhead).
  destruct (chain_slides init t _ Hok Hroot Hchain) as [Hall Hsl].
  destruct (rev_head_last (path_from t)) as [Hrh Hrl].
  cbn [collect_path].
  split; [|split; [|split; [|split; [|split]]]].
  - rewrite (surjective_pairing (get_solution (Some t))).
    rewrite get_solution_text, get_solution_count. cbn [collect_path].
    rewrite length_rev. reflexivity.
  - rewrite Hrh. exact Hlast.
  - rewrite Hrl. exact Hhead.
  - exact Hgoal.
  - rewrite Forall_forall in Hall |- *. intros b Hb. apply Hall.
    apply list_elem_of_In. apply in_rev. apply list_elem_of_In. exact Hb.
  - intros l1 b b' l2 Hp. apply (Hsl (rev l2) b' b (rev l1)).
    rewrite <- (rev_involutive (path_from t)), Hp.
    rewrite rev_app_distr. cbn [rev]. rewrite <- !app_assoc. reflexivity.
Qed.

Lemma solution_valid_witness :
  let path := rev (collect_path (Some near_solved)) in
  get_solution (Some near_solved) =
    (string_of_list_ascii (concat (map write_board path)),
     Z.of_nat (length path)) /\
  head path = Some (board near_initial) /\
  last path = Some (board near_solved) /\ goal_test near_solved = Ok true /\
  Forall board_ok path /\
  forall l1 b b' l2, path = l1 ++ b :: b' :: l2 -> slide b b'.
Proof.
  apply (solution_valid near_initial 2 near_solved).
  - exact near_board_ok.
  - reflexivity.
  - reflexivity.
  - right. vm_compute. reflexivity.
Defined.

(** ** The heuristic is admissible and consistent *)

Lemma successor_heuristic_step s c :
  board_ok (board s) -> c ∈ successors_of s ->
  Z.abs (heuristic (pieces (board c)) - heuristic (pieces (board s))) <= 1 /\
  (get_goal (board c) = get_goal (board s) ->
   heuristic (pieces (board c)) = heuristic (pieces (board s))).
Proof.
  intros [Hok _] Hc.
  apply elem_of_successors_of in Hc as (idx & p & d & Hi & _ & ->).
  unfold child_state, heuristic, get_goal. cbn [board pieces find_goal].
  replace (is_goal (shift_piece p d)) with (is_goal p) by (destruct d; reflexivity).
  destruct (is_goal p) eqn:Hg.
  - rewrite (find_goal_unique _ idx p Hok Hi Hg).
    split; [destruct d; simpl; lia|]. intros [= -> ->]. reflexivity.
  - rewrite (find_goal_delete _ idx p Hi Hg).
    destruct (find_goal (pieces (board s))) as [[gx gy]|]; split; auto; lia.
Qed.

(** X10. The heuristic is admissible: from a state on a board of the data
    model, every state satisfying the goal test that can be reached is at
    least [manhattan] moves deeper. *)
Theorem manhattan_admissible (a g : State) :
  board_ok (board a) -> descends a g -> goal_test g = Ok true ->
  exists h, manhattan (board a) = Ok h /\ 0 <= h /\ depth a + h <= depth g.
Proof.
  intros Hok Hd Hgoal. exists (heuristic (pieces (board a))).
  split; [apply manhattan_ok, Hok|]. split; [apply heuristic_nonneg|].
  destruct (descends_reach a g Hok Hd) as [k Hr].
  pose proof (reach_depth _ _ _ Hr). pose proof (reach_admissible _ _ _ Hr Hok Hgoal).
  lia.
Qed.

Lemma manhattan_admissible_witness :
  exists h, manhattan (board near_initial) = Ok h /\ 0 <= h /\
    depth near_initial + h <= depth near_solved.
Proof.
  apply manhattan_admissible.
  - exact near_board_ok.
  - exact (proj1 near_solved_reached).
  - exact (proj2 near_solved_reached).
Defined.

(** X11. The heuristic is consistent: one move changes [manhattan] by at
    most one, and not at all when the goal piece stays; so the f of a
    successor is never below the f of a state whose f is its heuristic plus
    its depth. *)
Theorem manhattan_consistent (s : State) (successors : list State) (c : State) :
  board_ok (board s) -> generate_successors s = Ok successors ->
  c ∈ successors ->
  exists h h',
    manhattan (board s) = Ok h /\ manhattan (board c) = Ok h' /\
    Z.abs (h' - h) <= 1 /\
    (get_goal (board c) = get_goal (board s) -> h' = h) /\
    f c = h' + depth s + 1 /\
    (f s = h + depth s -> f s <= f c).
Proof.
  intros Hok Hg Hc.
  pose proof (descends_successor s successors c Hok Hg Hc) as Hc'.
  pose proof (successors_board_ok s c Hok Hc') as Hokc.
  destruct (successor_heuristic_step s c Hok Hc') as [Habs Hsame].
  destruct (successor_fields s successors c Hg Hc) as (_ & (h' & Hh' & Hf) & _).
  exists (heuristic (pieces (board s))), (heuristic (pieces (board c))).
  rewrite (manhattan_ok _ (proj1 Hokc)) in Hh'. injection Hh' as <-.
  split; [apply manhattan_ok, Hok|]. split; [apply manhattan_ok, Hokc|].
  split; [exact Habs|]. split; [exact Hsame|]. split; [exact Hf|]. lia.
Qed.

Lemma manhattan_consistent_witness :
  exists h h',
    manhattan (board sparse_initial) = Ok h /\
    manhattan (board sparse_child) = Ok h' /\
    Z.abs (h' - h) <= 1 /\
    (get_goal (board sparse_child) = get_goal (board sparse_initial) -> h' = h) /\
    f sparse_child = h' + depth sparse_initial + 1 /\
    (f sparse_initial = h + depth sparse_initial -> f sparse_initial <= f sparse_child).
Proof.
  apply (manhattan_consistent sparse_initial [sparse_child]).
  - exact sparse_board_ok.
  - exact sparse_successors.
  - left.
Defined.

(** ** The iterations of the A* search *)

Lemma astar_visit_elem successors : forall frontier explored s,
  s ∈ (astar_visit successors frontier explored).1 ->
  s ∈ frontier \/ s ∈ successors.
Proof.
  induction successors as [|c successors IH]; intros frontier explored s Hs.
  - left. exact Hs.
  - cbn [astar_visit] in Hs.
    destruct (match explored !! Board_str (board c) with
              | Some recorded => State_lt c recorded
              | None => true
              end).
    + apply IH in Hs as [Hs | Hs]; [|right; right; exact Hs].
      rewrite heappush_perm in Hs.
      apply elem_of_cons in Hs as [-> | Hs]; [right; left | left; exact Hs].
    + apply IH in Hs as [Hs | Hs]; [left; exact Hs | right; right; exact Hs].
Qed.

Lemma astar_config_inv init frontier explored :
  astar_config init frontier explored ->
  heap_ordered f frontier /\
  Forall (descends init) frontier /\
  (forall s, s ∈ frontier ->
     exists e, explored !! Board_str (board s) = Some e /\ f e <= f s) /\
  (forall k e, explored !! k = Some e ->
     Board_str (board e) = k /\ descends init e).
Proof.
  induction 1 as [|frontier explored curr rest successors frontier' explored'
                   Hc IH Hpop Hgoal Hgen Hvisit].
  - split; [apply heap_ordered_singleton|]. split.
    + apply Forall_cons. split; [apply descends_root | constructor].
    + split.
      * intros s Hs. apply list_elem_of_singleton in Hs. subst s.
        exists init. rewrite lookup_singleton_eq. split; [reflexivity | lia].
      * intros k e He. apply lookup_singleton_Some in He as [<- <-].
        split; [reflexivity | apply descends_root].
  - destruct IH as (Hheap & Hdesc & Hrec & Hkeys).
    pose proof (heappop_perm _ _ _ _ Hpop) as Hperm.
    destruct (heappop_ordered f _ _ _ Hheap Hpop) as [Hheap' _].
    rewrite Hperm in Hdesc. apply Forall_cons in Hdesc as [Hcurr Hrest].
    destruct (astar_visit_spec _ _ _ _ _ Hvisit Hheap')
      as (V1 & V2 & V3 & V4 & V5).
    pose proof (inherited_successors (descends init) curr successors
                  (descends_inherited init) Hcurr Hgen) as Hsucc.
    assert (Forall (descends init) frontier') as Hdesc'.
    { pose proof (astar_visit_Forall (descends init) successors rest explored
                    Hsucc Hrest) as Hv. rewrite Hvisit in Hv. exact Hv. }
    split; [exact V1|]. split; [exact Hdesc'|]. split.
    + intros s Hs.
      pose proof (astar_visit_elem successors rest explored s) as He.
      rewrite Hvisit in He. destruct (He Hs) as [Hin | Hin].
      * assert (s ∈ frontier) as Hin' by (rewrite Hperm; right; exact Hin).
        destruct (Hrec s Hin') as (e0 & He0 & Hle0).
        destruct (V4 _ _ He0) as (e1 & He1 & Hle1).
        exists e1. split; [exact He1 | lia].
      * exact (V5 s Hin).
    + intros k e He. destruct (V3 k e He) as [Hold | (Hin & _ & Hkey)].
      * exact (Hkeys k e Hold).
      * split; [exact Hkey|]. rewrite Forall_forall in Hsucc. exact (Hsucc e Hin).
Qed.

Lemma astar_loop_config init : forall fuel frontier explored t,
  astar_config init frontier explored ->
  astar_loop fuel frontier explored = Some (Ok (Some t)) ->
  exists frontier' explored' rest,
    astar_config init frontier' explored' /\
    heappop State_lt frontier' = Ok (t, rest) /\ goal_test t = Ok true.
Proof.
  induction fuel as [|fuel IH]; intros frontier explored t Hc H; [discriminate|].
  cbn [astar_loop] in H. destruct frontier as [|x l]; [discriminate|].
  destruct (heappop State_lt (x :: l)) as [[curr rest]|] eqn:Hpop; [|discriminate].
  destruct (goal_test curr) as [[]|] eqn:Hgoal; [|..|discriminate].
  - injection H as <-. exists (x :: l), explored, rest. auto.
  - destruct (generate_successors curr) as [successors|] eqn:Hgen; [|discriminate].
    destruct (astar_visit successors rest explored) as [frontier' explored'] eqn:Hv.
    apply (IH frontier' explored' t); [|exact H].
    exact (config_step init _ _ _ _ _ _ _ Hc Hpop Hgoal Hgen Hv).
Qed.

(** X12. The A* search is best first: at every iteration the state
    [heappop] takes has the least f of the frontier and the rest of the
    frontier is kept; every state of the frontier is reached from the
    initial state and has its board recorded in [explored] with an f that
    is not larger; [explored] maps the text of a board to a state with that
    board.  The state [astar] returns was taken in this way. *)
Theorem astar_best_first (init : State) (frontier : list State)
    (explored : gmap string State) :
  astar_config init frontier explored ->
  (forall curr rest, heappop State_lt frontier = Ok (curr, rest) ->
     frontier ≡ₚ curr :: rest /\ forall s, s ∈ frontier -> f curr <= f s) /\
  (forall s, s ∈ frontier ->
     descends init s /\
     exists e, explored !! Board_str (board s) = Some e /\ f e <= f s) /\
  (forall k e, explored !! k = Some e ->
     Board_str (board e) = k /\ descends init e) /\
  (forall fuel t, astar_loop fuel frontier explored = Some (Ok (Some t)) ->
     exists frontier' explored' rest,
       astar_config init frontier' explored' /\
       heappop State_lt frontier' = Ok (t, rest) /\
       forall s, s ∈ frontier' -> f t <= f s).
Proof.
  intros Hc. destruct (astar_config_inv _ _ _ Hc) as (Hheap & Hdesc & Hrec & Hkeys).
  assert (forall F E, astar_config init F E ->
            forall curr rest, heappop State_lt F = Ok (curr, rest) ->
              F ≡ₚ curr :: rest /\ forall s, s ∈ F -> f curr <= f s) as Hpop.
  { intros F E HF curr rest Hp.
    destruct (astar_config_inv _ _ _ HF) as (HhF & _).
    split; [exact (heappop_perm _ _ _ _ Hp)|].
    destruct (heappop_ordered f _ _ _ HhF Hp) as [_ Hroot].
    exact (heap_root_least f _ _ HhF Hroot). }
  split; [exact (Hpop _ _ Hc)|]. split; [|split; [exact Hkeys|]].
  - intros s Hs. split; [|exact (Hrec s Hs)].
    rewrite Forall_forall in Hdesc. exact (Hdesc s Hs).
  - intros fuel t H.
    destruct (astar_loop_config init fuel _ _ t Hc H) as (F' & E' & rest & HF & Hp & _).
    exists F', E', rest. split; [exact HF|]. split; [exact Hp|].
    exact (proj2 (Hpop _ _ HF _ _ Hp)).
Qed.

Lemma astar_best_first_witness :
  let frontier := [near_initial] in
  let explored : gmap string State :=
    {[ Board_str (board near_initial) := near_initial ]} in
  (forall curr rest, heappop State_lt frontier = Ok (curr, rest) ->
     frontier ≡ₚ curr :: rest /\ forall s, s ∈ frontier -> f curr <= f s) /\
  (forall s, s ∈ frontier ->
     descends near_initial s /\
     exists e, explored !! Board_str (board s) = Some e /\ f e <= f s) /\
  (forall k e, explored !! k = Some e ->
     Board_str (board e) = k /\ descends near_initial e) /\
  (forall fuel t, astar_loop fuel frontier explored = Some (Ok (Some t)) ->
     exists frontier' explored' rest,
       astar_config near_initial frontier' explored' /\
       heappop State_lt frontier' = Ok (t, rest) /\
       forall s, s ∈ frontier' -> f t <= f s).
Proof. apply (astar_best_first near_initial). apply config_start. Defined.

(** ** The program *)

Lemma dfs_loop_fuel n : forall frontier explored r,
  dfs_loop n frontier explored = Some r ->
  forall m, (n <= m)%nat -> dfs_loop m frontier explored = Some r.
Proof.
  induction n as [|n IH]; intros frontier explored r H m Hm; [discriminate|].
  destruct m as [|m]; [lia|]. cbn [dfs_loop] in *.
  destruct frontier as [|x l]; [exact H|].
  destruct (list_pop (x :: l)) as [[curr rest]|]; [|exact H].
  destruct (goal_test curr) as [[]|]; try exact H.
  destruct (generate_successors curr) as [successors|]; [|exact H].
  destruct (dfs_visit successors rest explored) as [frontier' explored'].
  apply (IH _ _ _ H). lia.
Qed.

Lemma astar_loop_fuel n : forall frontier explored r,
  astar_loop n frontier explored = Some r ->
  forall m, (n <= m)%nat -> astar_loop m frontier explored = Some r.
Proof.
  induction n as [|n IH]; intros frontier explored r H m Hm; [discriminate|].
  destruct m as [|m]; [lia|]. cbn [astar_loop] in *.
  destruct frontier as [|x l]; [exact H|].
  destruct (heappop State_lt (x :: l)) as [[curr rest]|]; [|exact H].
  destruct (goal_test curr) as [[]|]; try exact H.
  destruct (generate_successors curr) as [successors|]; [|exact H].
  destruct (astar_visit successors rest explored) as [frontier' explored'].
  apply (IH _ _ _ H). lia.
Qed.

Lemma search_fuel algo init n m r1 r2 :
  match algo with
  | algo_astar => astar n init
  | algo_dfs => dfs n init
  end = Some r1 ->
  match algo with
  | algo_astar => astar m init
  | algo_dfs => dfs m init
  end = Some r2 ->
  r1 = r2.
Proof.
  intros H1 H2. destruct algo; unfold astar, dfs in *.
  - pose proof (astar_loop_fuel n _ _ _ H1 (Nat.max n m) (Nat.le_max_l n m)) as E1.
    pose proof (astar_loop_fuel m _ _ _ H2 (Nat.max n m) (Nat.le_max_r n m)) as E2.
    congruence.
  - pose proof (dfs_loop_fuel n _ _ _ H1 (Nat.max n m) (Nat.le_max_l n m)) as E1.
    pose proof (dfs_loop_fuel m _ _ _ H2 (Nat.max n m) (Nat.le_max_r n m)) as E2.
    congruence.
Qed.

Lemma main_fuel algo text n m out1 out2 :
  main algo text n = Some out1 -> main algo text m = Some out2 -> out1 = out2.
Proof.
  unfold main. intros H1 H2.
  destruct (read_from_file text) as [b|]; [|congruence].
  destruct (manhattan b) as [h|]; [|congruence]. cbn zeta in *.
  destruct (match algo with
            | algo_astar => astar n (mkState b h 0 None)
            | algo_dfs => dfs n (mkState b h 0 None)
            end) as [r1|] eqn:E1; [|discriminate].
  destruct (match algo with
            | algo_astar => astar m (mkState b h 0 None)
            | algo_dfs => dfs m (mkState b h 0 None)
            end) as [r2|] eqn:E2; [|discriminate].
  pose proof (search_fuel algo _ n m r1 r2 E1 E2) as ->. congruence.
Qed.

Lemma read_from_file_board_ok text b :
  read_from_file text = Ok b -> pieces_ok (pieces b) -> board_ok b.
Proof.
  intros H Hok. unfold read_from_file, Board_init in H.
  destruct (construct_grid _) as [g|] eqn:Hg; [|discriminate].
  injection H as <-. split; [exact Hok | exact Hg].
Qed.

Lemma solution_count init t :
  depth init = 0 -> parent init = None -> descends init t ->
  (get_solution (Some t)).2 = depth t + 1.
Proof.
  intros Hd0 Hroot Hdesc.
  destruct (descends_chain init t Hd0 Hdesc) as [Hnn Hchain].
  destruct (path_from_chain init t _ Hroot Hchain) as (Hlen & _).
  rewrite get_solution_count. cbn [collect_path]. rewrite Hlen. lia.
Qed.

Lemma search_terminates algo init :
  initial_state init ->
  exists fuel r,
    match algo with
    | algo_astar => astar fuel init
    | algo_dfs => dfs fuel init
    end = Some (Ok r).
Proof.
  intros Hinit. destruct algo.
  - apply astar_terminates, initial_good, Hinit.
  - destruct (dfs_terminates init (proj1 Hinit)) as [r Hr].
    exists (2 * length all_grids + 2)%nat, r. exact Hr.
Qed.

Lemma search_finds algo init g fuel r :
  initial_state init -> descends init g -> goal_test g = Ok true ->
  match algo with
  | algo_astar => astar fuel init
  | algo_dfs => dfs fuel init
  end = Some (Ok r) ->
  exists t, r = Some t /\ (algo = algo_astar -> depth t <= depth g).
Proof.
  intros Hinit Hg Hgoal H. destruct algo.
  - destruct (astar_result_optimal init g fuel r Hinit Hg Hgoal H) as (t & -> & Hle).
    exists t. auto.
  - destruct (dfs_result_complete init g fuel r (proj1 Hinit) Hg Hgoal H) as [t ->].
    exists t. split; [reflexivity | discriminate].
Qed.

Lemma search_sound algo init fuel t :
  match algo with
  | algo_astar => astar fuel init
  | algo_dfs => dfs fuel init
  end = Some (Ok (Some t)) ->
  descends init t /\ goal_test t = Ok true.
Proof.
  intros H. apply (search_result init fuel t).
  destruct algo; [right | left]; exact H.
Qed.

(** X13. The program on a well-formed input: when the text is read as a
    board of the data model, the program raises nothing and ends, with one
    result whatever the bound on the iterations; if some
    state satisfying the goal test can be reached it writes a path to such
    a state and prints its number of boards, the depth plus one, which with
    [--algo astar] is the least possible; if none can be reached it writes
    nothing and prints 0. *)
Theorem main_well_formed (algo : Algo) (text : list ascii) (b : Board) :
  read_from_file text = Ok b -> pieces_ok (pieces b) ->
  let init := mkState b (heuristic (pieces b)) 0 None in
  exists fuel r,
    main algo text fuel = Some (Ok (get_solution r)) /\
    (forall fuel' out, main algo text fuel' = Some out ->
       out = Ok (get_solution r)) /\
    (forall g, descends init g -> goal_test g = Ok true ->
       exists t, r = Some t /\ goal_test t = Ok true /\ descends init t /\
         (get_solution r).2 = depth t + 1 /\
         (algo = algo_astar -> depth t <= depth g)) /\
    ((forall g, descends init g -> goal_test g <> Ok true) ->
       r = None /\ get_solution r = (EmptyString, 0)).
Proof.
  intros Hread Hok init.
  pose proof (read_from_file_board_ok text b Hread Hok) as Hb.
  assert (initial_state init) as Hinit.
  { split; [exact Hb|]. split; [apply manhattan_ok, Hok|]. split; reflexivity. }
  destruct (search_terminates algo init Hinit) as (fuel & r & Hr).
  assert (main algo text fuel = Some (Ok (get_solution r))) as Hmain.
  { unfold main. rewrite Hread, (manhattan_ok b Hok). cbn zeta.
    fold init. rewrite Hr. reflexivity. }
  exists fuel, r. split; [exact Hmain|]. split; [|split].
  - intros fuel' out Hout. exact (main_fuel algo text fuel' fuel _ _ Hout Hmain).
  - intros g Hg Hgoal.
    destruct (search_finds algo init g fuel r Hinit Hg Hgoal Hr) as (t & -> & Hle).
    destruct (search_sound algo init fuel t Hr) as [Hdesc Hgt].
    exists t. split; [reflexivity|]. split; [exact Hgt|]. split; [exact Hdesc|].
    split; [|exact Hle]. apply (solution_count init); auto.
  - intros Hnone. destruct r as [t|]; [|split; reflexivity].
    destruct (search_sound algo init fuel t Hr) as [Hdesc Hgt].
    destruct (Hnone t Hdesc Hgt).
Qed.

Lemma main_well_formed_witness :
  let b := mkBoard (read_pieces (display near_board))
                   (grid_of_fun (paint (read_pieces (display near_board)))) in
  let init := mkState b (heuristic (pieces b)) 0 None in
  exists fuel r,
    main algo_astar (display near_board) fuel = Some (Ok (get_solution r)) /\
    (forall fuel' out, main algo_astar (display near_board) fuel' = Some out ->
       out = Ok (get_solution r)) /\
    (forall g, descends init g -> goal_test g = Ok true ->
       exists t, r = Some t /\ goal_test t = Ok true /\ descends init t /\
         (get_solution r).2 = depth t + 1 /\
         (algo_astar = algo_astar -> depth t <= depth g)) /\
    ((forall g, descends init g -> goal_test g <> Ok true) ->
       r = None /\ get_solution r = (EmptyString, 0)).
Proof.
  apply (main_well_formed algo_astar (display near_board)).
  - vm_compute. reflexivity.
  - apply pieces_okb_spec. vm_compute. reflexivity.
Defined.

(** ** Equality of boards *)

Lemma same_pieces_grid ps qs :
  pieces_ok ps -> pieces_ok qs -> ps ≡ₚ qs ->
  grid_of_fun (paint ps) = grid_of_fun (paint qs).
Proof.
  intros Hp Hq Hperm. apply grid_of_fun_ext. intros x y _ _.
  apply paint_same_one; [apply Hp | apply Hq|].
  exists ps. split; [exact Hperm|].
  apply Forall2_same_length_lookup. split; [reflexivity|].
  intros i a b Ha Hb. congruence.
Qed.

Lemma same_grid_pieces b1 b2 :
  board_ok b1 -> board_ok b2 -> grid b1 = grid b2 -> pieces b1 ≡ₚ pieces b2.
Proof.
  intros H1 H2 Hg.
  rewrite (board_ok_grid b1 H1), (board_ok_grid b2 H2) in Hg.
  rewrite <- (parse_display_perm (pieces b1) (proj1 H1)).
  rewrite <- (parse_display_perm (pieces b2) (proj1 H2)).
  unfold display_chars. rewrite Hg. reflexivity.
Qed.

(** X14. Equality of boards is equality of their pieces: two boards of the
    data model compare equal with [__eq__] exactly when they hold the same
    pieces, in any order; such boards have the same grid and the same
    hash. *)
Theorem board_eq_same_pieces (py_hash : string -> Z) (b1 b2 : Board) :
  board_ok b1 -> board_ok b2 ->
  (Board_eq b1 b2 = true <-> pieces b1 ≡ₚ pieces b2) /\
  (Board_eq b1 b2 = true ->
   grid b1 = grid b2 /\ Board_hash py_hash b1 = Board_hash py_hash b2).
Proof.
  intros H1 H2.
  assert (Board_eq b1 b2 = true -> grid b1 = grid b2) as Hgrid.
  { intros He. apply board_ok_key_grid; [exact H1 | exact H2|].
    apply String.eqb_eq. exact He. }
  split; [split|].
  - intros He. apply same_grid_pieces; auto.
  - intros Hperm. apply (Board_eq_hash_grid py_hash).
    rewrite (board_ok_grid b1 H1), (board_ok_grid b2 H2).
    apply same_pieces_grid; [apply H1 | apply H2 | exact Hperm].
  - intros He. split; [auto|]. apply (Board_eq_hash_grid py_hash). auto.
Qed.

Lemma board_eq_same_pieces_witness :
  let py_hash := fun s : string => Z.of_nat (String.length s) in
  let b2 := mkBoard (rev sparse_pieces) (grid_of_fun (paint (rev sparse_pieces))) in
  (Board_eq sparse_board b2 = true <-> pieces sparse_board ≡ₚ pieces b2) /\
  (Board_eq sparse_board b2 = true ->
   grid sparse_board = grid b2 /\
   Board_hash py_hash sparse_board = Board_hash py_hash b2).
Proof.
  apply board_eq_same_pieces.
  - exact sparse_board_ok.
  - apply Board_init_ok, pieces_okb_spec. vm_compute. reflexivity.
Defined.

(** ** Taking a move back *)

Ltac pick_cell := first [left; f_equal; lia | right; pick_cell].

Lemma destination_back p k d c :
  kind_of p = Some k ->
  c ∈ destination k (coord_x (shift_piece p d)) (coord_y (shift_piece p d))
        (opposite d) ->
  c ∈ cells p /\ c ∉ cells (shift_piece p d).
Proof.
  intros Hk Hc. unfold cells. rewrite kind_of_shift, Hk.
  destruct k, d; cbn [shift_piece coord_x coord_y opposite destination footprint] in *;
    rewrite !elem_of_cons, elem_of_nil in Hc;
    repeat (destruct Hc as [Hc | Hc]); try contradiction; subst c;
    (split;
     [rewrite !elem_of_cons; pick_cell
     |rewrite !elem_of_cons, elem_of_nil; intros H;
      repeat (destruct H as [H | H]); try (injection H; lia); exact H]).
Qed.

Lemma shift_back p d : shift_piece (shift_piece p d) (opposite d) = p.
Proof. destruct p, d; cbn; f_equal; lia. Qed.

Lemma legal_back ps idx p d :
  pieces_ok ps -> ps !! idx = Some p -> legal (paint ps) p d = true ->
  legal (paint (shift_piece p d :: delete idx ps)) (shift_piece p d)
        (opposite d) = true.
Proof.
  intros Hok Hp Hleg.
  pose proof (ok_typed _ Hok) as Hty. rewrite Forall_forall in Hty.
  assert (p ∈ ps) as Hin by (apply list_elem_of_lookup; eauto).
  destruct (typed_kind p (Hty p Hin)) as [k Hk].
  pose proof (ok_bounds _ Hok) as Hb. rewrite Forall_forall in Hb.
  specialize (Hb p Hin). unfold bounded in Hb. rewrite Forall_forall in Hb.
  unfold legal. rewrite kind_of_shift, Hk. apply forallb_forall.
  intros [x y] Hc. apply list_elem_of_In in Hc.
  destruct (destination_back p k d (x, y) Hk Hc) as [Hcp Hcq].
  cbn [fst snd]. apply free_spec. split; [exact (Hb _ Hcp)|].
  rewrite (paint_move ps idx p d x y Hok Hp Hleg).
  apply symbol_None in Hcq. rewrite Hcq.
  rewrite bool_decide_eq_true_2 by exact Hcp. reflexivity.
Qed.

Lemma successor_undone l s c :
  board_ok (board s) -> c ∈ successors_of s ->
  NoDup l ->
  (forall i j, free (paint (pieces (board c))) j i = true -> (i, j) ∈ l) ->
  (length l <= 3)%nat ->
  exists s', s' ∈ successors_of c /\ grid (board s') = grid (board s).
Proof.
  intros Hok Hc Hnd Hl Hlen.
  pose proof (successors_board_ok s c Hok Hc) as Hokc.
  apply elem_of_successors_of in Hc as (idx & p & d & Hp & Hd & ->).
  apply emitted_legal in Hd.
  pose proof (legal_back _ idx p d (proj1 Hok) Hp Hd) as Hback.
  exists (child_state (child_state s idx p d) 0 (shift_piece p d) (opposite d)).
  split.
  - apply elem_of_successors_of. exists 0%nat, (shift_piece p d), (opposite d).
    split; [reflexivity|]. split; [|reflexivity].
    apply (emitted_complete _ _ _ l Hnd Hl Hlen). exact Hback.
  - cbn [child_state board grid pieces delete]. rewrite shift_back.
    rewrite (board_ok_grid _ Hok).
    assert (p :: delete idx (pieces (board s)) ≡ₚ pieces (board s)) as Hperm
      by (symmetry; apply delete_Permutation, Hp).
    apply same_pieces_grid; [|apply Hok | exact Hperm].
    apply (pieces_ok_perm (pieces (board s))); [symmetry; exact Hperm | apply Hok].
Qed.

(** X15. On the boards with at most three empty cells every move can be
    taken back: a successor of a state that comes up in the search has
    itself a successor with the board of that state, equal to it for
    [__eq__]. *)
Theorem moves_can_be_undone (init s : State) (l : list (Z * Z))
    (successors : list State) (c : State) :
  board_ok (board init) -> empty_spaces (board init) = Ok l ->
  (length l <= 3)%nat -> descends init s ->
  generate_successors s = Ok successors -> c ∈ successors ->
  exists successors' s',
    generate_successors c = Ok successors' /\ s' ∈ successors' /\
    grid (board s') = grid (board s) /\
    Board_eq (board s') (board s) = true.
Proof.
  intros Hb Hl Hlen Hd Hg Hc.
  pose proof (descends_board_ok _ _ Hb Hd) as Hs.
  pose proof (descends_step init s successors c Hd Hg Hc) as Hdc.
  pose proof (descends_board_ok _ _ Hb Hdc) as Hokc.
  destruct (descends_empties _ _ Hb Hdc) as (l0 & l' & Hl0 & Hl' & Hn).
  assert (l0 = l) as -> by congruence.
  destruct (board_ok_empties _ Hokc) as (l1 & Hl1 & Hnd & Hin & _).
  assert (l1 = l') as -> by congruence.
  destruct (successor_undone l' s c Hs (descends_successor _ _ _ Hs Hg Hc) Hnd)
    as (s' & Hs' & Hgrid); [apply Hin | lia|].
  exists (successors_of c), s'.
  split; [apply generate_successors_ok, Hokc|]. split; [exact Hs'|].
  split; [exact Hgrid|].
  apply (Board_eq_hash_grid (fun _ => 0)). exact Hgrid.
Qed.

Lemma moves_can_be_undone_witness :
  let c := child_state classic_initial 6 (mkPiece false true 1 3 None) Down in
  exists successors' s',
    generate_successors c = Ok successors' /\ s' ∈ successors' /\
    grid (board s') = grid (board classic_initial) /\
    Board_eq (board s') (board classic_initial) = true.
Proof.
  apply (moves_can_be_undone classic_initial classic_initial [(4, 1); (4, 2)]
           (successors_of classic_initial)).
  - exact classic_board_ok.
  - vm_compute. reflexivity.
  - cbn. lia.
  - apply descends_root.
  - apply generate_successors_ok, classic_board_ok.
  - apply elem_of_successors_of.
    exists 6%nat, (mkPiece false true 1 3 None), Down.
    split; [reflexivity|]. split; [|reflexivity].
    apply single_moves_complete; [reflexivity | vm_compute; reflexivity].
Defined.

(** ** The order of expansion *)

Lemma descends_tidy init s : initial_state init -> descends init s -> tidy s.
Proof.
  intros (Hok & Hm & Hd & _) Hs. induction Hs as [|p successors s Hp IH Hg Hs].
  - split; [exact Hok|]. rewrite manhattan_ok in Hm by apply Hok.
    injection Hm as <-. lia.
  - pose proof (tidy_successors p (proj1 IH)) as Hall.
    rewrite Forall_forall in Hall. apply Hall.
    exact (descends_successor p successors s (proj1 IH) Hg Hs).
Qed.

Lemma tidy_successor_f p c : tidy p -> c ∈ successors_of p -> f p <= f c.
Proof.
  intros [Hok Hf] Hc.
  pose proof (tidy_successors p Hok) as Hall. rewrite Forall_forall in Hall.
  destruct (Hall c Hc) as [_ Hfc].
  pose proof (successor_heuristic p c Hok Hc).
  pose proof (successor_depth p c Hc). lia.
Qed.

(** X16. The A* search expands states in the order of their f: from an
    initial state over a board of the data model, after an iteration has
    taken [curr] from the frontier and visited its successors, no state of
    the frontier has an f below the f of [curr]; so the f of the states
    taken never decreases. *)
Theorem astar_f_monotone (init : State) (frontier : list State)
    (explored : gmap string State) (curr : State) (rest successors : list State)
    (frontier' : list State) (explored' : gmap string State) :
  initial_state init -> astar_config init frontier explored ->
  heappop State_lt frontier = Ok (curr, rest) ->
  generate_successors curr = Ok successors ->
  astar_visit successors rest explored = (frontier', explored') ->
  (forall s, s ∈ frontier' -> f curr <= f s) /\
  (forall next rest', heappop State_lt frontier' = Ok (next, rest') ->
     f curr <= f next).
Proof.
  intros Hinit Hc Hpop Hgen Hvisit.
  destruct (astar_config_inv _ _ _ Hc) as (Hheap & Hdesc & _).
  pose proof (heappop_perm _ _ _ _ Hpop) as Hperm.
  destruct (heappop_ordered f _ _ _ Hheap Hpop) as [_ Hroot].
  pose proof (heap_root_least f _ _ Hheap Hroot) as Hleast.
  rewrite Forall_forall in Hdesc.
  assert (curr ∈ frontier) as Hin by (rewrite Hperm; left).
  pose proof (descends_tidy init curr Hinit (Hdesc curr Hin)) as Htidy.
  assert (forall s, s ∈ frontier' -> f curr <= f s) as Hall.
  { intros s Hs. pose proof (astar_visit_elem successors rest explored s) as He.
    rewrite Hvisit in He. destruct (He Hs) as [Hr | Hsucc].
    - apply Hleast. rewrite Hperm. right. exact Hr.
    - apply (tidy_successor_f curr s Htidy).
      exact (descends_successor curr successors s (proj1 Htidy) Hgen Hsucc). }
  split; [exact Hall|]. intros next rest' Hpop'. apply Hall.
  rewrite (heappop_perm _ _ _ _ Hpop'). left.
Qed.

Lemma astar_f_monotone_witness :
  let successors := successors_of near_initial in
  let visited :=
    astar_visit successors []
      {[ Board_str (board near_initial) := near_initial ]} in
  (forall s, s ∈ visited.1 -> f near_initial <= f s) /\
  (forall next rest', heappop State_lt visited.1 = Ok (next, rest') ->
     f near_initial <= f next).
Proof.
  intros successors visited.
  apply (astar_f_monotone near_initial [near_initial]
           {[ Board_str (board near_initial) := near_initial ]}
           near_initial [] successors visited.1 visited.2).
  - exact near_initial_state.
  - apply config_start.
  - reflexivity.
  - apply generate_successors_ok, near_board_ok.
  - apply surjective_pairing.
Defined.

(** ** Paths without repeated boards *)

Lemma dfs_visit_new successors : forall F X F' X',
  dfs_visit successors F X = (F', X') ->
  exists new,
    F' = F ++ new /\ X' = X ++ map gridof new /\
    (forall c, c ∈ new -> c ∈ successors /\ gridof c ∉ X) /\
    (NoDup X -> NoDup X').
Proof.
  induction successors as [|c successors IH]; intros F X F' X' H.
  - injection H as <- <-. exists []. rewrite !app_nil_r.
    split; [reflexivity|]. split; [reflexivity|]. split; [|auto].
    intros c' Hc'. inversion Hc'.
  - cbn [dfs_visit] in H.
    destruct (bool_decide (grid (board c) ∈ X)) eqn:Hd.
    + destruct (IH _ _ _ _ H) as (new & -> & -> & Hnew & Hnd).
      exists new. split; [reflexivity|]. split; [reflexivity|].
      split; [|exact Hnd]. intros c' Hc'. destruct (Hnew c' Hc') as [H1 H2].
      split; [right; exact H1 | exact H2].
    + apply bool_decide_eq_false in Hd.
      destruct (IH _ _ _ _ H) as (new & -> & -> & Hnew & Hnd).
      exists (c :: new). rewrite <- !app_assoc. cbn [app map].
      split; [reflexivity|]. split; [reflexivity|]. split.
      * intros c' Hc'. apply elem_of_cons in Hc' as [-> | Hc'].
        -- split; [left | exact Hd].
        -- destruct (Hnew c' Hc') as [H1 H2]. split; [right; exact H1|].
           intros Hin. apply H2, elem_of_app. left. exact Hin.
      * intros HX. rewrite <- app_assoc in Hnd. cbn [app] in Hnd. apply Hnd.
        apply NoDup_app. split; [exact HX|]. split.
        -- intros g Hg Hg'. apply list_elem_of_singleton in Hg'. subst g.
           exact (Hd Hg).
        -- apply NoDup_singleton.
Qed.

Lemma dfs_inv_step init frontier explored curr rest frontier' explored' :
  board_ok (board init) -> dfs_inv init frontier explored ->
  list_pop frontier = Ok (curr, rest) -> goal_test curr = Ok false ->
  dfs_visit (successors_of curr) rest explored = (frontier', explored') ->
  board_ok (board curr) /\ dfs_inv init frontier' explored'.
Proof.
  intros Hok (P & HX & Hnd & HF & HP & Hfirst) Hpop Hgoal Hvisit.
  apply list_pop_spec in Hpop. subst frontier.
  assert (curr = init \/ curr ∈ P) as Hcurr
    by (apply HF, elem_of_app; right; left).
  assert (board_ok (board curr)) as Hokc.
  { destruct Hcurr as [-> | Hc]; [exact Hok | apply HP, Hc]. }
  split; [exact Hokc|].
  destruct (dfs_visit_new _ _ _ _ _ Hvisit) as (new & -> & -> & Hnew & Hnd').
  destruct (dfs_visit_spec _ _ _ _ _ Hvisit) as (_ & V2 & V3 & _).
  exists (P ++ new). split; [rewrite map_app, HX; reflexivity|].
  split; [exact (Hnd' Hnd)|].
  assert (forall s, s ∈ P ++ new -> s ∈ P \/ s ∈ new) as Hsplit
    by (intros s Hs; apply elem_of_app in Hs; exact Hs).
  split; [|split].
  - intros s Hs. apply elem_of_app in Hs as [Hs | Hs].
    + destruct (HF s) as [-> | Hin]; [apply elem_of_app; left; exact Hs | left; reflexivity|].
      right. apply elem_of_app. left. exact Hin.
    + right. apply elem_of_app. right. exact Hs.
  - intros s Hs. destruct (Hsplit s Hs) as [Hin | Hin].
    + destruct (HP s Hin) as (Hoks & p & Hp & Hd & Hwhere).
      split; [exact Hoks|]. exists p. split; [exact Hp|]. split; [exact Hd|].
      destruct Hwhere as [-> | [Hpin Hpg]]; [left; reflexivity|].
      right. split; [apply elem_of_app; left; exact Hpin | exact Hpg].
    + destruct (Hnew s Hin) as [Hsucc Hfresh].
      split; [exact (successors_board_ok curr s Hokc Hsucc)|].
      destruct (successor_fields curr (successors_of curr) s
                  (generate_successors_ok curr Hokc) Hsucc) as (Hd & _ & Hp).
      exists curr. split; [exact Hp|]. split; [exact Hd|].
      destruct Hcurr as [-> | Hc]; [left; reflexivity|].
      right. split; [apply elem_of_app; left; exact Hc|].
      intros Hsame.
      assert (P <> []) as HPne by (intros ->; inversion Hc).
      destruct (Hfirst HPne) as [_ Hall].
      destruct (successors_simulate curr init s Hokc Hok Hsame Hsucc)
        as (c2 & Hc2 & Hg2).
      apply Hfresh. unfold gridof. rewrite <- Hg2. apply Hall, Hc2.
  - intros Hne. destruct (decide (P = [])) as [-> | HPne].
    + destruct Hcurr as [-> | Hc]; [|inversion Hc].
      split; [exact Hgoal|]. intros c Hc. apply V3, Hc.
    + destruct (Hfirst HPne) as [Hg Hall]. split; [exact Hg|].
      intros c Hc. apply elem_of_app. left. apply Hall, Hc.
Qed.

Lemma dfs_loop_inv init :
  board_ok (board init) ->
  forall fuel frontier explored t,
    dfs_inv init frontier explored ->
    dfs_loop fuel frontier explored = Some (Ok (Some t)) ->
    exists frontier' explored',
      dfs_inv init frontier' explored' /\ t ∈ frontier' /\
      goal_test t = Ok true.
Proof.
  intros Hok. induction fuel as [|fuel IH]; intros frontier explored t Hinv H;
    [discriminate|].
  cbn [dfs_loop] in H. destruct frontier as [|x l]; [discriminate|].
  destruct (list_pop (x :: l)) as [[curr rest]|] eqn:Hpop; [|discriminate].
  destruct (goal_test curr) as [[]|] eqn:Hgoal; [|..|discriminate].
  - injection H as <-. exists (x :: l), explored. split; [exact Hinv|].
    split; [|exact Hgoal]. apply list_pop_spec in Hpop. rewrite Hpop.
    apply elem_of_app. right. left.
  - destruct (generate_successors curr) as [successors|] eqn:Hgen; [|discriminate].
    destruct (dfs_visit successors rest explored) as [frontier' explored'] eqn:Hv.
    assert (board_ok (board curr)) as Hokc.
    { destruct Hinv as (P & _ & _ & HF & HP & _).
      destruct (HF curr) as [-> | Hc]; [|exact Hok | apply HP, Hc].
      apply list_pop_spec in Hpop. rewrite Hpop. apply elem_of_app. right. left. }
    rewrite (generate_successors_ok curr Hokc) in Hgen. injection Hgen as <-.
    destruct (dfs_inv_step init _ _ _ _ _ _ Hok Hinv Hpop Hgoal Hv) as [_ Hinv'].
    exact (IH _ _ t Hinv' H).
Qed.

Lemma dfs_inv_start init : dfs_inv init [init] [].
Proof.
  exists []. split; [reflexivity|]. split; [constructor|]. split; [|split].
  - intros s Hs. apply list_elem_of_singleton in Hs. left. exact Hs.
  - intros s Hs. inversion Hs.
  - intros H. destruct H. reflexivity.
Qed.

Lemma NoDup_fmap_elem {A B} (h : A -> B) (l : list A) a b :
  NoDup (map h l) -> a ∈ l -> b ∈ l -> h a = h b -> a = b.
Proof.
  intros Hnd Ha Hb Heq.
  apply list_elem_of_lookup in Ha as [i Hi]. apply list_elem_of_lookup in Hb as [j Hj].
  assert (map h l !! i = Some (h a)) as Hi' by (rewrite list_lookup_fmap, Hi; reflexivity).
  assert (map h l !! j = Some (h a)) as Hj' by (rewrite list_lookup_fmap, Hj, Heq; reflexivity).
  pose proof (NoDup_lookup _ _ _ _ Hnd Hi' Hj') as ->. congruence.
Qed.

Lemma descends_parent_chain init s :
  descends init s -> exists n, parent_chain init s n.
Proof.
  induction 1 as [|p successors s Hp [n IH] Hg Hs].
  - exists 0%nat. constructor.
  - exists (S n). apply (chain_link init s p successors n); try assumption.
    apply (successor_fields p successors s Hg Hs).
Qed.

Lemma pushed_path_distinct init (P : list State) n s :
  parent init = None -> NoDup (map gridof P) ->
  (forall s, s ∈ P ->
     board_ok (board s) /\
     exists p, parent s = Some p /\ depth s = depth p + 1 /\
       (p = init \/ (p ∈ P /\ gridof p <> gridof init))) ->
  parent_chain init s n ->
  s = init \/ (s ∈ P /\ gridof s <> gridof init) ->
  NoDup (map grid (path_from s)) /\
  forall b, b ∈ path_from s ->
    exists a, board a = b /\ depth a <= depth s /\
      (a = init \/ (a ∈ P /\ gridof a <> gridof init)).
Proof.
  intros Hroot Hnd HP Hc. induction Hc as [|s p successors n Hp Hg Hs Hc IH];
    intros Hwhere.
  - rewrite path_from_unfold, Hroot. cbn [map]. split; [apply NoDup_singleton|].
    intros b Hb. apply list_elem_of_singleton in Hb. subst b.
    exists init. split; [reflexivity|]. split; [lia | left; reflexivity].
  - destruct Hwhere as [-> | [Hin Hne]]; [rewrite Hroot in Hp; discriminate|].
    destruct (HP s Hin) as (_ & p' & Hp' & Hd & Hwp).
    assert (p' = p) as -> by congruence.
    destruct (IH Hwp) as [IHnd IHall].
    rewrite path_from_unfold, Hp. cbn [map]. split.
    + apply NoDup_cons. split; [|exact IHnd].
      intros Hdup. apply list_elem_of_fmap in Hdup as (b & Hgb & Hb).
      destruct (IHall b Hb) as (a & <- & Hda & [-> | [Ha Hga]]).
      * apply Hne. exact Hgb.
      * assert (s = a) as -> by (apply (NoDup_fmap_elem gridof P); assumption).
        lia.
    + intros b Hb. apply elem_of_cons in Hb as [-> | Hb].
      * exists s. split; [reflexivity|]. split; [lia | right; auto].
      * destruct (IHall b Hb) as (a & Hba & Hda & Hwa).
        exists a. split; [exact Hba|]. split; [lia | exact Hwa].
Qed.

Lemma dfs_path_distinct init fuel t :
  board_ok (board init) -> parent init = None ->
  dfs fuel init = Some (Ok (Some t)) ->
  NoDup (map grid (path_from t)).
Proof.
  intros Hok Hroot H.
  destruct (search_result init fuel t (or_introl H)) as [Hdesc _].
  destruct (descends_parent_chain init t Hdesc) as [n Hchain].
  unfold dfs in H.
  destruct (dfs_loop_inv init Hok fuel [init] [] t (dfs_inv_start init) H)
    as (F & X & (P & HX & Hnd & HF & HP & Hfirst) & Ht & Hgoal).
  rewrite HX in Hnd.
  apply (pushed_path_distinct init P n t Hroot Hnd HP Hchain).
  destruct (HF t Ht) as [-> | Hin]; [left; reflexivity|].
  right. split; [exact Hin|]. intros Hsame.
  assert (P <> []) as HPne by (intros ->; inversion Hin).
  destruct (Hfirst HPne) as [Hng _].
  rewrite <- (same_grid_goal_test t init Hsame), Hgoal in Hng. discriminate.
Qed.

Lemma reach_simulate a g k :
  reach a g k -> forall a',
  board_ok (board a) -> board_ok (board a') ->
  grid (board a) = grid (board a') ->
  exists g', reach a' g' k /\ grid (board g') = grid (board g).
Proof.
  induction 1 as [a|a c g k _ Hc Hr IH]; intros a' Hok Hok' Hg.
  - exists a'. split; [constructor | symmetry; exact Hg].
  - destruct (successors_simulate a a' c Hok Hok' Hg Hc) as (c' & Hc' & Hgc).
    destruct (IH c' (successors_board_ok a c Hok Hc)
                (successors_board_ok a' c' Hok' Hc') (eq_sym Hgc))
      as (g' & Hr' & Hgg).
    exists g'. split; [|exact Hgg].
    exact (reach_next a' c' g' k Hok' Hc' Hr').
Qed.

Lemma reach_descends init a g k :
  descends init a -> reach a g k -> descends init g.
Proof.
  intros Hd Hr. induction Hr as [a|a c g k Hok Hc Hr IH]; [exact Hd|].
  apply IH. apply (descends_step init a (successors_of a) c Hd); [|exact Hc].
  apply generate_successors_ok, Hok.
Qed.

Lemma chain_descends init s n : parent_chain init s n -> descends init s.
Proof.
  induction 1 as [|s p successors n Hp Hg Hs Hc IH]; [constructor|].
  exact (descends_step init p successors s IH Hg Hs).
Qed.

Lemma chain_ancestors init s n :
  parent init = None -> parent_chain init s n ->
  forall b, b ∈ path_from s ->
    exists a, board a = b /\ descends init a /\ depth a <= depth s.
Proof.
  intros Hroot Hc. induction Hc as [|s p successors n Hp Hg Hs Hc IH]; intros b Hb.
  - rewrite path_from_unfold, Hroot in Hb. apply list_elem_of_singleton in Hb.
    subst b. exists init. split; [reflexivity|]. split; [constructor | lia].
  - rewrite path_from_unfold, Hp in Hb.
    pose proof (successor_fields p successors s Hg Hs) as (Hd & _).
    apply elem_of_cons in Hb as [-> | Hb].
    + exists s. split; [reflexivity|]. split; [|lia].
      exact (descends_step init p successors s (chain_descends _ _ _ Hc) Hg Hs).
    + destruct (IH b Hb) as (a & Hba & Hda & Hle).
      exists a. split; [exact Hba|]. split; [exact Hda | lia].
Qed.

Lemma optimal_path_distinct init t :
  board_ok (board init) -> parent init = None ->
  descends init t -> goal_test t = Ok true ->
  (forall g, descends init g -> goal_test g = Ok true -> depth t <= depth g) ->
  NoDup (map grid (path_from t)).
Proof.
  intros Hok Hroot Hdesc Hgoal Hbest.
  destruct (descends_parent_chain init t Hdesc) as [n Hchain].
  assert (forall n s, parent_chain init s n ->
            forall k, reach s t k -> NoDup (map grid (path_from s))) as Hall.
  { clear n Hchain. intros n s Hc.
    induction Hc as [|s p successors n Hp Hg Hs Hc IH]; intros k Hr.
    - rewrite path_from_unfold, Hroot. apply NoDup_singleton.
    - pose proof (chain_descends _ _ _ Hc) as Hdp.
      pose proof (descends_board_ok init p Hok Hdp) as Hokp.
      pose proof (descends_successor p successors s Hokp Hg Hs) as Hs'.
      pose proof (successors_board_ok p s Hokp Hs') as Hoks.
      rewrite path_from_unfold, Hp. cbn [map]. apply NoDup_cons. split.
      + intros Hdup. apply list_elem_of_fmap in Hdup as (b & Hgb & Hb).
        destruct (chain_ancestors init p n Hroot Hc b Hb) as (a & <- & Hda & Hle).
        pose proof (descends_board_ok init a Hok Hda) as Hoka.
        destruct (reach_simulate s t k Hr a Hoks Hoka Hgb) as (t' & Hr' & Hgt).
        pose proof (reach_descends init a t' k Hda Hr') as Hdt'.
        pose proof (Hbest t' Hdt') as Hle'.
        rewrite (same_grid_goal_test t' t Hgt) in Hle'. specialize (Hle' Hgoal).
        pose proof (reach_depth _ _ _ Hr). pose proof (reach_depth _ _ _ Hr').
        pose proof (successor_depth p s Hs'). lia.
      + apply (IH (S k)). exact (reach_next p s t k Hokp Hs' Hr). }
  exact (Hall n t Hchain 0%nat (reach_here t)).
Qed.

Lemma astar_path_distinct init fuel t :
  initial_state init -> astar fuel init = Some (Ok (Some t)) ->
  NoDup (map grid (path_from t)).
Proof.
  intros Hinit H.
  destruct (search_result init fuel t (or_intror H)) as [Hdesc Hgoal].
  apply (optimal_path_distinct init t); try assumption; try apply Hinit.
  intros g Hg Hgg.
  destruct (astar_result_optimal init g fuel (Some t) Hinit Hg Hgg H)
    as (t' & Heq & Hle).
  injection Heq as <-. exact Hle.
Qed.

(** X17. A solution never shows a board twice: on the path that [dfs] or
    [astar] returns from an initial state over a board of the data model,
    and that [get_solution] writes, all grids are different; for [dfs] this
    holds although the initial grid is not put in [explored]. *)
Theorem solution_without_loops (init : State) (fuel : nat) (t : State) :
  initial_state init ->
  dfs fuel init = Some (Ok (Some t)) \/ astar fuel init = Some (Ok (Some t)) ->
  let path := rev (collect_path (Some t)) in
  NoDup (map grid path) /\
  forall i j b b', path !! i = Some b -> path !! j = Some b' -> i <> j ->
    Board_eq b b' = false.
Proof.
  intros Hinit H. cbn zeta. cbn [collect_path].
  assert (NoDup (map grid (path_from t))) as Hnd.
  { destruct H as [H | H].
    - apply (dfs_path_distinct init fuel t); [apply Hinit | apply Hinit | exact H].
    - exact (astar_path_distinct init fuel t Hinit H). }
  assert (NoDup (map grid (rev (path_from t)))) as Hnd'.
  { rewrite map_rev, <- Permutation_rev. exact Hnd. }
  split; [exact Hnd'|].
  destruct (search_result init fuel t H) as [Hdesc _].
  destruct (descends_parent_chain init t Hdesc) as [n Hchain].
  destruct (chain_slides init t n (proj1 Hinit)
              (proj2 (proj2 (proj2 Hinit))) Hchain) as [Hall _].
  intros i j b b' Hi Hj Hne.
  assert (forall x, x ∈ rev (path_from t) -> board_ok x) as Hok.
  { intros x Hx. rewrite Forall_forall in Hall. apply Hall.
    apply list_elem_of_In, in_rev, list_elem_of_In. exact Hx. }
  destruct (Board_eq b b') eqn:He; [|reflexivity]. exfalso.
  apply String.eqb_eq in He.
  assert (grid b = grid b') as Hg.
  { apply board_ok_key_grid; [| |exact He]; apply Hok;
      apply list_elem_of_lookup; eauto. }
  apply Hne. apply (NoDup_lookup _ i j (grid b) Hnd').
  - rewrite list_lookup_fmap, Hi. reflexivity.
  - rewrite list_lookup_fmap, Hj, Hg. reflexivity.
Qed.

Lemma solution_without_loops_witness :
  let path := rev (collect_path (Some near_solved)) in
  NoDup (map grid path) /\
  forall i j b b', path !! i = Some b -> path !! j = Some b' -> i <> j ->
    Board_eq b b' = false.
Proof.
  apply (solution_without_loops near_initial 2 near_solved).
  - exact near_initial_state.
  - right. vm_compute. reflexivity.
Defined.
